(** * tc-translate: terminology-controlled pre/post-processing

    A shallow embedding of [tc_translate/terminology_manager.py]
    (class [TerminologyManager]) and of the library calls it relies on
    ([re.sub] with the pattern [\b<escaped term>\b] and [re.IGNORECASE],
    [str.replace], [str.lower], [str.strip], [sorted], Python [dict]s with
    their insertion order).

    Conventions of the model
    - a Python [str] is a [list ascii]; the character classes ([\w], case
      folding, white space) are given on the ASCII range, where they are
      those of Python, and the statements about matching, case and white
      space are made for ASCII strings ([ascii_str]);
    - a Python [dict] is an association list in insertion order: assigning
      to a key that is present keeps its position and replaces its value;
    - a raised exception is the [Err] branch of [result]. *)

From Stdlib Require Import Ascii String.
From Stdlib Require Import List ZArith Lia Bool Arith.
From Stdlib Require Import Permutation Sorted.
From Stdlib Require Import DecimalString DecimalZ.
Import ListNotations.

Set Implicit Arguments.

(** ** Strings and characters *)

Definition pystr := list ascii.

Definition str (s : string) : pystr := list_ascii_of_string s.

Definition ascii_eqb (a b : ascii) : bool := Ascii.eqb a b.

Arguments ascii_eqb : simpl never.

Fixpoint str_eqb (a b : pystr) : bool :=
  match a, b with
  | [], [] => true
  | x :: a', y :: b' => ascii_eqb x y && str_eqb a' b'
  | _, _ => false
  end.

Definition in_range (lo hi : nat) (c : ascii) : bool :=
  let n := nat_of_ascii c in (lo <=? n) && (n <=? hi).

Definition is_digit (c : ascii) : bool := in_range 48 57 c.
Definition is_upper (c : ascii) : bool := in_range 65 90 c.
Definition is_lower (c : ascii) : bool := in_range 97 122 c.

(** [\w] on an ASCII character: letters, digits and the underscore. *)
Definition is_word (c : ascii) : bool :=
  is_digit c || is_upper c || is_lower c || ascii_eqb c "_"%char.

(** [str.isspace] on an ASCII character: TAB..CR, FS..US and the blank. *)
Definition is_space (c : ascii) : bool :=
  in_range 9 13 c || in_range 28 32 c.

(** [str.lower] on an ASCII character. *)
Definition lower_char (c : ascii) : ascii :=
  if is_upper c then ascii_of_nat (nat_of_ascii c + 32) else c.

Definition lower (s : pystr) : pystr := map lower_char s.

Fixpoint lstrip (s : pystr) : pystr :=
  match s with
  | c :: s' => if is_space c then lstrip s' else s
  | [] => []
  end.

Definition rstrip (s : pystr) : pystr := rev (lstrip (rev s)).

(** [str.strip()] *)
Definition strip (s : pystr) : pystr := rstrip (lstrip s).

(** [str(n)] / the f-string rendering of an [int]. *)
Definition str_of_int (z : Z) : pystr :=
  list_ascii_of_string (NilEmpty.string_of_int (Z.to_int z)).

(** ** [re]: the pattern [\b LITERAL \b] under [re.IGNORECASE] *)

Definition word_opt (c : option ascii) : bool :=
  match c with Some a => is_word a | None => false end.

(** [\b] between the character before the position and the one at it. *)
Definition at_boundary (prev next : option ascii) : bool :=
  xorb (word_opt prev) (word_opt next).

(** The literal, compared character by character after case folding. *)
Fixpoint ci_prefix (pat text : pystr) : bool :=
  match pat, text with
  | [], _ => true
  | p :: pat', c :: text' =>
      ascii_eqb (lower_char p) (lower_char c) && ci_prefix pat' text'
  | _ :: _, [] => false
  end.

(** The character that precedes the position [n] characters further on. *)
Definition prev_after (n : nat) (prev : option ascii) (text : pystr)
  : option ascii :=
  match n with
  | O => prev
  | S k => nth_error text k
  end.

(** Does [\b pat \b] match at the current position?  [prev] is the
    character before it in the subject string, [text] what follows. *)
Definition match_here (pat : pystr) (prev : option ascii) (text : pystr)
  : bool :=
  at_boundary prev (hd_error text)
  && ci_prefix pat text
  && at_boundary (prev_after (length pat) prev text)
                 (hd_error (skipn (length pat) text)).

Section ReSub.
(** [pattern.sub(repl, text)] with a callable [repl]: the scan goes left
    to right over the subject, every match is handed to the callback and
    replaced by what it returns, and the scan resumes after the match.
    The callback of [preprocess_text] writes to a dictionary, so it is a
    state transformer here.  [skip] counts the characters of the current
    match still to be passed over. *)
Variable St : Type.
Variable pat : pystr.
Variable repl : St -> pystr * St.

Fixpoint sub_scan (prev : option ascii) (skip : nat) (text : pystr)
         (st : St) : pystr * St :=
  match text with
  | [] =>
      match skip with
      | O => if match_here pat prev [] then repl st else ([], st)
      | S _ => ([], st)
      end
  | c :: rest =>
      match skip with
      | S k => sub_scan (Some c) k rest st
      | O =>
          if match_here pat prev text then
            let (r, st1) := repl st in
            match length pat with
            | O =>
                let (out, st2) := sub_scan (Some c) 0 rest st1 in
                (r ++ c :: out, st2)
            | S k =>
                let (out, st2) := sub_scan (Some c) k rest st1 in
                (r ++ out, st2)
            end
          else
            let (out, st2) := sub_scan (Some c) 0 rest st in
            (c :: out, st2)
      end
  end.

Definition re_sub (text : pystr) (st : St) : pystr * St :=
  sub_scan None 0 text st.
End ReSub.

(** ** [str.replace(old, new)] *)

Fixpoint is_prefix (p s : pystr) : bool :=
  match p, s with
  | [], _ => true
  | a :: p', b :: s' => ascii_eqb a b && is_prefix p' s'
  | _ :: _, [] => false
  end.

Section Replace.
Variable old new : pystr.

Fixpoint replace_scan (skip : nat) (text : pystr) : pystr :=
  match text with
  | [] =>
      match skip, old with
      | O, [] => new
      | _, _ => []
      end
  | c :: rest =>
      match skip with
      | S k => replace_scan k rest
      | O =>
          if is_prefix old text then
            match length old with
            | O => new ++ c :: replace_scan 0 rest
            | S k => new ++ replace_scan k rest
            end
          else c :: replace_scan 0 rest
      end
  end.

Definition replace (text : pystr) : pystr := replace_scan 0 text.
End Replace.

(** ** Python dictionaries *)

Section Dict.
Variables K V : Type.
Variable keq : K -> K -> bool.

Definition dict := list (K * V).

Fixpoint dict_get (d : dict) (k : K) : option V :=
  match d with
  | [] => None
  | (k', v) :: d' => if keq k' k then Some v else dict_get d' k
  end.

(** [d[k] = v] *)
Fixpoint dict_set (d : dict) (k : K) (v : V) : dict :=
  match d with
  | [] => [(k, v)]
  | (k', v') :: d' =>
      if keq k' k then (k', v) :: d' else (k', v') :: dict_set d' k v
  end.

Definition dict_mem (d : dict) (k : K) : bool :=
  match dict_get d k with Some _ => true | None => false end.

Definition dict_keys (d : dict) : list K := map fst d.
Definition dict_values (d : dict) : list V := map snd d.
End Dict.

Arguments dict : clear implicits.

(** ** Data model *)

Record Term := mkTerm {
  id : Z;
  term : pystr;
  translation : pystr;
  domain : pystr;
  language : pystr;
  google_lang_code : pystr
}.

Definition placeholder (t : Term) : pystr :=
  str "<" ++ str_of_int (id t) ++ str ">".

(** The callback [replace_with_placeholder] of [preprocess_text]. *)
Definition replace_with_placeholder (term_obj : Term)
           (replacements : dict pystr Term) : pystr * dict pystr Term :=
  let placeholder := placeholder term_obj in
  (placeholder, dict_set str_eqb replacements placeholder term_obj).

(** One iteration of the loop over [sorted_terms]. *)
Definition preprocess_step (state : pystr * dict pystr Term)
           (term_obj : Term) : pystr * dict pystr Term :=
  re_sub (term term_obj) (replace_with_placeholder term_obj)
         (fst state) (snd state).

(** [sorted(values, key=lambda x: len(x.term), reverse=True)]: stable,
    longest first. *)
Fixpoint insert_by_len (x : Term) (l : list Term) : list Term :=
  match l with
  | [] => [x]
  | y :: l' =>
      if length (term x) <? length (term y)
      then y :: insert_by_len x l'
      else x :: l
  end.

Definition sort_by_len_desc (l : list Term) : list Term :=
  fold_right insert_by_len [] l.

Definition preprocess_terms (terms_dict : dict pystr Term) (text : pystr)
  : pystr * dict pystr Term :=
  fold_left preprocess_step
            (sort_by_len_desc (dict_values terms_dict)) (text, []).

(** [postprocess_text] *)
Definition postprocess_text (text : pystr) (replacements : dict pystr Term)
  : pystr :=
  fold_left (fun text e => replace (fst e) (translation (snd e)) text)
            replacements text.


(** ** Exceptions *)

(** The exceptions the class raises or lets through.  The two
    [ValueError]s of [preprocess_text] differ in their message only; the
    model keeps the data the message is built from.  [ReadCsvError] stands
    for whatever [pd.read_csv] raises, [KeyError] is raised by [row[...]]
    for a column the frame does not have, and the next three by
    [int(...)]: on a missing ([NaN]) cell, on an infinite one and on a text
    that is no integer literal.  Their messages name neither the file nor
    the row. *)
Inductive error :=
| FileNotFoundError (terminologies_dir : pystr)
| ReadCsvError
| KeyError (column : pystr)
| ValueError_nan_to_int
| OverflowError_inf_to_int
| ValueError_invalid_literal (s : pystr)
| ValueError_no_terminology (domain language : pystr)
                            (available_langs : list pystr)
| ValueError_domain_not_found (domain : pystr)
                              (available_domains : list pystr).

Inductive result (A : Type) :=
| Ok (a : A)
| Err (e : error).

Arguments Ok {A} a.
Arguments Err {A} e.

(** ** The terminology directory *)

(** A cell of the column [id], by what [int(...)] makes of it: a value
    for which it returns the integer [z] (a finite number, [z] being its
    integer part, or a text that is an integer literal), an empty field
    ([NaN]), an infinite number, or a text for which it raises, being no
    integer literal. *)
Inductive id_cell :=
| IdNum (z : Z)
| IdNaN
| IdInf
| IdText (s : pystr).

(** A row as [df.iterrows()] yields it.  Of a cell of the columns [term]
    and [translation] the code takes [str(...)] only: [None] is the empty
    field ([NaN]) and [Some s] any other value, [s] being what [str]
    returns for it. *)
Record Row := mkRow {
  row_id : id_cell;
  row_term : option pystr;
  row_translation : option pystr
}.

(** [int(cell)] *)
Definition int_cell (c : id_cell) : result Z :=
  match c with
  | IdNum z => Ok z
  | IdNaN => Err ValueError_nan_to_int
  | IdInf => Err OverflowError_inf_to_int
  | IdText s => Err (ValueError_invalid_literal s)
  end.

(** [str(cell)] *)
Definition str_cell (c : option pystr) : pystr :=
  match c with
  | Some s => s
  | None => str "nan"
  end.

(** What [pd.read_csv] makes of a file: it raises (no columns to parse, a
    directory, bytes it cannot decode, ...) or returns a frame, with its
    column labels. *)
Inductive Csv :=
| Unreadable
| DataFrame (columns : list pystr) (rows : list Row).

Definition File := (pystr * Csv)%type.

(** A file system: the listing of a directory, [None] when the path does
    not exist. *)
Definition FileSystem := pystr -> option (list File).

(** [re.compile(r'(.+)_terms_(.+)\.csv$').match(filename)] *)

Definition newline : ascii := ascii_of_nat 10.

Definition dot_plus (s : pystr) : bool :=
  match s with
  | [] => false
  | _ => forallb (fun c => negb (ascii_eqb c newline)) s
  end.

Definition match_language (r : pystr) : option pystr :=
  let body :=
    match rev r with
    | c :: r' => if ascii_eqb c newline then rev r' else r
    | [] => r
    end in
  let n := length body - 4 in
  if (4 <=? length body) && str_eqb (skipn n body) (str ".csv")
     && dot_plus (firstn n body)
  then Some (firstn n body) else None.

Fixpoint match_filename_from (dom_rev rest : pystr)
  : option (pystr * pystr) :=
  match rest with
  | [] => None
  | c :: rest' =>
      match match_filename_from (c :: dom_rev) rest' with
      | Some r => Some r
      | None =>
          if dot_plus (rev dom_rev) && is_prefix (str "_terms_") rest then
            match match_language (skipn 7 rest) with
            | Some l => Some (rev dom_rev, l)
            | None => None
            end
          else None
      end
  end.

Definition filename_pattern (filename : pystr) : option (pystr * pystr) :=
  match_filename_from [] filename.

(** ** Sets and [sorted] *)

Definition pair_eqb (a b : pystr * pystr) : bool :=
  str_eqb (fst a) (fst b) && str_eqb (snd a) (snd b).

Section PySet.
Variable A : Type.
Variable eqb : A -> A -> bool.

Definition mem (x : A) (l : list A) : bool := existsb (eqb x) l.

(** [s.add(x)]; the list order stands for the iteration order of the
    set, which Python leaves unspecified. *)
Definition set_add (x : A) (l : list A) : list A :=
  if mem x l then l else l ++ [x].

Definition set_of_list (l : list A) : list A :=
  fold_left (fun s x => set_add x s) l [].
End PySet.

Fixpoint str_leb (a b : pystr) : bool :=
  match a, b with
  | [], _ => true
  | _ :: _, [] => false
  | x :: a', y :: b' =>
      let n := nat_of_ascii x in
      let m := nat_of_ascii y in
      if n <? m then true else if m <? n then false else str_leb a' b'
  end.

Fixpoint insert_sorted (x : pystr) (l : list pystr) : list pystr :=
  match l with
  | [] => [x]
  | y :: l' => if str_leb x y then x :: l else y :: insert_sorted x l'
  end.

(** [sorted(l)] on strings *)
Definition sorted (l : list pystr) : list pystr :=
  fold_right insert_sorted [] l.

(** ** [TerminologyManager] *)

(** [row[name]] on a row of a frame with the column labels [columns]. *)
Definition getitem (A : Type) (columns : list pystr) (name : pystr)
           (cell : A) : result A :=
  if mem str_eqb name columns then Ok cell else Err (KeyError name).

(** The [Term] built from a row: [term_id = int(row['id'])] followed by
    the call of the constructor, its arguments evaluated in their order. *)
Definition make_term (columns : list pystr)
           (domain language google_lang_code : pystr) (row : Row)
  : result Term :=
  match getitem columns (str "id") (row_id row) with
  | Err e => Err e
  | Ok id_value =>
  match int_cell id_value with
  | Err e => Err e
  | Ok term_id =>
  match getitem columns (str "term") (row_term row) with
  | Err e => Err e
  | Ok term_value =>
  match getitem columns (str "translation") (row_translation row) with
  | Err e => Err e
  | Ok translation_value =>
      Ok (mkTerm term_id
                 (strip (lower (str_cell term_value)))
                 (str_cell translation_value)
                 domain language google_lang_code)
  end end end end.

(** The body of [for _, row in df.iterrows()]. *)
Fixpoint load_rows (columns : list pystr)
         (domain language google_lang_code : pystr)
         (rows : list Row) (terms_dict : dict pystr Term)
  : result (dict pystr Term) :=
  match rows with
  | [] => Ok terms_dict
  | row :: rows' =>
      match make_term columns domain language google_lang_code row with
      | Err e => Err e
      | Ok term_obj =>
          load_rows columns domain language google_lang_code rows'
                    (dict_set str_eqb terms_dict (term term_obj) term_obj)
      end
  end.

(** [df = pd.read_csv(filepath)] and the loop that fills [terms_dict]. *)
Definition read_terms (domain language google_lang_code : pystr)
           (csv : Csv) : result (dict pystr Term) :=
  match csv with
  | Unreadable => Err ReadCsvError
  | DataFrame columns rows =>
      load_rows columns domain language google_lang_code rows []
  end.

Record TerminologyManager := mkManager {
  terms_by_domain_lang : dict (pystr * pystr) (dict pystr Term);
  domains_languages : list (pystr * pystr);
  available_google_languages : list pystr
}.

Section Manager.
(** [convert_lang_code(code, to_google=True)] of [language_codes.py],
    the table-driven mapping from a stored language code to the code of
    the translation provider. *)
Variable convert_lang_code : pystr -> pystr.

(** The body of [for filename in os.listdir(...)].  The warning printed
    for a language the provider does not support changes no state and is
    left out. *)
Fixpoint load_files (files : list File) (self : TerminologyManager)
  : result TerminologyManager :=
  match files with
  | [] => Ok self
  | (filename, csv) :: files' =>
      match filename_pattern filename with
      | None => load_files files' self
      | Some (domain, language) =>
          let google_lang_code := convert_lang_code language in
          let dl := set_add pair_eqb (domain, language)
                            (domains_languages self) in
          let gl := set_add str_eqb google_lang_code
                            (available_google_languages self) in
          match read_terms domain language google_lang_code csv with
          | Err e => Err e
          | Ok terms_dict =>
              load_files files'
                (mkManager
                   (dict_set pair_eqb (terms_by_domain_lang self)
                             (domain, language) terms_dict)
                   dl gl)
          end
      end
  end.

(** [TerminologyManager(terminologies_dir)], that is [__init__] followed
    by [_load_terminologies]. *)
Definition load (fs : FileSystem) (terminologies_dir : pystr)
  : result TerminologyManager :=
  match fs terminologies_dir with
  | None => Err (FileNotFoundError terminologies_dir)
  | Some files => load_files files (mkManager [] [] [])
  end.

Definition get_domains (self : TerminologyManager) : list pystr :=
  sorted (set_of_list str_eqb (map fst (domains_languages self))).

(** The loops of [get_terms_for_domain_lang]: the first stored pair of
    the domain whose converted language code is [code]. *)
Fixpoint find_converted (domain code : pystr)
         (items : dict (pystr * pystr) (dict pystr Term))
  : option (dict pystr Term) :=
  match items with
  | [] => None
  | ((d, l), terms) :: items' =>
      if str_eqb d domain && str_eqb (convert_lang_code l) code
      then Some terms
      else find_converted domain code items'
  end.

Definition get_terms_for_domain_lang (self : TerminologyManager)
           (domain language : pystr) : dict pystr Term :=
  let items := terms_by_domain_lang self in
  match dict_get pair_eqb items (domain, language) with
  | Some terms => terms
  | None =>
      match (if length language =? 2
             then find_converted domain language items else None) with
      | Some terms => terms
      | None =>
          match (if length language =? 3
                 then find_converted domain (convert_lang_code language)
                                     items
                 else None) with
          | Some terms => terms
          | None => []
          end
      end
  end.

Definition preprocess_text (self : TerminologyManager)
           (text domain language : pystr)
  : result (pystr * dict pystr Term) :=
  let terms_dict := get_terms_for_domain_lang self domain language in
  match terms_dict with
  | [] =>
      let available_domains := get_domains self in
      if mem str_eqb domain available_domains then
        let available_langs :=
          map snd (filter (fun dl => str_eqb (fst dl) domain)
                          (domains_languages self)) in
        Err (ValueError_no_terminology domain language available_langs)
      else Err (ValueError_domain_not_found domain available_domains)
  | _ :: _ => Ok (preprocess_terms terms_dict text)
  end.
End Manager.


(** * Vocabulary of the statements *)

(** A row is malformed when one of its three fields is missing. *)
Definition malformed (r : Row) : Prop :=
  row_id r = IdNaN \/ row_term r = None \/ row_translation r = None.

(** The frame has the three columns the loop reads. *)
Definition has_columns (columns : list pystr) : bool :=
  mem str_eqb (str "id") columns && mem str_eqb (str "term") columns
  && mem str_eqb (str "translation") columns.

(** The code points below 128, and the strings made of them. *)
Definition is_ascii (c : ascii) : bool := nat_of_ascii c <? 128.
Definition ascii_str (s : pystr) : bool := forallb is_ascii s.
Definition ascii_opt (c : option ascii) : bool :=
  match c with Some a => is_ascii a | None => true end.

(** The term cells of the rows are ASCII texts. *)
Definition ascii_terms (rows : list Row) : Prop :=
  forall r s, In r rows -> row_term r = Some s -> ascii_str s = true.

(** The key a row is stored under. *)
Definition term_key (r : Row) : pystr :=
  strip (lower (str_cell (row_term r))).

(** [r] is the last row of [rows] whose key is [k]. *)
Definition last_row_with (k : pystr) (rows : list Row) (r : Row) : Prop :=
  exists before after,
    rows = before ++ r :: after /\ term_key r = k /\
    forall r', In r' after -> term_key r' <> k.

(** [name] is a terminology source of the listing, for ([d], [l]). *)
Definition source (files : list File) (name : pystr) (csv : Csv)
           (d l : pystr) : Prop :=
  In (name, csv) files /\ filename_pattern name = Some (d, l).

(** [name] is the last source of the listing for ([d], [l]). *)
Definition last_source (files : list File) (name : pystr) (csv : Csv)
           (d l : pystr) : Prop :=
  exists before after,
    files = before ++ (name, csv) :: after /\
    filename_pattern name = Some (d, l) /\
    forall f, In f after -> filename_pattern (fst f) <> Some (d, l).

(** The source can be read: it is a frame, and each of its rows is read
    from the three columns and has a number as its id. *)
Definition loadable (csv : Csv) : Prop :=
  exists columns rows,
    csv = DataFrame columns rows /\
    forall r, In r rows ->
              has_columns columns = true /\ exists z, row_id r = IdNum z.

(** ** Fixtures *)

(** Modelled from the spec: [language_codes.py] is not among the sources.
    "If [code] already matches the 2-letter form, return it unchanged; if
    it matches a known 3-letter form, return its mapped 2-letter
    equivalent; otherwise return the input unchanged."  The table is a
    parameter. *)
Definition normalize (mapping : dict pystr pystr) (code : pystr) : pystr :=
  if length code =? 2 then code
  else match dict_get str_eqb mapping code with
       | Some c => c
       | None => code
       end.

Definition twi_ak : pystr -> pystr := normalize [(str "twi", str "ak")].

(** A file system with one directory. *)
Definition one_dir (dir : pystr) (files : list File) : FileSystem :=
  fun path => if str_eqb path dir then Some files else None.

Definition row (i : Z) (t tr : string) : Row :=
  mkRow (IdNum i) (Some (str t)) (Some (str tr)).

(** A frame with the columns [id], [term] and [translation]. *)
Definition frame (rows : list Row) : Csv :=
  DataFrame [str "id"; str "term"; str "translation"] rows.

(** A source whose only row has an empty term field. *)
Definition nan_listing : list File :=
  [(str "agric_terms_twi.csv",
    frame [mkRow (IdNum 1) None (Some (str "X"))])].

(** A source whose second row has an empty id field. *)
Definition no_id_listing : list File :=
  [(str "agric_terms_twi.csv",
    frame [row 1 "acid" "X"; mkRow IdNaN (Some (str "soil")) (Some (str "Y"))])].

(** A source with the same term text written twice. *)
Definition dup_listing : list File :=
  [(str "agric_terms_twi.csv", frame [row 1 " Acid" "X"; row 2 "acid" "Y"])].

(** A source without rows. *)
Definition empty_listing : list File :=
  [(str "agric_terms_twi.csv", frame []);
   (str "agric_terms_ewe.csv", frame [row 1 "acid" "X"])].

(** The manager a load returns (an empty one when the load raises). *)
Definition loaded (cv : pystr -> pystr) (fs : FileSystem) (dir : pystr)
  : TerminologyManager :=
  match load cv fs dir with
  | Ok st => st
  | Err _ => mkManager [] [] []
  end.

(** A directory with a source under the 2-letter code and one under the
    3-letter code of the same language. *)
Definition both_listing : list File :=
  [(str "agric_terms_ak.csv", frame [row 1 "acid" "X"]);
   (str "agric_terms_twi.csv", frame [row 2 "soil" "Y"])].

(** [terms] is the bucket of the first stored pair of [domain] whose
    converted language code is [code]. *)
Definition first_converted (cv : pystr -> pystr)
           (items : dict (pystr * pystr) (dict pystr Term))
           (domain code : pystr) (terms : dict pystr Term) : Prop :=
  exists before l after,
    items = before ++ ((domain, l), terms) :: after /\
    cv l = code /\
    forall d' l' t', In ((d', l'), t') before -> d' = domain -> cv l' <> code.

(** ** The scan, seen from outside *)

(** The character before the position reached after reading [m]. *)
Definition last_char (prev : option ascii) (m : pystr) : option ascii :=
  fold_left (fun _ c => Some c) m prev.

(** The text a scan writes, and the number of matches it hands to the
    callback, when the callback always returns [ph].  They are the two
    components of [sub_scan] (lemma [sub_scan_split]). *)
Fixpoint scan_out (pat ph : pystr) (prev : option ascii) (skip : nat)
         (text : pystr) : pystr :=
  match text with
  | [] =>
      match skip with
      | O => if match_here pat prev [] then ph else []
      | S _ => []
      end
  | c :: rest =>
      match skip with
      | S k => scan_out pat ph (Some c) k rest
      | O =>
          if match_here pat prev text then
            match length pat with
            | O => ph ++ c :: scan_out pat ph (Some c) 0 rest
            | S k => ph ++ scan_out pat ph (Some c) k rest
            end
          else c :: scan_out pat ph (Some c) 0 rest
      end
  end.

Fixpoint scan_count (pat : pystr) (prev : option ascii) (skip : nat)
         (text : pystr) : nat :=
  match text with
  | [] =>
      match skip with
      | O => if match_here pat prev [] then 1 else 0
      | S _ => 0
      end
  | c :: rest =>
      match skip with
      | S k => scan_count pat (Some c) k rest
      | O =>
          if match_here pat prev text then
            match length pat with
            | O => S (scan_count pat (Some c) 0 rest)
            | S k => S (scan_count pat (Some c) k rest)
            end
          else scan_count pat (Some c) 0 rest
      end
  end.

(** The pattern [\b pat \b] matches somewhere in [text]. *)
Definition occurs (pat text : pystr) : Prop :=
  exists a b, text = a ++ b /\ match_here pat (last_char None a) b = true.

(** The words of the specification: the text at the position equals the
    term up to case and has no word character next to it on either side. *)
Definition ci_equal (a b : pystr) : bool := str_eqb (lower a) (lower b).

Definition whole_word_at (pat : pystr) (prev : option ascii) (text : pystr)
  : bool :=
  ci_equal pat (firstn (length pat) text)
  && negb (word_opt prev)
  && negb (word_opt (hd_error (skipn (length pat) text))).

(** The term begins and ends with a word character. *)
Definition word_edged (pat : pystr) : bool :=
  word_opt (hd_error pat) && word_opt (hd_error (rev pat)).

(** The same scan, deciding with [whole_word_at]. *)
Fixpoint spec_scan (pat ph : pystr) (prev : option ascii) (skip : nat)
         (text : pystr) : pystr :=
  match text with
  | [] => []
  | c :: rest =>
      match skip with
      | S k => spec_scan pat ph (Some c) k rest
      | O =>
          if whole_word_at pat prev text then
            ph ++ spec_scan pat ph (Some c) (length pat - 1) rest
          else c :: spec_scan pat ph (Some c) 0 rest
      end
  end.

Definition term_of (i : Z) (t tr : string) : Term :=
  mkTerm i (str t) (str tr) (str "agric") (str "twi") (str "ak").

(** A bucket as a load builds it: each term under its own text. *)
Definition bucket_of (l : list Term) : dict pystr Term :=
  map (fun t => (term t, t)) l.

(** No term is followed by a longer one. *)
Definition longer_first (a b : Term) : Prop :=
  length (term b) <= length (term a).

(** A manager with a single bucket. *)
Definition manager_of (d l : string) (terms : list Term)
  : TerminologyManager :=
  mkManager [((str d, str l), bucket_of terms)] [(str d, str l)] [str "ak"].

(** The loop of [preprocess_text] reaches [t] with a text in which the
    pattern of [t] matches. *)
Definition matched_term (terms_dict : dict pystr Term) (text : pystr)
           (t : Term) : Prop :=
  exists before after,
    sort_by_len_desc (dict_values terms_dict) = before ++ t :: after /\
    occurs (term t) (fst (fold_left preprocess_step before (text, []))).

(** ** Aligned texts *)

(** A text cut into the characters that were left alone and the
    occurrences that were replaced, each with its term. *)
Inductive seg :=
| Raw (c : ascii)
| Rep (t : Term) (occ : pystr).

Definition seg_original (s : seg) : pystr :=
  match s with
  | Raw c => [c]
  | Rep _ occ => occ
  end.

Definition seg_placeholder (s : seg) : pystr :=
  match s with
  | Raw c => [c]
  | Rep t _ => placeholder t
  end.

Definition seg_final (s : seg) : pystr :=
  match s with
  | Raw c => [c]
  | Rep t _ => translation t
  end.

(** The input text, the placeholder text and the restored text. *)
Definition original_text (segs : list seg) : pystr :=
  flat_map seg_original segs.
Definition placeholder_text (segs : list seg) : pystr :=
  flat_map seg_placeholder segs.
Definition final_text (segs : list seg) : pystr :=
  flat_map seg_final segs.

(** The text in the middle of [postprocess_text]: the placeholders in
    [done] are already replaced. *)
Definition seg_render (done : list pystr) (s : seg) : pystr :=
  match s with
  | Raw c => [c]
  | Rep t _ =>
      if mem str_eqb (placeholder t) done then translation t
      else placeholder t
  end.

Definition render (done : list pystr) (segs : list seg) : pystr :=
  flat_map (seg_render done) segs.

Definition lt_free (s : pystr) : bool :=
  negb (mem ascii_eqb "<"%char s).

(** A term text that cannot be mistaken for a piece of a placeholder: it
    holds neither angle bracket and not every character of it is a digit;
    in particular it is not empty. *)
Definition term_ok (pat : pystr) : bool :=
  lt_free pat && negb (mem ascii_eqb ">"%char pat)
  && negb (forallb is_digit pat).



(** The set of pairs and the keys of the index agree. *)
Definition pairs_agree (st : TerminologyManager) : Prop :=
  forall p, In p (domains_languages st)
            <-> In p (dict_keys (terms_by_domain_lang st)).

(** * The other accessors of [TerminologyManager] *)

Section SortedBy.
Variable A : Type.
Variable leb : A -> A -> bool.

Fixpoint insert_by (x : A) (l : list A) : list A :=
  match l with
  | [] => [x]
  | y :: l' => if leb x y then x :: l else y :: insert_by x l'
  end.

(** [sorted(l)] for the order [leb]. *)
Definition sorted_by (l : list A) : list A := fold_right insert_by [] l.
End SortedBy.

(** The order of Python on pairs of strings: the first components decide
    unless they are equal. *)
Definition pair_leb (a b : pystr * pystr) : bool :=
  if str_eqb (fst a) (fst b) then str_leb (snd a) (snd b)
  else str_leb (fst a) (fst b).

Definition get_available_domains_languages (self : TerminologyManager)
  : list (pystr * pystr) :=
  sorted_by pair_leb (domains_languages self).

Section Accessors.
Variable convert_lang_code : pystr -> pystr.

Definition get_available_domains_languages_google
           (self : TerminologyManager) : list (pystr * pystr) :=
  let result :=
    map (fun dl => (fst dl, convert_lang_code (snd dl)))
        (domains_languages self) in
  sorted_by pair_leb result.

Definition get_languages (self : TerminologyManager) (format : pystr)
  : list pystr :=
  let languages := set_of_list str_eqb (map snd (domains_languages self)) in
  if str_eqb format (str "google")
  then sorted (set_of_list str_eqb (map convert_lang_code languages))
  else sorted languages.

Definition get_google_lang_code (self : TerminologyManager)
           (language : pystr) : pystr :=
  convert_lang_code language.
End Accessors.

(** * [utils.py] *)

(** [sub in s] on strings. *)
Fixpoint str_in (sub s : pystr) : bool :=
  is_prefix sub s
  || match s with
     | [] => false
     | _ :: s' => str_in sub s'
     end.

(** The values of the dictionaries [export_terminology] builds. *)
Inductive pyval :=
| PyInt (z : Z)
| PyStr (s : pystr).

(** One element of [terms_list]. *)
Definition term_record (t : Term) : dict pystr pyval :=
  [(str "id", PyInt (id t));
   (str "term", PyStr (term t));
   (str "translation", PyStr (translation t));
   (str "domain", PyStr (domain t));
   (str "language", PyStr (language t));
   (str "google_language_code", PyStr (google_lang_code t))].

Inductive utils_error :=
| ManagerError (e : error)
| ValueError_no_terminology_found (domain language : pystr).

Inductive utils_result (A : Type) :=
| UOk (a : A)
| UErr (e : utils_error).

Arguments UOk {A} a.
Arguments UErr {A} e.

Inductive exported :=
| ExportedText (s : pystr)
| ExportedList (terms_list : list (dict pystr pyval)).

(** What [list_available_options] returns, by [format]; the constant entry
    ['language_format'] is left out. *)
Inductive options :=
| OptionsOriginal (domains languages : list pystr)
                  (domains_with_languages : dict pystr (list pystr))
| OptionsGoogle (domains languages : list pystr)
                (domains_with_languages : dict pystr (list pystr))
| OptionsBoth (domains languages_original languages_google : list pystr)
              (domains_with_languages_original
                 domains_with_languages_google : dict pystr (list pystr))
              (language_mapping : dict pystr pystr).

(** What [get_language_mapping] returns; the constant entry ['note'] is
    left out. *)
Inductive language_info :=
| LanguageInfo (input input_format google_code : pystr)
               (supported_by_google : bool)
| MappingInfo (mapping : dict pystr pystr).

(** [if k not in d: d[k] = []] followed by [d[k].append(x)]. *)
Definition dict_append (d : dict pystr (list pystr)) (k x : pystr)
  : dict pystr (list pystr) :=
  let d1 := if dict_mem str_eqb d k then d else dict_set str_eqb d k [] in
  match dict_get str_eqb d1 k with
  | Some l => dict_set str_eqb d1 k (l ++ [x])
  | None => d1
  end.

Section Utils.
Variable convert_lang_code : pystr -> pystr.
(** [json.dumps(terms_list, indent=2, ensure_ascii=False)] and the text
    [csv.DictWriter] writes: library serializers, left abstract. *)
Variable json_dumps : list (dict pystr pyval) -> pystr.
Variable csv_text : list (dict pystr pyval) -> pystr.
(** The table of [language_codes.py]. *)
Variable LANGUAGE_CODE_MAPPING : dict pystr pystr.

(** The loop of [list_available_options]. *)
Definition group_step
           (acc : dict pystr (list pystr) * dict pystr (list pystr))
           (dl : pystr * pystr)
  : dict pystr (list pystr) * dict pystr (list pystr) :=
  let google_lang := convert_lang_code (snd dl) in
  (dict_append (fst acc) (fst dl) (snd dl),
   dict_append (snd acc) (fst dl) google_lang).

Definition list_available_options (fs : FileSystem)
           (terminologies_dir format : pystr) : result options :=
  match load convert_lang_code fs terminologies_dir with
  | Err e => Err e
  | Ok manager =>
      let domains := get_domains manager in
      let original_languages :=
        get_languages convert_lang_code manager (str "original") in
      let google_languages :=
        get_languages convert_lang_code manager (str "google") in
      let groups :=
        fold_left group_step (get_available_domains_languages manager)
                  ([], []) in
      if str_eqb format (str "original") then
        Ok (OptionsOriginal domains original_languages (fst groups))
      else if str_eqb format (str "google") then
        Ok (OptionsGoogle domains google_languages (snd groups))
      else
        Ok (OptionsBoth domains original_languages google_languages
              (fst groups) (snd groups)
              (fold_left
                 (fun d lang =>
                    dict_set str_eqb d lang (convert_lang_code lang))
                 original_languages []))
  end.

Definition export_terminology (fs : FileSystem)
           (domain language output_format terminologies_dir : pystr)
  : utils_result exported :=
  match load convert_lang_code fs terminologies_dir with
  | Err e => UErr (ManagerError e)
  | Ok manager =>
      let terms_dict :=
        get_terms_for_domain_lang convert_lang_code manager domain language in
      let terms_dict :=
        match terms_dict with
        | [] =>
            let google_lang := convert_lang_code language in
            match find_converted convert_lang_code domain google_lang
                                 (terms_by_domain_lang manager) with
            | Some terms => terms
            | None => terms_dict
            end
        | _ :: _ => terms_dict
        end in
      match terms_dict with
      | [] => UErr (ValueError_no_terminology_found domain language)
      | _ :: _ =>
          let terms_list := map term_record (dict_values terms_dict) in
          if str_eqb output_format (str "json")
          then UOk (ExportedText (json_dumps terms_list))
          else if str_eqb output_format (str "csv")
          then UOk (ExportedText (csv_text terms_list))
          else UOk (ExportedList terms_list)
      end
  end.

Definition get_language_mapping (language : option pystr) : language_info :=
  match language with
  | Some (c :: s) =>
      let language := c :: s in
      let original_format :=
        if length language =? 3 then str "iso639-3" else str "iso639-1" in
      let google_code := convert_lang_code language in
      LanguageInfo language original_format google_code
                   (str_in google_code (convert_lang_code language))
  | _ => MappingInfo LANGUAGE_CODE_MAPPING
  end.
End Utils.

(** * Vocabulary of the further statements *)

(** The relation of a boolean order. *)
Definition le_of (A : Type) (leb : A -> A -> bool) (a b : A) : Prop :=
  leb a b = true.

(** Ascending for the order of strings, and for that of pairs. *)
Definition str_le : pystr -> pystr -> Prop := le_of str_leb.
Definition pair_le : pystr * pystr -> pystr * pystr -> Prop :=
  le_of pair_leb.

(** The name of a terminology source. *)
Definition source_name (d l : pystr) : pystr :=
  d ++ str "_terms_" ++ l ++ str ".csv".

(** Reading an element of [terms_list] back. *)
Definition record_term (r : dict pystr pyval) : option Term :=
  match dict_get str_eqb r (str "id"),
        dict_get str_eqb r (str "term"),
        dict_get str_eqb r (str "translation"),
        dict_get str_eqb r (str "domain"),
        dict_get str_eqb r (str "language"),
        dict_get str_eqb r (str "google_language_code") with
  | Some (PyInt i), Some (PyStr t), Some (PyStr tr), Some (PyStr d),
    Some (PyStr l), Some (PyStr g) => Some (mkTerm i t tr d l g)
  | _, _, _, _, _, _ => None
  end.

(** A directory with two domains and three languages. *)
Definition mixed_listing : list File :=
  [(str "soil_terms_twi.csv",
    frame [row 1 "Loam " "X"; row 2 "clay" "Y"]);
   (str "README.md", Unreadable);
   (str "agric_terms_ewe.csv", frame [row 1 "acid" "A"]);
   (str "agric_terms_aka.csv", frame [row 3 "acid rain" "B"])].

Definition twi_aka_ak : pystr -> pystr :=
  normalize [(str "twi", str "ak"); (str "aka", str "ak")].

(** The file name matches the pattern of the terminology sources. *)
Definition is_source (f : File) : bool :=
  match filename_pattern (fst f) with
  | Some _ => true
  | None => false
  end.

Definition lower_opt (c : option ascii) : option ascii :=
  option_map lower_char c.

(** The number of underscores of a string. *)
Definition underscores (s : pystr) : nat :=
  length (filter (fun c => ascii_eqb c "_"%char) s).

(** The list a key holds after [items] were appended to it one by one,
    [prior] being what it held before ([None]: the key was absent). *)
Definition grouped (prior : option (list pystr)) (items : list pystr)
  : option (list pystr) :=
  match items with
  | [] => prior
  | _ :: _ =>
      Some (match prior with Some l => l | None => [] end ++ items)
  end.

(** The stored languages of a domain, in the order of the sorted pairs. *)
Definition languages_of (self : TerminologyManager) (d : pystr)
  : list pystr :=
  map snd (filter (fun p => str_eqb (fst p) d)
                  (get_available_domains_languages self)).

(** A provider code of five characters. *)
Definition cmn_zh : pystr -> pystr := normalize [(str "cmn", str "zh-CN")].

Definition cmn_listing : list File :=
  [(str "agric_terms_cmn.csv", frame [row 1 "acid" "X"])].
(** * Properties *)

(** ** Equality tests *)

Lemma ascii_eqb_eq (a b : ascii) : ascii_eqb a b = true <-> a = b.
Proof. unfold ascii_eqb. apply Ascii.eqb_eq. Qed.

Lemma ascii_eqb_refl (a : ascii) : ascii_eqb a a = true.
Proof. apply ascii_eqb_eq. reflexivity. Qed.

Lemma ascii_eqb_neq (a b : ascii) : ascii_eqb a b = false <-> a <> b.
Proof. unfold ascii_eqb. apply Ascii.eqb_neq. Qed.

Lemma str_eqb_eq (a b : pystr) : str_eqb a b = true <-> a = b.
Proof.
  revert b. induction a as [|x a IH]; intros [|y b]; simpl;
    try (split; [discriminate | discriminate]); try tauto.
  rewrite andb_true_iff, ascii_eqb_eq, IH.
  split; [intros [-> ->]; reflexivity | intros H; injection H; auto].
Qed.

Lemma str_eqb_refl (a : pystr) : str_eqb a a = true.
Proof. apply str_eqb_eq. reflexivity. Qed.

Lemma str_eqb_neq (a b : pystr) : str_eqb a b = false <-> a <> b.
Proof.
  rewrite <- str_eqb_eq. destruct (str_eqb a b); split; congruence.
Qed.

Lemma pair_eqb_eq (a b : pystr * pystr) : pair_eqb a b = true <-> a = b.
Proof.
  destruct a as [a1 a2], b as [b1 b2]. unfold pair_eqb. simpl.
  rewrite andb_true_iff, !str_eqb_eq.
  split; [intros [-> ->]; reflexivity | intros H; injection H; auto].
Qed.

Lemma pair_eqb_refl (a : pystr * pystr) : pair_eqb a a = true.
Proof. apply pair_eqb_eq. reflexivity. Qed.

Lemma pair_eqb_neq (a b : pystr * pystr) : pair_eqb a b = false <-> a <> b.
Proof.
  rewrite <- pair_eqb_eq. destruct (pair_eqb a b); split; congruence.
Qed.

(** ** Dictionaries *)

Section DictFacts.
Variables K V : Type.
Variable keq : K -> K -> bool.
Hypothesis keq_eq : forall a b, keq a b = true <-> a = b.

Lemma keq_refl (a : K) : keq a a = true.
Proof. apply keq_eq. reflexivity. Qed.

Lemma dict_get_set_same (d : dict K V) k v :
  dict_get keq (dict_set keq d k v) k = Some v.
Proof.
  induction d as [|[k' v'] d IH]; simpl.
  - rewrite keq_refl. reflexivity.
  - destruct (keq k' k) eqn:E; simpl; rewrite E; auto.
Qed.

Lemma dict_get_set_other (d : dict K V) k v k0 :
  k0 <> k -> dict_get keq (dict_set keq d k v) k0 = dict_get keq d k0.
Proof.
  intros N. induction d as [|[k' v'] d IH]; simpl.
  - destruct (keq k k0) eqn:E; auto.
    apply keq_eq in E. congruence.
  - destruct (keq k' k) eqn:E; simpl.
    + apply keq_eq in E. subst k'.
      destruct (keq k k0) eqn:E0; auto.
      apply keq_eq in E0. congruence.
    + rewrite IH. reflexivity.
Qed.

Lemma dict_keys_set (d : dict K V) k v x :
  In x (dict_keys (dict_set keq d k v)) <-> x = k \/ In x (dict_keys d).
Proof.
  unfold dict_keys. induction d as [|[k' v'] d IH]; simpl.
  - intuition.
  - destruct (keq k' k) eqn:E; simpl.
    + apply keq_eq in E. subst k'. intuition.
    + rewrite IH. intuition.
Qed.

Lemma dict_set_nodup (d : dict K V) k v :
  NoDup (dict_keys d) -> NoDup (dict_keys (dict_set keq d k v)).
Proof.
  unfold dict_keys. induction d as [|[k' v'] d IH]; simpl; intros H.
  - constructor; [intros [] | constructor].
  - inversion H as [|? ? Hn Hd]; subst.
    destruct (keq k' k) eqn:E; simpl.
    + constructor; assumption.
    + constructor; auto.
      intros Hin. apply (dict_keys_set d k v k') in Hin.
      destruct Hin as [->|Hin]; [|contradiction].
      rewrite keq_refl in E. discriminate.
Qed.

Lemma dict_get_in (d : dict K V) k v :
  dict_get keq d k = Some v -> In (k, v) d.
Proof.
  induction d as [|[k' v'] d IH]; simpl; [discriminate|].
  destruct (keq k' k) eqn:E.
  - apply keq_eq in E. subst. intros H. injection H as ->. auto.
  - auto.
Qed.

Lemma dict_in_get (d : dict K V) k v :
  NoDup (dict_keys d) -> In (k, v) d -> dict_get keq d k = Some v.
Proof.
  unfold dict_keys. induction d as [|[k' v'] d IH]; simpl; [tauto|].
  intros H [E|Hin]; inversion H as [|? ? Hn Hd]; subst.
  - injection E as -> ->. rewrite keq_refl. reflexivity.
  - destruct (keq k' k) eqn:E.
    + apply keq_eq in E. subst k'. exfalso. apply Hn.
      apply (in_map fst) in Hin. exact Hin.
    + auto.
Qed.

Lemma dict_get_none (d : dict K V) k :
  dict_get keq d k = None <-> ~ In k (dict_keys d).
Proof.
  unfold dict_keys. induction d as [|[k' v'] d IH]; simpl; [tauto|].
  destruct (keq k' k) eqn:E.
  - apply keq_eq in E. subst. split; [discriminate | intros H; tauto].
  - rewrite IH. split; [|tauto].
    intros H [E'|H']; [|tauto]. subst. rewrite keq_refl in E. discriminate.
Qed.

(** Writing the same association again changes nothing. *)
Lemma dict_set_idem (d : dict K V) k v :
  dict_set keq (dict_set keq d k v) k v = dict_set keq d k v.
Proof.
  induction d as [|[k' v'] d IH]; simpl.
  - rewrite keq_refl. reflexivity.
  - destruct (keq k' k) eqn:E; simpl; rewrite E; [reflexivity|].
    rewrite IH. reflexivity.
Qed.
End DictFacts.

(** ** Loading *)

Lemma getitem_ok (A : Type) (columns : list pystr) (name : pystr)
      (cell c : A) :
  getitem columns name cell = Ok c <->
  mem str_eqb name columns = true /\ c = cell.
Proof.
  unfold getitem. destruct (mem str_eqb name columns).
  - split; [intros H; injection H as <-; auto | intros [_ ->]; reflexivity].
  - split; [discriminate | intros [H _]; discriminate H].
Qed.

Lemma has_columns_spec (columns : list pystr) :
  has_columns columns = true <->
  mem str_eqb (str "id") columns = true /\
  mem str_eqb (str "term") columns = true /\
  mem str_eqb (str "translation") columns = true.
Proof.
  unfold has_columns. rewrite !andb_true_iff. tauto.
Qed.

(** A row gives a term exactly when the frame has the three columns and
    the id cell is a number. *)
Lemma make_term_ok columns d l g (r : Row) (t : Term) :
  make_term columns d l g r = Ok t <->
  has_columns columns = true /\
  exists z, row_id r = IdNum z /\
            t = mkTerm z (term_key r) (str_cell (row_translation r)) d l g.
Proof.
  rewrite has_columns_spec. unfold make_term, getitem, term_key.
  destruct (mem str_eqb (str "id") columns);
    destruct (mem str_eqb (str "term") columns);
    destruct (mem str_eqb (str "translation") columns);
    destruct (row_id r) as [z| | |s]; cbn [int_cell];
    (split;
     [intros H; try discriminate H
     |intros ((H1 & H2 & H3) & z' & E & Ht); try discriminate]).
  - injection H as <-. repeat split. exists z. auto.
  - injection E as <-. subst t. reflexivity.
Qed.

Lemma load_rows_ok_iff columns d l g rows acc :
  (exists b, load_rows columns d l g rows acc = Ok b) <->
  (forall r, In r rows ->
             has_columns columns = true /\ exists z, row_id r = IdNum z).
Proof.
  revert acc. induction rows as [|r rows IH]; intros acc; simpl.
  - split; [intros _ r [] | eauto].
  - destruct (make_term columns d l g r) as [t|e] eqn:E.
    + apply make_term_ok in E. destruct E as (Hc & z & Hz & _).
      rewrite IH. split.
      * intros H r' [<-|Hr']; [eauto | auto].
      * intros H r' Hr'. apply H. right. exact Hr'.
    + split; [intros [b Hb]; discriminate Hb|].
      intros H. destruct (H r (or_introl eq_refl)) as (Hc & z & Hz).
      assert (Ht : make_term columns d l g r
                   = Ok (mkTerm z (term_key r)
                                (str_cell (row_translation r)) d l g))
        by (apply make_term_ok; eauto).
      congruence.
Qed.

Lemma load_rows_total columns d l g rows acc :
  (forall r, In r rows ->
             has_columns columns = true /\ exists z, row_id r = IdNum z) ->
  exists b, load_rows columns d l g rows acc = Ok b.
Proof. apply load_rows_ok_iff. Qed.

Lemma load_rows_missing_id columns d l g rows acc :
  (exists r, In r rows /\ row_id r = IdNaN) ->
  exists e, load_rows columns d l g rows acc = Err e.
Proof.
  intros (r & Hin & Hid).
  destruct (load_rows columns d l g rows acc) as [b|e] eqn:E; [|eauto].
  assert (H : exists b, load_rows columns d l g rows acc = Ok b) by eauto.
  rewrite load_rows_ok_iff in H.
  destruct (H r Hin) as (_ & z & Hz). congruence.
Qed.

(** With the three columns at hand and every id cell a number or empty,
    the only error is that of the empty id. *)
Lemma load_rows_cases columns d l g rows acc :
  has_columns columns = true ->
  (forall r, In r rows -> row_id r = IdNaN \/ exists z, row_id r = IdNum z) ->
  (exists b, load_rows columns d l g rows acc = Ok b /\
             forall r, In r rows -> row_id r <> IdNaN) \/
  (load_rows columns d l g rows acc = Err ValueError_nan_to_int /\
   exists r, In r rows /\ row_id r = IdNaN).
Proof.
  intros Hc. revert acc. induction rows as [|r rows IH]; intros acc H; simpl.
  - left. exists acc. split; [reflexivity | intros r []].
  - destruct (H r (or_introl eq_refl)) as [Hid|[z Hid]].
    + right. split; [|exists r; auto].
      unfold make_term, getitem.
      apply has_columns_spec in Hc. destruct Hc as (-> & _).
      rewrite Hid. reflexivity.
    + assert (Ht : make_term columns d l g r
                   = Ok (mkTerm z (term_key r)
                                (str_cell (row_translation r)) d l g))
        by (apply make_term_ok; eauto).
      rewrite Ht.
      destruct (IH (dict_set str_eqb acc
                      (term (mkTerm z (term_key r)
                               (str_cell (row_translation r)) d l g))
                      (mkTerm z (term_key r)
                              (str_cell (row_translation r)) d l g)))
        as [[b [Hb Hall]]|[He [r0 [Hin Hid0]]]].
      * intros r' Hr'. apply H. right. exact Hr'.
      * left. exists b. split; [exact Hb|].
        intros r' [<-|Hr']; [congruence | auto].
      * right. split; [exact He | eauto].
Qed.

Lemma read_terms_ok_iff d l g (csv : Csv) :
  (exists b, read_terms d l g csv = Ok b) <-> loadable csv.
Proof.
  unfold loadable. destruct csv as [|columns rows]; simpl.
  - split; [intros [b H]; discriminate H|].
    intros (c & r & E & _). discriminate E.
  - rewrite load_rows_ok_iff. split.
    + intros H. exists columns, rows. auto.
    + intros (c & r & E & H). injection E as -> ->. exact H.
Qed.

Section LoadFacts.
Variable cv : pystr -> pystr.

(** The load succeeds exactly when every terminology source of the
    listing can be read. *)
Lemma load_files_ok_iff files self :
  (exists st, load_files cv files self = Ok st) <->
  (forall name csv d l, source files name csv d l -> loadable csv).
Proof.
  revert self. induction files as [|[name0 csv0] files IH]; intros self.
  - simpl. split; [intros _ ? ? ? ? [[] _] | eauto].
  - simpl. destruct (filename_pattern name0) as [[d0 l0]|] eqn:Hpat.
    + destruct (read_terms d0 l0 (cv l0) csv0) as [b|e] eqn:Hr.
      * rewrite IH. split.
        -- intros H name csv d l [[E|Hin] Hp].
           ++ injection E as <- <-. apply (read_terms_ok_iff d0 l0 (cv l0)).
              eauto.
           ++ apply (H name csv d l). split; assumption.
        -- intros H name csv d l [Hin Hp].
           apply (H name csv d l). split; [right; exact Hin | exact Hp].
      * split; [intros [st H]; discriminate H|].
        intros H.
        assert (Hl : loadable csv0).
        { apply (H name0 csv0 d0 l0).
          split; [left; reflexivity | exact Hpat]. }
        apply (read_terms_ok_iff d0 l0 (cv l0)) in Hl.
        destruct Hl as [b Hb]. congruence.
    + rewrite IH. split.
      * intros H name csv d l [[E|Hin] Hp].
        -- injection E as <- <-. congruence.
        -- apply (H name csv d l). split; assumption.
      * intros H name csv d l [Hin Hp].
        apply (H name csv d l). split; [right; exact Hin | exact Hp].
Qed.

Lemma load_files_total files self :
  (forall name csv d l, source files name csv d l -> loadable csv) ->
  exists st, load_files cv files self = Ok st.
Proof. apply load_files_ok_iff. Qed.

Lemma load_files_missing_id files self :
  (exists name columns rows d l r,
      source files name (DataFrame columns rows) d l /\
      In r rows /\ row_id r = IdNaN) ->
  exists e, load_files cv files self = Err e.
Proof.
  intros (name & columns & rows & d & l & r & Hs & Hr & Hid).
  destruct (load_files cv files self) as [st|e] eqn:E; [|eauto].
  assert (H : exists st, load_files cv files self = Ok st) by eauto.
  rewrite load_files_ok_iff in H.
  destruct (H _ _ _ _ Hs) as (c' & r' & Ec & Hall).
  injection Ec as <- <-.
  destruct (Hall r Hr) as (_ & z & Hz). congruence.
Qed.

(** In a listing whose sources are frames with the three columns and with
    id cells that are numbers or empty, an empty id cell makes the load
    fail with the error of the integer conversion. *)
Lemma load_files_nan files self :
  (forall name csv d l,
      source files name csv d l ->
      exists columns rows,
        csv = DataFrame columns rows /\ has_columns columns = true /\
        forall r, In r rows ->
                  row_id r = IdNaN \/ exists z, row_id r = IdNum z) ->
  (exists name columns rows d l r,
      source files name (DataFrame columns rows) d l /\
      In r rows /\ row_id r = IdNaN) ->
  load_files cv files self = Err ValueError_nan_to_int.
Proof.
  revert self. induction files as [|[name0 csv0] files IH]; intros self Hs H.
  - destruct H as (? & ? & ? & ? & ? & ? & [[] _] & _).
  - assert (Hs' : forall name csv d l,
               source files name csv d l ->
               exists columns rows,
                 csv = DataFrame columns rows /\
                 has_columns columns = true /\
                 forall r, In r rows ->
                           row_id r = IdNaN \/ exists z, row_id r = IdNum z).
    { intros name csv d l [Hin Hp]. apply (Hs name csv d l).
      split; [right; exact Hin | exact Hp]. }
    destruct H as (name & columns & rows & d & l & r & [Hin Hpat] & Hr & Hid).
    simpl. destruct (filename_pattern name0) as [[d0 l0]|] eqn:Hpat0.
    + destruct (Hs name0 csv0 d0 l0) as (c0 & rows0 & -> & Hc0 & Hids0).
      { split; [left; reflexivity | exact Hpat0]. }
      simpl.
      destruct (@load_rows_cases c0 d0 l0 (cv l0) rows0 [] Hc0 Hids0)
        as [[b [Hb Hall]]|[He _]].
      * rewrite Hb. destruct Hin as [E|Hin].
        -- injection E as E1 E2 E3. subst. exfalso. apply (Hall r Hr Hid).
        -- apply IH; [exact Hs'|].
           exists name, columns, rows, d, l, r. repeat split; assumption.
      * rewrite He. reflexivity.
    + destruct Hin as [E|Hin]; [injection E as E1 E2; subst; congruence|].
      apply IH; [exact Hs'|].
      exists name, columns, rows, d, l, r. repeat split; assumption.
Qed.

End LoadFacts.

(** C9.  When the configured terminologies directory does not exist, the
    construction of the store raises [FileNotFoundError] (the load error of
    the specification) and returns no manager, hence no index. *)
Theorem load_missing_directory (cv : pystr -> pystr) (fs : FileSystem)
        (dir : pystr) :
  fs dir = None ->
  load cv fs dir = Err (FileNotFoundError dir) /\
  forall st, load cv fs dir <> Ok st.
Proof.
  intros H. unfold load. rewrite H. split; [reflexivity | discriminate].
Qed.

Lemma load_missing_directory_witness :
  one_dir (str "terminologies") nan_listing (str "elsewhere") = None /\
  load twi_ak (one_dir (str "terminologies") nan_listing) (str "elsewhere")
  = Err (FileNotFoundError (str "elsewhere")).
Proof.
  split; [reflexivity|].
  apply (load_missing_directory twi_ak
           (one_dir (str "terminologies") nan_listing) (str "elsewhere")).
  reflexivity.
Defined.

(** C6, as the specification states it, fails: a row whose term field is
    empty is loaded (under the text "nan") and the load succeeds. *)
Lemma malformed_row_is_loaded :
  ~ (forall (cv : pystr -> pystr) (fs : FileSystem) dir files name columns
            rows d l r,
        fs dir = Some files ->
        source files name (DataFrame columns rows) d l ->
        In r rows -> malformed r ->
        exists e, load cv fs dir = Err e).
Proof.
  intros H.
  destruct (H twi_ak (one_dir (str "t") nan_listing) (str "t") nan_listing
              (str "agric_terms_twi.csv")
              [str "id"; str "term"; str "translation"]
              [mkRow (IdNum 1) None (Some (str "X"))]
              (str "agric") (str "twi")
              (mkRow (IdNum 1) None (Some (str "X")))) as [e He].
  - reflexivity.
  - split; [left; reflexivity | vm_compute; reflexivity].
  - left; reflexivity.
  - right; left; reflexivity.
  - vm_compute in He. discriminate He.
Qed.

(** C6, amended.  In an existing directory, a terminology source with a
    row whose id is missing makes the whole load fail, so that no manager
    and no partly filled bucket result.  The error is the [ValueError] of
    the integer conversion, which cites neither the source nor the row,
    when the sources are frames with the three columns whose id cells are
    numbers or empty.  A row with a number as its id gives a term whatever
    its term and translation cells hold: a missing one is read as the text
    "nan". *)
Theorem load_fails_on_missing_id (cv : pystr -> pystr) (fs : FileSystem)
        (dir : pystr) (files : list File) :
  fs dir = Some files ->
  (forall name columns rows d l r,
      source files name (DataFrame columns rows) d l ->
      In r rows -> row_id r = IdNaN ->
      (exists e, load cv fs dir = Err e) /\
      forall st, load cv fs dir <> Ok st) /\
  ((forall name csv d l,
       source files name csv d l ->
       exists columns rows,
         csv = DataFrame columns rows /\ has_columns columns = true /\
         forall r, In r rows ->
                   row_id r = IdNaN \/ exists z, row_id r = IdNum z) ->
   (exists name columns rows d l r,
       source files name (DataFrame columns rows) d l /\
       In r rows /\ row_id r = IdNaN) ->
   load cv fs dir = Err ValueError_nan_to_int) /\
  (forall columns d l g r z,
      has_columns columns = true -> row_id r = IdNum z ->
      exists t,
        make_term columns d l g r = Ok t /\ id t = z /\
        (row_term r = None -> term t = str "nan") /\
        (row_translation r = None -> translation t = str "nan")).
Proof.
  intros Hdir. unfold load. rewrite Hdir. split; [|split].
  - intros name columns rows d l r Hs Hr Hid.
    destruct (@load_files_missing_id cv files (mkManager [] [] []))
      as [e He].
    { exists name, columns, rows, d, l, r. auto. }
    rewrite He. split; [eauto | discriminate].
  - intros Hs H. apply load_files_nan; assumption.
  - intros columns d l g r z Hc Hz.
    exists (mkTerm z (term_key r) (str_cell (row_translation r)) d l g).
    split; [apply make_term_ok; eauto|].
    split; [reflexivity|]. split.
    + intros E. simpl. unfold term_key. rewrite E. reflexivity.
    + intros E. simpl. rewrite E. reflexivity.
Qed.

Lemma load_fails_on_missing_id_witness :
  one_dir (str "t") no_id_listing (str "t") = Some no_id_listing /\
  load twi_ak (one_dir (str "t") no_id_listing) (str "t")
  = Err ValueError_nan_to_int.
Proof.
  split; [reflexivity|].
  apply (proj1 (proj2 (@load_fails_on_missing_id twi_ak
                         (one_dir (str "t") no_id_listing)
                         (str "t") no_id_listing eq_refl))).
  - intros name csv d l [[E|[]] _]. injection E as <- <-.
    exists [str "id"; str "term"; str "translation"],
           [row 1 "acid" "X";
            mkRow IdNaN (Some (str "soil")) (Some (str "Y"))].
    split; [reflexivity|]. split; [reflexivity|].
    intros r [<-|[<-|[]]]; [right; exists 1%Z; reflexivity | left; reflexivity].
  - exists (str "agric_terms_twi.csv"),
           [str "id"; str "term"; str "translation"],
           [row 1 "acid" "X";
            mkRow IdNaN (Some (str "soil")) (Some (str "Y"))],
           (str "agric"), (str "twi"),
           (mkRow IdNaN (Some (str "soil")) (Some (str "Y"))).
    split; [split; [left; reflexivity | vm_compute; reflexivity]|].
    split; [right; left; reflexivity | reflexivity].
Defined.

(** ** Buckets *)

Lemma last_row_with_cons k r rows r' :
  last_row_with k (r :: rows) r' <->
  last_row_with k rows r' \/
  (r' = r /\ term_key r = k /\ forall x, In x rows -> term_key x <> k).
Proof.
  unfold last_row_with. split.
  - intros (before & after & E & Hk & Hafter).
    destruct before as [|x before]; simpl in E; injection E as -> ->.
    + right. auto.
    + left. exists before, after. auto.
  - intros [(before & after & -> & Hk & Hafter)|(-> & Hk & Hall)].
    + exists (r :: before), after. auto.
    + exists [], rows. auto.
Qed.

Lemma last_row_with_in k rows r :
  last_row_with k rows r -> In r rows /\ term_key r = k.
Proof.
  intros (before & after & -> & Hk & _). split; [|exact Hk].
  apply in_or_app. right. left. reflexivity.
Qed.

(** What a bucket holds once the rows of its source are read. *)
Lemma load_rows_spec columns d l g rows acc b :
  load_rows columns d l g rows acc = Ok b ->
  NoDup (dict_keys acc) ->
  NoDup (dict_keys b) /\
  forall k t,
    dict_get str_eqb b k = Some t <->
    (exists r z, last_row_with k rows r /\ row_id r = IdNum z /\
                 t = mkTerm z k (str_cell (row_translation r)) d l g) \/
    ((forall r, In r rows -> term_key r <> k) /\
     dict_get str_eqb acc k = Some t).
Proof.
  revert acc. induction rows as [|r rows IH]; intros acc H Hnd; simpl in H.
  - injection H as <-. split; [exact Hnd|]. intros k t. split.
    + intros Hg. right. split; [intros r [] | exact Hg].
    + intros [(r & z & Hl & _)|[_ Hg]]; [|exact Hg].
      apply last_row_with_in in Hl. destruct Hl as [[] _].
  - destruct (make_term columns d l g r) as [t0|e] eqn:Hm; [|discriminate].
    apply make_term_ok in Hm. destruct Hm as (_ & z & Hid & ->).
    simpl term in H.
    apply IH in H; [|apply dict_set_nodup; [apply str_eqb_eq | exact Hnd]].
    destruct H as [Hb Hget]. split; [exact Hb|].
    intros k t. rewrite Hget. clear Hget. split.
    + intros [(r' & z' & Hl & Hz & Ht)|[Hno Hg]].
      * left. exists r', z'. rewrite last_row_with_cons. auto.
      * destruct (str_eqb (term_key r) k) eqn:Ek.
        -- apply str_eqb_eq in Ek. subst k.
           rewrite dict_get_set_same in Hg by apply str_eqb_eq.
           injection Hg as <-. left. exists r, z.
           rewrite last_row_with_cons. auto.
        -- apply str_eqb_neq in Ek.
           rewrite dict_get_set_other in Hg
             by (try apply str_eqb_eq; congruence).
           right. split; [|exact Hg].
           intros x [<-|Hx]; auto.
    + intros [(r' & z' & Hl & Hz & Ht)|[Hno Hg]].
      * rewrite last_row_with_cons in Hl.
        destruct Hl as [Hl|(-> & Hk & Hall)].
        -- left. exists r', z'. auto.
        -- right. split; [exact Hall|]. subst k.
           rewrite dict_get_set_same by apply str_eqb_eq.
           rewrite Hid in Hz. injection Hz as <-. subst t. reflexivity.
      * right. split; [intros x Hx; apply Hno; right; exact Hx|].
        rewrite dict_get_set_other; [exact Hg | apply str_eqb_eq |].
        intros E. apply (Hno r); [left; reflexivity | congruence].
Qed.

(** The bucket read from a frame: its keys are distinct and it maps a key
    to the term of the last row with that key. *)
Lemma read_terms_spec d l g columns rows b :
  read_terms d l g (DataFrame columns rows) = Ok b ->
  NoDup (dict_keys b) /\
  forall k t,
    dict_get str_eqb b k = Some t <->
    exists r z, last_row_with k rows r /\ row_id r = IdNum z /\
                t = mkTerm z k (str_cell (row_translation r)) d l g.
Proof.
  simpl. intros H.
  destruct (load_rows_spec _ _ _ _ _ _ H (NoDup_nil _)) as [Hnd Hspec].
  split; [exact Hnd|]. intros k t. rewrite Hspec. split.
  - intros [Hl|[_ Hg]]; [exact Hl | discriminate Hg].
  - intros Hl. left. exact Hl.
Qed.

Lemma last_source_source files name csv d l :
  last_source files name csv d l -> source files name csv d l.
Proof.
  intros (before & after & -> & Hp & _). split; [|exact Hp].
  apply in_or_app. right. left. reflexivity.
Qed.

Lemma last_source_cons (f : File) files name csv d l :
  last_source (f :: files) name csv d l <->
  last_source files name csv d l \/
  (f = (name, csv) /\ filename_pattern name = Some (d, l) /\
   forall f', In f' files -> filename_pattern (fst f') <> Some (d, l)).
Proof.
  unfold last_source. split.
  - intros (before & after & E & Hp & Hafter).
    destruct before as [|x before]; simpl in E; injection E as -> ->.
    + right. auto.
    + left. exists before, after. auto.
  - intros [(before & after & -> & Hp & Hafter)|(-> & Hp & Hall)].
    + exists (f :: before), after. auto.
    + exists [], files. auto.
Qed.

(** A pair that has a source has a last one. *)
Lemma source_last_source files name csv d l :
  source files name csv d l ->
  exists name' csv', last_source files name' csv' d l.
Proof.
  revert name csv.
  induction files as [|[name0 csv0] files IH]; intros name csv [Hin Hp].
  - destruct Hin.
  - assert (Hdec : (exists name' csv', source files name' csv' d l) \/
                   forall f', In f' files ->
                              filename_pattern (fst f') <> Some (d, l)).
    { clear. induction files as [|[n c] files IH].
      - right. intros f' [].
      - destruct IH as [(name' & csv' & Hin & Hp)|Hno].
        + left. exists name', csv'. split; [right; exact Hin | exact Hp].
        + destruct (filename_pattern n) as [[d1 l1]|] eqn:E.
          * destruct (pair_eqb (d1, l1) (d, l)) eqn:Ep.
            -- apply pair_eqb_eq in Ep. injection Ep as -> ->.
               left. exists n, c. split; [left; reflexivity | exact E].
            -- apply pair_eqb_neq in Ep. right.
               intros f' [<-|Hf']; [simpl; congruence | auto].
          * right. intros f' [<-|Hf']; [simpl; congruence | auto]. }
    destruct Hdec as [(name' & csv' & Hs)|Hno].
    + destruct (IH _ _ Hs) as (n & c & Hl). exists n, c.
      apply last_source_cons. left. exact Hl.
    + destruct Hin as [E|Hin].
      * injection E as -> ->. exists name, csv.
        apply last_source_cons. right. auto.
      * exfalso. apply (Hno (name, csv) Hin). exact Hp.
Qed.

Section IndexFacts.
Variable cv : pystr -> pystr.

(** Every bucket of the index was read from a terminology source. *)
Lemma load_files_bucket files self st d l b :
  load_files cv files self = Ok st ->
  dict_get pair_eqb (terms_by_domain_lang st) (d, l) = Some b ->
  (exists name csv,
      source files name csv d l /\
      read_terms d l (cv l) csv = Ok b) \/
  dict_get pair_eqb (terms_by_domain_lang self) (d, l) = Some b.
Proof.
  revert self. induction files as [|[name0 csv0] files IH]; intros self H Hg.
  - simpl in H. injection H as <-. right. exact Hg.
  - simpl in H.
    assert (Hlift : forall name csv,
               source files name csv d l ->
               source ((name0, csv0) :: files) name csv d l).
    { intros name csv [Hin Hp]. split; [right; exact Hin | exact Hp]. }
    destruct (filename_pattern name0) as [[d0 l0]|] eqn:Hpat.
    + destruct (read_terms d0 l0 (cv l0) csv0) as [b0|e] eqn:Hrows;
        [|discriminate].
      destruct (IH _ H Hg) as [(name & csv & Hs & Hr)|Hself].
      * left. exists name, csv. auto.
      * simpl in Hself.
        destruct (pair_eqb (d0, l0) (d, l)) eqn:E.
        -- apply pair_eqb_eq in E. injection E as -> ->.
           rewrite dict_get_set_same in Hself by apply pair_eqb_eq.
           injection Hself as ->. left. exists name0, csv0.
           split; [split; [left; reflexivity | exact Hpat] | exact Hrows].
        -- apply pair_eqb_neq in E.
           rewrite dict_get_set_other in Hself
             by (try apply pair_eqb_eq; congruence).
           right. exact Hself.
    + destruct (IH _ H Hg) as [(name & csv & Hs & Hr)|Hself].
      * left. exists name, csv. auto.
      * right. exact Hself.
Qed.

(** Files that are no source of a pair leave its bucket alone. *)
Lemma load_files_other files self st d l :
  load_files cv files self = Ok st ->
  (forall f, In f files -> filename_pattern (fst f) <> Some (d, l)) ->
  dict_get pair_eqb (terms_by_domain_lang st) (d, l)
  = dict_get pair_eqb (terms_by_domain_lang self) (d, l).
Proof.
  revert self. induction files as [|[name0 csv0] files IH]; intros self H Hno.
  - simpl in H. injection H as <-. reflexivity.
  - simpl in H.
    assert (Hno' : forall f, In f files ->
                             filename_pattern (fst f) <> Some (d, l))
      by (intros f Hf; apply Hno; right; exact Hf).
    specialize (Hno (name0, csv0) (or_introl eq_refl)). simpl in Hno.
    destruct (filename_pattern name0) as [[d0 l0]|] eqn:Hpat.
    + destruct (read_terms d0 l0 (cv l0) csv0) as [b0|e]; [|discriminate].
      rewrite (IH _ H Hno'). simpl.
      apply dict_get_set_other; [apply pair_eqb_eq | congruence].
    + apply (IH _ H Hno').
Qed.

(** The bucket of a pair is the one read from its last source. *)
Lemma load_files_last_source files self st name csv d l :
  load_files cv files self = Ok st ->
  last_source files name csv d l ->
  exists b,
    read_terms d l (cv l) csv = Ok b /\
    dict_get pair_eqb (terms_by_domain_lang st) (d, l) = Some b.
Proof.
  revert self. induction files as [|[name0 csv0] files IH]; intros self H Hl.
  - destruct Hl as (before & after & E & _).
    destruct before; discriminate E.
  - apply last_source_cons in Hl. simpl in H.
    destruct Hl as [Hl|(E & Hp & Hno)].
    + destruct (filename_pattern name0) as [[d0 l0]|].
      * destruct (read_terms d0 l0 (cv l0) csv0) as [b0|e]; [|discriminate].
        apply (IH _ H Hl).
      * apply (IH _ H Hl).
    + injection E as -> ->. rewrite Hp in H.
      destruct (read_terms d l (cv l) csv) as [b0|e]; [|discriminate].
      exists b0. split; [reflexivity|].
      rewrite (load_files_other _ _ H Hno). simpl.
      apply dict_get_set_same. apply pair_eqb_eq.
Qed.

End IndexFacts.

(** C7.  After a successful load whose sources hold ASCII term texts, a
    pair has a bucket in the index exactly when the listing has a source
    for it, and the bucket is the one read from the source of the pair
    (the last one in the listing, should two file names give the same
    pair): its keys are pairwise distinct, and it maps a key to a term
    exactly when that term was built from the last row of the source whose
    lowercased and trimmed term text is the key.  Duplicated term texts
    play no part in the success of the load: it succeeds exactly when
    every source is a frame whose rows are read from the three columns and
    have a number as their id. *)
Theorem bucket_keys_unique_last_wins (cv : pystr -> pystr)
        (fs : FileSystem) (dir : pystr) (files : list File) :
  fs dir = Some files ->
  (forall name columns rows d l,
      source files name (DataFrame columns rows) d l -> ascii_terms rows) ->
  ((exists st, load cv fs dir = Ok st) <->
   (forall name csv d l, source files name csv d l -> loadable csv)) /\
  (forall st,
      load cv fs dir = Ok st ->
      (forall d l,
          dict_mem pair_eqb (terms_by_domain_lang st) (d, l) = true <->
          exists name columns rows,
            last_source files name (DataFrame columns rows) d l) /\
      (forall name columns rows d l,
          last_source files name (DataFrame columns rows) d l \/
          (source files name (DataFrame columns rows) d l /\
           forall f, In f files ->
                     filename_pattern (fst f) = Some (d, l) ->
                     f = (name, DataFrame columns rows)) ->
          exists bucket,
            dict_get pair_eqb (terms_by_domain_lang st) (d, l)
            = Some bucket /\
            NoDup (dict_keys bucket) /\
            forall k t,
              dict_get str_eqb bucket k = Some t <->
              exists r z,
                last_row_with k rows r /\ row_id r = IdNum z /\
                t = mkTerm z k (str_cell (row_translation r))
                           d l (cv l))).
Proof.
  intros Hdir _. unfold load. rewrite Hdir. split.
  - apply load_files_ok_iff.
  - intros st Hload.
    assert (Hlast : forall name columns rows d l,
               last_source files name (DataFrame columns rows) d l ->
               exists bucket,
                 dict_get pair_eqb (terms_by_domain_lang st) (d, l)
                 = Some bucket /\
                 NoDup (dict_keys bucket) /\
                 forall k t,
                   dict_get str_eqb bucket k = Some t <->
                   exists r z,
                     last_row_with k rows r /\ row_id r = IdNum z /\
                     t = mkTerm z k (str_cell (row_translation r))
                                d l (cv l)).
    { intros name columns rows d l Hl.
      destruct (load_files_last_source _ _ Hload Hl) as (b & Hb & Hg).
      exists b. split; [exact Hg|]. eapply read_terms_spec. exact Hb. }
    split.
    2:{ intros name columns rows d l [Hl|[Hs Hone]]; [eauto|].
        destruct (source_last_source Hs) as (name' & csv' & Hl).
        pose proof (last_source_source Hl) as [Hin Hp].
        specialize (Hone (name', csv') Hin Hp). injection Hone as -> ->.
        eauto. }
    intros d l. unfold dict_mem. split.
    + destruct (dict_get pair_eqb (terms_by_domain_lang st) (d, l))
        as [b|] eqn:Hg; [intros _ | discriminate].
      destruct (load_files_bucket _ _ _ _ _ Hload Hg)
        as [(name & csv & Hs & _)|Hself]; [|discriminate Hself].
      destruct (source_last_source Hs) as (name' & csv' & Hl).
      destruct (load_files_last_source _ _ Hload Hl) as (b' & Hb' & _).
      destruct csv' as [|columns rows]; [discriminate Hb'|].
      exists name', columns, rows. exact Hl.
    + intros (name & columns & rows & Hl).
      destruct (Hlast _ _ _ _ _ Hl) as (b & -> & _). reflexivity.
Qed.

Lemma bucket_keys_unique_last_wins_witness :
  exists bucket,
    dict_get pair_eqb
             (terms_by_domain_lang
                (loaded twi_ak (one_dir (str "t") dup_listing) (str "t")))
             (str "agric", str "twi")
    = Some bucket /\
    NoDup (dict_keys bucket) /\
    dict_get str_eqb bucket (str "acid")
    = Some (mkTerm 2 (str "acid") (str "Y") (str "agric") (str "twi")
                   (str "ak")).
Proof.
  assert (Ha : forall name columns rows d l,
             source dup_listing name (DataFrame columns rows) d l ->
             ascii_terms rows).
  { intros name columns rows d l [[E|[]] _]. injection E as _ _ <-.
    intros r s [<-|[<-|[]]] Hs; injection Hs as <-; reflexivity. }
  destruct (proj2 (@bucket_keys_unique_last_wins twi_ak
                     (one_dir (str "t") dup_listing) (str "t") dup_listing
                     eq_refl Ha)
              (loaded twi_ak (one_dir (str "t") dup_listing) (str "t"))
              eq_refl) as [_ H].
  destruct (H (str "agric_terms_twi.csv")
              [str "id"; str "term"; str "translation"]
              [row 1 " Acid" "X"; row 2 "acid" "Y"]
              (str "agric") (str "twi")) as (bucket & Hg & Hnd & Hk).
  - left. exists [], []. split; [reflexivity|].
    split; [vm_compute; reflexivity | intros f []].
  - exists bucket. split; [exact Hg|]. split; [exact Hnd|]. apply Hk.
    exists (row 2 "acid" "Y"), 2%Z. split; [|split; reflexivity].
    exists [row 1 " Acid" "X"], []. split; [reflexivity|].
    split; [reflexivity | intros r' []].
Defined.

(** ** Sets, [sorted] and the enumeration of domains *)

Section SetFacts.
Variable A : Type.
Variable eqb : A -> A -> bool.
Hypothesis eqb_eq : forall a b, eqb a b = true <-> a = b.

Lemma mem_In x (l : list A) : mem eqb x l = true <-> In x l.
Proof.
  unfold mem. rewrite existsb_exists. split.
  - intros [y [Hy E]]. apply eqb_eq in E. subst. exact Hy.
  - intros H. exists x. split; [exact H | apply eqb_eq; reflexivity].
Qed.

Lemma set_add_In x y (l : list A) :
  In x (set_add eqb y l) <-> x = y \/ In x l.
Proof.
  unfold set_add. destruct (mem eqb y l) eqn:E.
  - apply mem_In in E. split; [auto | intros [->|H]; auto].
  - rewrite in_app_iff. simpl. intuition.
Qed.

Lemma set_of_list_In x (l : list A) : In x (set_of_list eqb l) <-> In x l.
Proof.
  unfold set_of_list.
  assert (G : forall acc, In x (fold_left (fun s y => set_add eqb y s) l acc)
                          <-> In x acc \/ In x l).
  { induction l as [|y l IH]; intros acc; simpl; [tauto|].
    rewrite IH, set_add_In. intuition. }
  rewrite G. simpl. tauto.
Qed.
End SetFacts.

Lemma insert_sorted_In x y l : In x (insert_sorted y l) <-> x = y \/ In x l.
Proof.
  induction l as [|z l IH]; simpl; [intuition|].
  destruct (str_leb y z); simpl; [intuition|]. rewrite IH. intuition.
Qed.

Lemma sorted_In x l : In x (sorted l) <-> In x l.
Proof.
  induction l as [|y l IH]; simpl; [tauto|].
  rewrite insert_sorted_In, IH. intuition.
Qed.

Lemma get_domains_In (st : TerminologyManager) (d : pystr) :
  In d (get_domains st) <-> exists l, In (d, l) (domains_languages st).
Proof.
  unfold get_domains.
  rewrite sorted_In, (set_of_list_In str_eqb str_eqb_eq), in_map_iff. split.
  - intros [[d' l] [E H]]. simpl in E. subst. eauto.
  - intros [l H]. exists (d, l). auto.
Qed.

Lemma available_langs_In (st : TerminologyManager) (d l : pystr) :
  In l (map snd (filter (fun dl => str_eqb (fst dl) d)
                        (domains_languages st)))
  <-> In (d, l) (domains_languages st).
Proof.
  rewrite in_map_iff. split.
  - intros [[d' l'] [E H]]. simpl in E. subst l'.
    apply filter_In in H. destruct H as [H E]. simpl in E.
    apply str_eqb_eq in E. subst. exact H.
  - intros H. exists (d, l). split; [reflexivity|].
    apply filter_In. split; [exact H | simpl; apply str_eqb_refl].
Qed.

Section StoreFacts.
Variable cv : pystr -> pystr.

Lemma load_files_pairs files self st :
  load_files cv files self = Ok st -> pairs_agree self -> pairs_agree st.
Proof.
  revert self. induction files as [|[name0 csv0] files IH]; intros self H Ha.
  - simpl in H. injection H as <-. exact Ha.
  - simpl in H. destruct (filename_pattern name0) as [[d0 l0]|].
    + destruct (read_terms d0 l0 (cv l0) csv0) as [b0|e]; [|discriminate].
      apply IH in H; [exact H|]. intros p. simpl.
      rewrite (set_add_In pair_eqb pair_eqb_eq), (dict_keys_set pair_eqb pair_eqb_eq).
      rewrite (Ha p). tauto.
    + apply IH in H; assumption.
Qed.

Lemma load_files_keys_mono files self st p :
  load_files cv files self = Ok st ->
  In p (dict_keys (terms_by_domain_lang self)) ->
  In p (dict_keys (terms_by_domain_lang st)).
Proof.
  revert self. induction files as [|[name0 csv0] files IH]; intros self H Hp.
  - simpl in H. injection H as <-. exact Hp.
  - simpl in H. destruct (filename_pattern name0) as [[d0 l0]|].
    + destruct (read_terms d0 l0 (cv l0) csv0) as [b0|e]; [|discriminate].
      apply IH in H; [exact H|]. simpl.
      rewrite (dict_keys_set pair_eqb pair_eqb_eq). auto.
    + apply IH in H; assumption.
Qed.

Lemma load_files_source_key files self st name csv d l :
  load_files cv files self = Ok st ->
  source files name csv d l ->
  In (d, l) (dict_keys (terms_by_domain_lang st)).
Proof.
  revert self. induction files as [|[name0 csv0] files IH];
    intros self H [Hin Hp].
  - destruct Hin.
  - simpl in H. destruct Hin as [E|Hin].
    + injection E as -> ->. rewrite Hp in H.
      destruct (read_terms d l (cv l) csv) as [b0|e]; [|discriminate].
      apply load_files_keys_mono with (p := (d, l)) in H; [exact H|].
      simpl. rewrite (dict_keys_set pair_eqb pair_eqb_eq). auto.
    + destruct (filename_pattern name0) as [[d0 l0]|].
      * destruct (read_terms d0 l0 (cv l0) csv0) as [b0|e];
          [|discriminate].
        apply IH in H; [exact H | split; assumption].
      * apply IH in H; [exact H | split; assumption].
Qed.

Lemma load_pairs_agree fs dir st :
  load cv fs dir = Ok st -> pairs_agree st.
Proof.
  unfold load. destruct (fs dir) as [files|]; [|discriminate].
  intros H. apply load_files_pairs in H; [exact H|].
  intros p. simpl. tauto.
Qed.

End StoreFacts.

(** ** Diagnostics of [preprocess_text] *)

Lemma preprocess_text_empty cv st text d l :
  get_terms_for_domain_lang cv st d l = [] ->
  preprocess_text cv st text d l =
  if mem str_eqb d (get_domains st) then
    Err (ValueError_no_terminology d l
           (map snd (filter (fun dl => str_eqb (fst dl) d)
                            (domains_languages st))))
  else Err (ValueError_domain_not_found d (get_domains st)).
Proof. intros H. unfold preprocess_text. rewrite H. reflexivity. Qed.

(** C3.  On a loaded store, when the term set resolved for (domain,
    language) is empty [preprocess_text] raises: the domain-not-found error
    carrying the known domains when no pair of the index has the requested
    domain, and otherwise the no-terminology error carrying the domain, the
    requested language and exactly the languages stored for that domain.
    When the resolved term set is not empty it raises neither and returns
    a placeholder text with its replacement map. *)
Theorem preprocess_diagnostics (cv : pystr -> pystr) (fs : FileSystem)
        (dir : pystr) (st : TerminologyManager) (text d l : pystr) :
  load cv fs dir = Ok st ->
  (get_terms_for_domain_lang cv st d l = [] ->
   ((forall l', ~ In (d, l') (dict_keys (terms_by_domain_lang st))) ->
    preprocess_text cv st text d l
    = Err (ValueError_domain_not_found d (get_domains st)) /\
    forall x, In x (get_domains st) <->
              exists l', In (x, l') (dict_keys (terms_by_domain_lang st)))
   /\
   ((exists l', In (d, l') (dict_keys (terms_by_domain_lang st))) ->
    exists langs,
      preprocess_text cv st text d l
      = Err (ValueError_no_terminology d l langs) /\
      forall l', In l' langs <->
                 In (d, l') (dict_keys (terms_by_domain_lang st))))
  /\
  (get_terms_for_domain_lang cv st d l <> [] ->
   exists p m, preprocess_text cv st text d l = Ok (p, m)).
Proof.
  intros Hload. pose proof (load_pairs_agree _ _ _ Hload) as Ha.
  assert (Hdom : forall x, In x (get_domains st) <->
            exists l', In (x, l') (dict_keys (terms_by_domain_lang st))).
  { intros x. rewrite get_domains_In. split; intros [l' H]; exists l';
      apply Ha; exact H. }
  split.
  - intros Hempty. rewrite (preprocess_text_empty _ _ text _ _ Hempty).
    split.
    + intros Hno. destruct (mem str_eqb d (get_domains st)) eqn:E.
      * apply (mem_In str_eqb str_eqb_eq) in E. apply Hdom in E.
        destruct E as [l' E]. destruct (Hno l' E).
      * split; [reflexivity | exact Hdom].
    + intros Hyes. apply Hdom in Hyes.
      apply (mem_In str_eqb str_eqb_eq) in Hyes. rewrite Hyes.
      eexists. split; [reflexivity|].
      intros l'. rewrite available_langs_In. apply Ha.
  - intros Hne. unfold preprocess_text.
    destruct (get_terms_for_domain_lang cv st d l) as [|e terms] eqn:E;
      [congruence|].
    destruct (preprocess_terms (e :: terms) text) as [p m]. eauto.
Qed.

Lemma preprocess_diagnostics_witness :
  load twi_ak (one_dir (str "t") dup_listing) (str "t")
  = Ok (mkManager
          [((str "agric", str "twi"),
            [(str "acid",
              mkTerm 2 (str "acid") (str "Y") (str "agric") (str "twi")
                     (str "ak"))])]
          [(str "agric", str "twi")] [str "ak"]) /\
  preprocess_text twi_ak
    (mkManager
          [((str "agric", str "twi"),
            [(str "acid",
              mkTerm 2 (str "acid") (str "Y") (str "agric") (str "twi")
                     (str "ak"))])]
          [(str "agric", str "twi")] [str "ak"])
    (str "acid") (str "x") (str "zzz")
  = Err (ValueError_domain_not_found (str "x") [str "agric"]).
Proof.
  split; [vm_compute; reflexivity|].
  refine (proj1 (proj1 (proj1 (preprocess_diagnostics twi_ak
           (one_dir (str "t") dup_listing) (str "t") (str "acid") (str "x")
           (str "zzz") _) _) _)).
  - vm_compute. reflexivity.
  - vm_compute. reflexivity.
  - intros l' [E|[]]. vm_compute in E. discriminate E.
Defined.

(** C10.  A (domain, language) pair whose terminology source has no rows
    is a key of the index with an empty bucket: the lookup returns the
    empty mapping, and [preprocess_text] for that very pair raises the
    no-terminology error, whose list of available languages contains the
    requested language. *)
Theorem empty_source_reports_requested_language
        (cv : pystr -> pystr) (fs : FileSystem) (dir : pystr)
        (files : list File) (st : TerminologyManager)
        (name text d l : pystr) (columns : list pystr) :
  fs dir = Some files ->
  load cv fs dir = Ok st ->
  source files name (DataFrame columns []) d l ->
  (forall name' csv',
      source files name' csv' d l ->
      exists columns', csv' = DataFrame columns' []) ->
  dict_mem pair_eqb (terms_by_domain_lang st) (d, l) = true /\
  get_terms_for_domain_lang cv st d l = [] /\
  exists langs,
    preprocess_text cv st text d l
    = Err (ValueError_no_terminology d l langs) /\
    In l langs.
Proof.
  intros Hdir Hload Hsrc Hall.
  pose proof (load_pairs_agree _ _ _ Hload) as Ha.
  unfold load in Hload. rewrite Hdir in Hload.
  assert (Hkey : In (d, l) (dict_keys (terms_by_domain_lang st)))
    by (eapply load_files_source_key; eauto).
  destruct (dict_get pair_eqb (terms_by_domain_lang st) (d, l))
    as [b|] eqn:Hget.
  2:{ apply (dict_get_none pair_eqb pair_eqb_eq) in Hget. contradiction. }
  assert (Hb : b = []).
  { destruct (load_files_bucket cv _ _ _ _ Hload Hget)
      as [(name' & csv' & Hs & Hr)|Hself]; [|discriminate Hself].
    destruct (Hall _ _ Hs) as [columns' ->]. simpl in Hr. congruence. }
  subst b.
  assert (Hterms : get_terms_for_domain_lang cv st d l = []).
  { unfold get_terms_for_domain_lang. rewrite Hget. reflexivity. }
  split; [unfold dict_mem; rewrite Hget; reflexivity|].
  split; [exact Hterms|].
  rewrite (preprocess_text_empty _ _ text _ _ Hterms).
  apply Ha in Hkey.
  assert (Hd : mem str_eqb d (get_domains st) = true).
  { apply (mem_In str_eqb str_eqb_eq). apply get_domains_In. eauto. }
  rewrite Hd. eexists. split; [reflexivity|].
  apply available_langs_In. exact Hkey.
Qed.

Lemma empty_source_reports_requested_language_witness :
  exists langs,
    preprocess_text twi_ak
      (loaded twi_ak (one_dir (str "t") empty_listing) (str "t"))
      (str "acid") (str "agric") (str "twi")
    = Err (ValueError_no_terminology (str "agric") (str "twi") langs) /\
    In (str "twi") langs.
Proof.
  refine (proj2 (proj2 (empty_source_reports_requested_language twi_ak
            (one_dir (str "t") empty_listing) (str "t")
            (files := empty_listing) (name := str "agric_terms_twi.csv")
            (str "acid") (d := str "agric") (l := str "twi")
            (columns := [str "id"; str "term"; str "translation"])
            _ _ _ _))).
  - reflexivity.
  - vm_compute. reflexivity.
  - split; [left; reflexivity | vm_compute; reflexivity].
  - intros name' csv' [[E|[E|[]]] Hp]; injection E as <- <-;
      [eexists; reflexivity | vm_compute in Hp; discriminate Hp].
Defined.

(** ** Resolution of the language code *)

Section Resolution.
Variable cv : pystr -> pystr.

Lemma find_converted_first items d code b :
  first_converted cv items d code b ->
  find_converted cv d code items = Some b.
Proof.
  intros (before & l & after & -> & Hl & Hbefore).
  induction before as [|[[d' l'] t'] before IH]; simpl.
  - rewrite str_eqb_refl, Hl, str_eqb_refl. reflexivity.
  - destruct (str_eqb d' d && str_eqb (cv l') code) eqn:E.
    + apply andb_true_iff in E. destruct E as [E1 E2].
      apply str_eqb_eq in E1, E2.
      exfalso. apply (Hbefore d' l' t'); auto. left. reflexivity.
    + apply IH. intros d0 l0 t0 H0. apply (Hbefore d0 l0 t0). right. exact H0.
Qed.

Lemma find_converted_none items d code :
  (forall l' t', In ((d, l'), t') items -> cv l' <> code) ->
  find_converted cv d code items = None.
Proof.
  induction items as [|[[d' l'] t'] items IH]; intros H; simpl.
  - reflexivity.
  - destruct (str_eqb d' d && str_eqb (cv l') code) eqn:E.
    + apply andb_true_iff in E. destruct E as [E1 E2].
      apply str_eqb_eq in E1, E2. subst d'.
      exfalso. apply (H l' t'); auto. left. reflexivity.
    + apply IH. intros l0 t0 H0. apply (H l0 t0). right. exact H0.
Qed.

(** When one stored language of the domain at most converts to [code],
    the first converted pair is the pair of that language. *)
Lemma find_converted_unique items d code l0 :
  cv l0 = code ->
  (forall l', In (d, l') (dict_keys items) -> cv l' = code -> l' = l0) ->
  find_converted cv d code items = dict_get pair_eqb items (d, l0).
Proof.
  intros Hl0. induction items as [|[[d' l'] t'] items IH]; intros H; simpl.
  - reflexivity.
  - destruct (str_eqb d' d && str_eqb (cv l') code) eqn:E.
    + apply andb_true_iff in E. destruct E as [E1 E2].
      apply str_eqb_eq in E1, E2. subst d'.
      rewrite (H l') by (simpl; auto).
      rewrite pair_eqb_refl. reflexivity.
    + destruct (pair_eqb (d', l') (d, l0)) eqn:E'.
      * apply pair_eqb_eq in E'. injection E' as -> ->.
        rewrite str_eqb_refl, Hl0, str_eqb_refl in E. discriminate E.
      * apply IH. intros l1 H1. apply H. simpl. right. exact H1.
Qed.

End Resolution.

(** C5, as the specification states it, fails in its last sentence: with
    a source stored under "ak" and another under "twi", each code is
    resolved by its own exact match, and the two term sets differ. *)
Lemma resolution_not_identical :
  ~ (forall (cv : pystr -> pystr) (st : TerminologyManager),
        cv (str "twi") = str "ak" ->
        get_terms_for_domain_lang cv st (str "agric") (str "ak")
        = get_terms_for_domain_lang cv st (str "agric") (str "twi")).
Proof.
  intros H.
  specialize (H twi_ak
                (loaded twi_ak (one_dir (str "t") both_listing) (str "t"))
                eq_refl).
  vm_compute in H. discriminate H.
Qed.

(** C5, amended.  [get_terms_for_domain_lang] returns (a) the bucket of
    the exact (domain, language) key when there is one; otherwise (b) for a
    language of length 2 the bucket of the first stored pair of the domain
    whose converted language code is the language, (c) for a language of
    length 3 the bucket of the first stored pair of the domain whose
    converted code equals the converted language; (d) the empty mapping
    when none of these applies.  (e) When a 3-letter code converts to a
    2-letter code, the 2-letter code converts to itself and at most one
    stored language of the domain converts to that code, both codes
    resolve to the same term set. *)
Theorem language_resolution (cv : pystr -> pystr)
        (st : TerminologyManager) (d l : pystr) :
  (forall b, dict_get pair_eqb (terms_by_domain_lang st) (d, l) = Some b ->
             get_terms_for_domain_lang cv st d l = b) /\
  (forall b, dict_get pair_eqb (terms_by_domain_lang st) (d, l) = None -> length l = 2 ->
             first_converted cv (terms_by_domain_lang st) d l b ->
             get_terms_for_domain_lang cv st d l = b) /\
  (forall b, dict_get pair_eqb (terms_by_domain_lang st) (d, l) = None -> length l = 3 ->
             first_converted cv (terms_by_domain_lang st) d (cv l) b ->
             get_terms_for_domain_lang cv st d l = b) /\
  (dict_get pair_eqb (terms_by_domain_lang st) (d, l) = None ->
   (length l = 2 -> forall l' t', In ((d, l'), t') (terms_by_domain_lang st) -> cv l' <> l) ->
   (length l = 3 -> forall l' t', In ((d, l'), t') (terms_by_domain_lang st) -> cv l' <> cv l) ->
   get_terms_for_domain_lang cv st d l = []) /\
  (forall l2 l3 : pystr,
      length l2 = 2 -> length l3 = 3 -> cv l3 = l2 -> cv l2 = l2 ->
      (forall la lb, In (d, la) (dict_keys (terms_by_domain_lang st)) ->
                     In (d, lb) (dict_keys (terms_by_domain_lang st)) ->
                     cv la = l2 -> cv lb = l2 -> la = lb) ->
      get_terms_for_domain_lang cv st d l2
      = get_terms_for_domain_lang cv st d l3).
Proof.
  unfold get_terms_for_domain_lang. cbv zeta.
  split; [|split; [|split; [|split]]].
  - intros b ->. reflexivity.
  - intros b -> Hlen Hfirst. rewrite Hlen. simpl.
    rewrite (find_converted_first Hfirst). reflexivity.
  - intros b -> Hlen Hfirst. rewrite Hlen. simpl.
    rewrite (find_converted_first Hfirst). reflexivity.
  - intros -> H2 H3.
    destruct (length l =? 2) eqn:E2.
    + apply Nat.eqb_eq in E2.
      rewrite find_converted_none by (apply H2; exact E2).
      rewrite E2. reflexivity.
    + destruct (length l =? 3) eqn:E3; [|reflexivity].
      apply Nat.eqb_eq in E3.
      rewrite find_converted_none by (apply H3; exact E3).
      reflexivity.
  - intros l2 l3 Hlen2 Hlen3 H32 H22 Huniq.
    rewrite Hlen2, Hlen3, H32. simpl.
    destruct (dict_get pair_eqb (terms_by_domain_lang st) (d, l2)) as [b2|] eqn:G2.
    + (* the 2-letter code is stored: it is the only converted one *)
      assert (K2 : In (d, l2) (dict_keys (terms_by_domain_lang st))).
      { apply dict_get_in in G2; [|apply pair_eqb_eq].
        apply (in_map fst) in G2. exact G2. }
      destruct (dict_get pair_eqb (terms_by_domain_lang st) (d, l3)) as [b3|] eqn:G3.
      * assert (K3 : In (d, l3) (dict_keys (terms_by_domain_lang st))).
        { apply dict_get_in in G3; [|apply pair_eqb_eq].
          apply (in_map fst) in G3. exact G3. }
        pose proof (Huniq l2 l3 K2 K3 H22 H32) as E. subst l3. lia.
      * rewrite (@find_converted_unique cv (terms_by_domain_lang st) d l2 l2 H22)
          by (intros l' K' E'; apply (Huniq l' l2); auto).
        rewrite G2. reflexivity.
    + destruct (dict_get pair_eqb (terms_by_domain_lang st) (d, l3)) as [b3|] eqn:G3.
      * assert (K3 : In (d, l3) (dict_keys (terms_by_domain_lang st))).
        { apply dict_get_in in G3; [|apply pair_eqb_eq].
          apply (in_map fst) in G3. exact G3. }
        rewrite (@find_converted_unique cv (terms_by_domain_lang st) d l2 l3 H32)
          by (intros l' K' E'; apply (Huniq l' l3); auto).
        rewrite G3. reflexivity.
      * reflexivity.
Qed.

(** ** Characters *)

Lemma lower_char_cases (a : ascii) :
  lower_char a = a \/ (is_upper a = true /\ is_lower (lower_char a) = true).
Proof.
  destruct a as [[] [] [] [] [] [] [] []]; vm_compute; auto.
Qed.

Lemma lower_char_word (a : ascii) : is_word (lower_char a) = is_word a.
Proof.
  destruct a as [[] [] [] [] [] [] [] []]; vm_compute; reflexivity.
Qed.

Lemma is_upper_not_lower (a : ascii) : is_upper a = true -> is_lower a = false.
Proof.
  destruct a as [[] [] [] [] [] [] [] []]; vm_compute; congruence.
Qed.

(** Case folding identifies a character that is not a letter with itself
    only. *)
Lemma lower_char_eq_fixed (a b : ascii) :
  is_lower b = false -> is_upper b = false ->
  lower_char a = lower_char b -> a = b.
Proof.
  intros Hl Hu E.
  assert (Eb : lower_char b = b) by (unfold lower_char; rewrite Hu; auto).
  rewrite Eb in E.
  destruct (lower_char_cases a) as [Ea|[_ Ha]]; congruence.
Qed.

Lemma is_digit_not_letter (a : ascii) :
  is_digit a = true -> is_lower a = false /\ is_upper a = false.
Proof.
  destruct a as [[] [] [] [] [] [] [] []]; vm_compute; auto; discriminate.
Qed.

Lemma is_digit_word (a : ascii) : is_digit a = true -> is_word a = true.
Proof. unfold is_word. intros ->. reflexivity. Qed.

(** ** Matching at a position *)

Lemma ci_prefix_ci_equal (pat text : pystr) :
  ci_prefix pat text = ci_equal pat (firstn (length pat) text).
Proof.
  unfold ci_equal, lower. revert text.
  induction pat as [|p pat IH]; intros [|c text]; simpl; auto.
  rewrite IH. reflexivity.
Qed.

Lemma ci_prefix_length (pat text : pystr) :
  ci_prefix pat text = true -> length pat <= length text.
Proof.
  revert text. induction pat as [|p pat IH]; intros [|c text]; simpl;
    try discriminate; try lia.
  intros H. apply andb_true_iff in H. destruct H as [_ H].
  apply IH in H. lia.
Qed.

Lemma ci_prefix_nth (pat text : pystr) :
  ci_prefix pat text = true ->
  forall i p, nth_error pat i = Some p ->
              exists c, nth_error text i = Some c /\
                        lower_char p = lower_char c.
Proof.
  revert text. induction pat as [|p0 pat IH]; intros [|c0 text] H i p Hi;
    simpl in H; try discriminate; try (destruct i; discriminate).
  apply andb_true_iff in H. destruct H as [H0 H].
  apply ascii_eqb_eq in H0.
  destruct i as [|i]; simpl in *.
  - injection Hi as <-. eauto.
  - eapply IH; eauto.
Qed.

Lemma hd_error_rev_nth (pat : pystr) :
  hd_error (rev pat) = nth_error pat (length pat - 1).
Proof.
  destruct (rev pat) as [|pl r] eqn:E.
  - apply (f_equal (@rev ascii)) in E. rewrite rev_involutive in E.
    subst. reflexivity.
  - apply (f_equal (@rev ascii)) in E. rewrite rev_involutive in E.
    subst pat. simpl. rewrite length_app, length_rev. simpl.
    replace (length r + 1 - 1) with (length (rev r) + 0)
      by (rewrite length_rev; lia).
    rewrite nth_error_app2 by lia.
    replace (length (rev r) + 0 - length (rev r)) with 0 by lia.
    reflexivity.
Qed.

(** For a term that begins and ends with a word character the pattern
    [\b term \b] decides "whole word". *)
Lemma match_here_whole_word (pat : pystr) (prev : option ascii)
      (text : pystr) :
  word_edged pat = true ->
  match_here pat prev text = whole_word_at pat prev text.
Proof.
  unfold word_edged, match_here, whole_word_at. intros Hedge.
  apply andb_true_iff in Hedge. destruct Hedge as [Hhd Hlast].
  rewrite <- ci_prefix_ci_equal.
  destruct (ci_prefix pat text) eqn:Hci.
  2:{ rewrite andb_false_r. reflexivity. }
  destruct pat as [|p pat]; [discriminate Hhd|].
  assert (H0 : exists c, nth_error text 0 = Some c /\
                         lower_char p = lower_char c)
    by (eapply ci_prefix_nth; eauto).
  destruct H0 as (c & Hc & Epc).
  destruct text as [|c0 text]; [discriminate Hc|].
  simpl in Hc. injection Hc as ->.
  assert (Wc : is_word c = true).
  { rewrite <- lower_char_word, <- Epc, lower_char_word. exact Hhd. }
  rewrite hd_error_rev_nth in Hlast.
  destruct (nth_error (p :: pat) (length (p :: pat) - 1)) as [pl|] eqn:Epl;
    [|discriminate Hlast].
  destruct (ci_prefix_nth _ _ Hci _ Epl) as (cl & Hcl & Epcl).
  assert (Wcl : is_word cl = true).
  { rewrite <- lower_char_word, <- Epcl, lower_char_word. exact Hlast. }
  unfold prev_after, at_boundary.
  change (length (p :: pat)) with (S (length pat)) in *.
  simpl in Hcl. rewrite Nat.sub_0_r in Hcl.
  cbv iota. rewrite Hcl. cbn [hd_error word_opt]. rewrite Wc, Wcl.
  destruct (word_opt prev);
    destruct (word_opt (hd_error (skipn (S (length pat)) (c :: text))));
    reflexivity.
Qed.

(** ** The scan *)

Section ScanFacts.
Variable St : Type.
Variable pat ph : pystr.
Variable f : St -> St.

(** [sub_scan] with a callback that always answers [ph]: the text is
    [scan_out], the state went through the callback [scan_count] times. *)
Lemma sub_scan_split prev skip text st :
  sub_scan pat (fun s => (ph, f s)) prev skip text st
  = (scan_out pat ph prev skip text,
     Nat.iter (scan_count pat prev skip text) f st).
Proof.
  revert prev skip st. induction text as [|c rest IH]; intros prev skip st.
  - simpl. destruct skip; [|reflexivity].
    destruct (match_here pat prev []); reflexivity.
  - simpl. destruct skip as [|k].
    + destruct (match_here pat prev (c :: rest)).
      * destruct (length pat) as [|k]; rewrite IH;
          rewrite <- Nat.iter_succ_r; reflexivity.
      * rewrite IH. reflexivity.
    + apply IH.
Qed.
End ScanFacts.

Section ScanOut.
Variable pat ph : pystr.

Lemma last_char_app prev a b :
  last_char prev (a ++ b) = last_char (last_char prev a) b.
Proof. unfold last_char. apply fold_left_app. Qed.

Lemma scan_out_skip m rest prev :
  scan_out pat ph prev (length m) (m ++ rest)
  = scan_out pat ph (last_char prev m) 0 rest.
Proof.
  revert prev. induction m as [|c m IH]; intros prev; simpl.
  - destruct rest; reflexivity.
  - apply IH.
Qed.

Lemma scan_count_skip m rest prev :
  scan_count pat prev (length m) (m ++ rest)
  = scan_count pat (last_char prev m) 0 rest.
Proof.
  revert prev. induction m as [|c m IH]; intros prev; simpl.
  - destruct rest; reflexivity.
  - apply IH.
Qed.

(** A match at the head of [m ++ rest], [m] being the matched text. *)
Lemma scan_out_hit m rest prev :
  m <> [] -> length m = length pat ->
  match_here pat prev (m ++ rest) = true ->
  scan_out pat ph prev 0 (m ++ rest)
  = ph ++ scan_out pat ph (last_char prev m) 0 rest.
Proof.
  intros Hm Hlen Hmatch. destruct m as [|c m]; [congruence|].
  simpl app. simpl scan_out.
  change (match_here pat prev (c :: m ++ rest)) with
    (match_here pat prev ((c :: m) ++ rest)).
  rewrite Hmatch. rewrite <- Hlen. simpl length. cbv iota.
  rewrite scan_out_skip. reflexivity.
Qed.

Lemma scan_count_hit m rest prev :
  m <> [] -> length m = length pat ->
  match_here pat prev (m ++ rest) = true ->
  scan_count pat prev 0 (m ++ rest)
  = S (scan_count pat (last_char prev m) 0 rest).
Proof.
  intros Hm Hlen Hmatch. destruct m as [|c m]; [congruence|].
  simpl app. simpl scan_count.
  change (match_here pat prev (c :: m ++ rest)) with
    (match_here pat prev ((c :: m) ++ rest)).
  rewrite Hmatch. rewrite <- Hlen. simpl length. cbv iota.
  rewrite scan_count_skip. reflexivity.
Qed.

Lemma scan_out_miss c rest prev :
  match_here pat prev (c :: rest) = false ->
  scan_out pat ph prev 0 (c :: rest)
  = c :: scan_out pat ph (Some c) 0 rest.
Proof. intros H. simpl. rewrite H. reflexivity. Qed.

Lemma scan_count_miss c rest prev :
  match_here pat prev (c :: rest) = false ->
  scan_count pat prev 0 (c :: rest) = scan_count pat (Some c) 0 rest.
Proof. intros H. simpl. rewrite H. reflexivity. Qed.

(** Without a match the text comes out unchanged. *)
Lemma scan_out_no_hit text prev :
  scan_count pat prev 0 text = 0 -> scan_out pat ph prev 0 text = text.
Proof.
  revert prev. induction text as [|c rest IH]; intros prev; simpl.
  - destruct (match_here pat prev []); [discriminate | reflexivity].
  - destruct (match_here pat prev (c :: rest)).
    + destruct (length pat); discriminate.
    + intros H. rewrite IH by exact H. reflexivity.
Qed.

(** The callback is called exactly when the pattern matches somewhere. *)
Lemma scan_count_positive text prev :
  0 < scan_count pat prev 0 text <->
  exists a b, text = a ++ b /\ match_here pat (last_char prev a) b = true.
Proof.
  split.
  - revert prev. induction text as [|c rest IH]; intros prev; simpl.
    + destruct (match_here pat prev []) eqn:E; [|lia].
      intros _. exists [], []. auto.
    + destruct (match_here pat prev (c :: rest)) eqn:E.
      * intros _. exists [], (c :: rest). auto.
      * intros H. apply IH in H. destruct H as (a & b & -> & H).
        exists (c :: a), b. auto.
  - intros (a & b & -> & H). revert prev H.
    induction a as [|c a IH]; intros prev H; simpl in *.
    + destruct b as [|c b]; simpl; rewrite H; [lia|].
      destruct (length pat); lia.
    + destruct (match_here pat prev (c :: a ++ b)).
      * destruct (length pat); lia.
      * apply IH. exact H.
Qed.
End ScanOut.

Lemma spec_scan_scan_out pat ph prev skip text :
  word_edged pat = true ->
  scan_out pat ph prev skip text = spec_scan pat ph prev skip text.
Proof.
  intros Hedge. revert prev skip.
  induction text as [|c rest IH]; intros prev skip; simpl.
  - destruct skip; [|reflexivity].
    rewrite match_here_whole_word by exact Hedge.
    unfold whole_word_at. destruct pat; [discriminate Hedge|].
    reflexivity.
  - destruct skip as [|k]; [|apply IH].
    rewrite match_here_whole_word by exact Hedge.
    destruct (whole_word_at pat prev (c :: rest)).
    + destruct pat as [|p pat]; [discriminate Hedge|].
      simpl length. cbv iota. rewrite Nat.sub_succ, Nat.sub_0_r, IH.
      reflexivity.
    + rewrite IH. reflexivity.
Qed.

Lemma re_sub_placeholder (t : Term) (text : pystr) (m : dict pystr Term) :
  re_sub (term t) (replace_with_placeholder t) text m
  = (scan_out (term t) (placeholder t) None 0 text,
     Nat.iter (scan_count (term t) None 0 text)
              (fun s => dict_set str_eqb s (placeholder t) t) m).
Proof.
  unfold re_sub, replace_with_placeholder.
  apply (sub_scan_split (term t) (placeholder t)
           (fun s => dict_set str_eqb s (placeholder t) t)).
Qed.

(** The boundary test on terms that do not begin and end with a word
    character, and on overlapping occurrences. *)
Lemma boundary_test_examples :
  whole_word_at (str "c++") None (str "c++ x") = true /\
  preprocess_terms (bucket_of [term_of 7 "c++" "Y"]) (str "c++ x")
  = (str "c++ x", []) /\
  whole_word_at (str "c++") (Some " "%char) (str "c++x") = false /\
  fst (preprocess_terms (bucket_of [term_of 7 "c++" "Y"]) (str "a c++x"))
  = str "a <7>x" /\
  whole_word_at (str "a a") (Some " "%char) (str "a a") = true /\
  fst (preprocess_terms (bucket_of [term_of 1 "a a" "Y"]) (str "a a a"))
  = str "<1> a".
Proof. vm_compute. repeat split; reflexivity. Qed.

(** C4, as the specification states it, fails.  The occurrence of "c++"
    at the start of "c++ x" equals the term and touches no word character,
    yet the pattern does not match there and the text is returned
    unchanged, with an empty map. *)
Lemma whole_word_is_not_the_boundary_test :
  ~ (forall (t : Term) (prev : option ascii) (text : pystr),
        whole_word_at (term t) prev text = true ->
        fst (sub_scan (term t) (replace_with_placeholder t) prev 0 text [])
        = placeholder t
            ++ fst (sub_scan (term t) (replace_with_placeholder t)
                             (prev_after (length (term t)) prev text) 0
                             (skipn (length (term t)) text) [])).
Proof.
  intros H.
  specialize (H (term_of 7 "c++" "Y") None (str "c++ x") eq_refl).
  vm_compute in H. discriminate H.
Qed.

(** C4, amended.  For an ASCII term that begins and ends with a word
    character and an ASCII text, the scan of [preprocess_text] replaces
    the text at the position it has reached if and only if that text
    equals the term up to case and has no word character next to it on
    either side, and it resumes after the replaced text (so an occurrence
    that overlaps a replaced one is left alone).  The term "cat" never matches when a word character precedes
    or follows it, as inside "category", and the stored term "acreage"
    matches "ACREAGE". *)
Theorem whole_word_matching :
  (forall pat prev text,
      ascii_str pat = true -> ascii_opt prev = true ->
      ascii_str text = true ->
      word_edged pat = true ->
      match_here pat prev text = whole_word_at pat prev text) /\
  (forall t text m,
      ascii_str (term t) = true -> ascii_str text = true ->
      word_edged (term t) = true ->
      fst (re_sub (term t) (replace_with_placeholder t) text m)
      = spec_scan (term t) (placeholder t) None 0 text) /\
  (forall prev w rest,
      is_word w = true ->
      match_here (str "cat") prev (str "cat" ++ w :: rest) = false) /\
  (forall p text,
      is_word p = true -> match_here (str "cat") (Some p) text = false) /\
  preprocess_terms (bucket_of [term_of 1 "cat" "X"]) (str "category")
  = (str "category", []) /\
  fst (preprocess_terms (bucket_of [term_of 2 "acreage" "Y"])
                        (str "ACREAGE"))
  = str "<2>".
Proof.
  split; [intros pat prev text _ _ _; apply match_here_whole_word|].
  split.
  { intros t text m _ _ H. rewrite re_sub_placeholder. simpl fst.
    apply spec_scan_scan_out. exact H. }
  split.
  { intros prev w rest Hw.
    rewrite match_here_whole_word by reflexivity.
    unfold whole_word_at. simpl. rewrite Hw. simpl.
    apply andb_false_r. }
  split.
  { intros p text Hp.
    rewrite match_here_whole_word by reflexivity.
    unfold whole_word_at. simpl word_opt at 1. rewrite Hp. simpl.
    rewrite andb_false_r. reflexivity. }
  split; vm_compute; reflexivity.
Qed.

Lemma whole_word_matching_witness :
  word_edged (str "cat") = true /\
  match_here (str "cat") None (str "cat sat")
  = whole_word_at (str "cat") None (str "cat sat").
Proof.
  split; [reflexivity|].
  apply (proj1 whole_word_matching (str "cat") None (str "cat sat"));
    reflexivity.
Defined.

(** ** The order of substitution *)

Lemma insert_by_len_perm x l : Permutation (x :: l) (insert_by_len x l).
Proof.
  induction l as [|y l IH]; simpl; [reflexivity|].
  destruct (length (term x) <? length (term y)); [|reflexivity].
  rewrite perm_swap. constructor. exact IH.
Qed.

Lemma sort_by_len_desc_perm l : Permutation l (sort_by_len_desc l).
Proof.
  induction l as [|x l IH]; simpl; [reflexivity|].
  rewrite <- insert_by_len_perm. constructor. exact IH.
Qed.

Lemma insert_by_len_sorted x l :
  StronglySorted longer_first l ->
  StronglySorted longer_first (insert_by_len x l).
Proof.
  induction l as [|y l IH]; intros H; simpl.
  - constructor; constructor.
  - inversion H as [|? ? Hs Hall]; subst.
    destruct (length (term x) <? length (term y)) eqn:E.
    + apply Nat.ltb_lt in E. constructor; [auto|].
      apply Forall_forall. intros z Hz.
      apply (Permutation_in z (Permutation_sym (insert_by_len_perm x l)))
        in Hz.
      destruct Hz as [<-|Hz]; [unfold longer_first; lia|].
      rewrite Forall_forall in Hall. auto.
    + apply Nat.ltb_ge in E. constructor; [exact H|].
      constructor; [exact E|].
      rewrite Forall_forall in Hall |- *. intros z Hz.
      specialize (Hall z Hz). unfold longer_first in *. lia.
Qed.

Lemma sort_by_len_desc_sorted l :
  StronglySorted longer_first (sort_by_len_desc l).
Proof.
  induction l as [|x l IH]; simpl; [constructor|].
  apply insert_by_len_sorted. exact IH.
Qed.

Lemma strongly_sorted_after (R : Term -> Term -> Prop) l1 a r :
  StronglySorted R (l1 ++ a :: r) -> Forall (R a) r.
Proof.
  induction l1 as [|x l1 IH]; simpl; intros H;
    inversion H as [|? ? Hs Hall]; subst; auto.
Qed.

Lemma longer_term_first l a b :
  In a l -> In b l -> length (term b) < length (term a) ->
  exists l1 l2 l3, sort_by_len_desc l = l1 ++ a :: l2 ++ b :: l3.
Proof.
  intros Ha Hb Hlt.
  pose proof (sort_by_len_desc_sorted l) as Hs.
  apply (Permutation_in _ (sort_by_len_desc_perm l)) in Ha, Hb.
  destruct (in_split _ _ Ha) as (l1 & r & E). rewrite E in *.
  apply in_app_or in Hb. destruct Hb as [Hb|[Hb|Hb]].
  - destruct (in_split _ _ Hb) as (x & y & ->).
    rewrite <- app_assoc in Hs. simpl in Hs.
    apply strongly_sorted_after in Hs. rewrite Forall_forall in Hs.
    assert (longer_first b a) by (apply Hs; apply in_or_app; right; left;
                                  reflexivity).
    unfold longer_first in *. lia.
  - subst. lia.
  - destruct (in_split _ _ Hb) as (l2 & l3 & ->). eauto.
Qed.

(** C2.  [preprocess_text] goes through the terms of the bucket in the
    order [sort_by_len_desc] gives: a rearrangement of the bucket in which
    no term is followed by a longer one, so that a term strictly longer
    than another (as a compound term is than a term it contains) is
    substituted before it.  With "acid rain" (id 1) and "acid" (id 2) as
    the bucket of (domain, language), in either order of insertion,
    "acid rain falls" becomes "<1> falls" and the map holds "<1>" only. *)
Theorem longest_term_first :
  (forall terms_dict text,
      preprocess_terms terms_dict text
      = fold_left preprocess_step
                  (sort_by_len_desc (dict_values terms_dict)) (text, []) /\
      Permutation (dict_values terms_dict)
                  (sort_by_len_desc (dict_values terms_dict)) /\
      StronglySorted longer_first
                     (sort_by_len_desc (dict_values terms_dict))) /\
  (forall (terms_dict : dict pystr Term) a b,
      In a (dict_values terms_dict) -> In b (dict_values terms_dict) ->
      length (term b) < length (term a) ->
      exists l1 l2 l3,
        sort_by_len_desc (dict_values terms_dict)
        = l1 ++ a :: l2 ++ b :: l3) /\
  (forall (cv : pystr -> pystr) st d l t1 t2,
      id t1 = 1%Z -> term t1 = str "acid rain" ->
      id t2 = 2%Z -> term t2 = str "acid" ->
      get_terms_for_domain_lang cv st d l = [(term t1, t1); (term t2, t2)]
      \/ get_terms_for_domain_lang cv st d l
         = [(term t2, t2); (term t1, t1)] ->
      preprocess_text cv st (str "acid rain falls") d l
      = Ok (str "<1> falls", [(str "<1>", t1)])).
Proof.
  split; [|split].
  - intros terms_dict text. split; [reflexivity|].
    split; [apply sort_by_len_desc_perm | apply sort_by_len_desc_sorted].
  - intros terms_dict a b. apply longer_term_first.
  - intros cv st d l t1 t2 I1 E1 I2 E2 H.
    unfold preprocess_text.
    destruct t1 as [i1 s1 tr1 d1 g1 c1], t2 as [i2 s2 tr2 d2 g2 c2].
    simpl in I1, E1, I2, E2. subst.
    destruct H as [-> | ->]; vm_compute; reflexivity.
Qed.

Lemma longest_term_first_witness :
  preprocess_text twi_ak
    (manager_of "agric" "twi"
                [term_of 2 "acid" "Y"; term_of 1 "acid rain" "X"])
    (str "acid rain falls") (str "agric") (str "twi")
  = Ok (str "<1> falls", [(str "<1>", term_of 1 "acid rain" "X")]).
Proof.
  apply (proj2 (proj2 longest_term_first) twi_ak
           (manager_of "agric" "twi"
                       [term_of 2 "acid" "Y"; term_of 1 "acid rain" "X"])
           (str "agric") (str "twi")
           (term_of 1 "acid rain" "X") (term_of 2 "acid" "Y"));
    try reflexivity.
  right. reflexivity.
Defined.

Lemma language_resolution_witness :
  get_terms_for_domain_lang twi_ak
    (manager_of "agric" "twi" [term_of 1 "acid" "X"])
    (str "agric") (str "ak")
  = get_terms_for_domain_lang twi_ak
      (manager_of "agric" "twi" [term_of 1 "acid" "X"])
      (str "agric") (str "twi").
Proof.
  apply (proj2 (proj2 (proj2 (proj2
           (language_resolution twi_ak
              (manager_of "agric" "twi" [term_of 1 "acid" "X"])
              (str "agric") (str "ak")))))
           (str "ak") (str "twi"));
    try reflexivity.
  intros la lb [E1|[]] [E2|[]] _ _. congruence.
Defined.

(** ** Placeholders *)

Lemma uint_digits (d : Decimal.uint) :
  Forall (fun c => is_digit c = true)
         (list_ascii_of_string (NilEmpty.string_of_uint d)).
Proof.
  induction d; simpl; constructor; auto.
Qed.

(** The rendering of an integer: digits, after a sign when negative. *)
Lemma str_of_int_shape (z : Z) :
  exists ds, Forall (fun c => is_digit c = true) ds /\
             (str_of_int z = ds \/ str_of_int z = "-"%char :: ds).
Proof.
  unfold str_of_int. destruct (Z.to_int z) as [d|d]; simpl.
  - exists (list_ascii_of_string (NilEmpty.string_of_uint d)).
    split; [apply uint_digits | left; reflexivity].
  - exists (list_ascii_of_string (NilEmpty.string_of_uint d)).
    split; [apply uint_digits | right; reflexivity].
Qed.

Lemma str_of_int_inj (a b : Z) : str_of_int a = str_of_int b -> a = b.
Proof.
  unfold str_of_int. intros H.
  apply (f_equal string_of_list_ascii) in H.
  rewrite !string_of_list_ascii_of_string in H.
  apply (f_equal NilEmpty.int_of_string) in H.
  rewrite !NilEmpty.isi in H. injection H as H.
  apply (f_equal Z.of_int) in H. rewrite !DecimalZ.of_to in H. exact H.
Qed.

Lemma placeholder_cons (t : Term) :
  placeholder t = "<"%char :: str_of_int (id t) ++ [">"%char].
Proof. reflexivity. Qed.

Lemma placeholder_inj (t u : Term) :
  placeholder t = placeholder u -> id t = id u.
Proof.
  rewrite !placeholder_cons. intros H. injection H as H.
  apply app_inj_tail in H. destruct H as [H _].
  apply str_of_int_inj. exact H.
Qed.


(** ** The replacement map *)

Lemma iter_dict_set (n : nat) (m : dict pystr Term) k v :
  Nat.iter (S n) (fun s => dict_set str_eqb s k v) m = dict_set str_eqb m k v.
Proof.
  induction n as [|n IH]; [reflexivity|].
  rewrite Nat.iter_succ, IH. apply dict_set_idem. apply str_eqb_eq.
Qed.

Lemma occurs_count (pat text : pystr) :
  occurs pat text <-> 0 < scan_count pat None 0 text.
Proof. unfold occurs. symmetry. apply scan_count_positive. Qed.

(** One iteration of the loop: the text is rewritten, and the map gets the
    entry of the term exactly when its pattern matched. *)
Lemma preprocess_step_spec (cur : pystr) (m : dict pystr Term) (t : Term) :
  fst (preprocess_step (cur, m) t)
  = scan_out (term t) (placeholder t) None 0 cur /\
  (occurs (term t) cur ->
   snd (preprocess_step (cur, m) t) = dict_set str_eqb m (placeholder t) t) /\
  (~ occurs (term t) cur ->
   preprocess_step (cur, m) t = (cur, m)).
Proof.
  unfold preprocess_step. simpl fst. simpl snd. rewrite re_sub_placeholder.
  split; [reflexivity|]. split.
  - intros H. apply occurs_count in H. simpl snd.
    destruct (scan_count (term t) None 0 cur) as [|n]; [lia|].
    apply iter_dict_set.
  - intros H. rewrite occurs_count in H.
    assert (E : scan_count (term t) None 0 cur = 0) by lia.
    rewrite E, scan_out_no_hit by exact E. reflexivity.
Qed.

Lemma occurs_dec (pat text : pystr) : occurs pat text \/ ~ occurs pat text.
Proof.
  rewrite occurs_count.
  destruct (scan_count pat None 0 text); [right; lia | left; lia].
Qed.

Section LoopFacts.

Lemma loop_keys ts : forall cur m k,
  In k (dict_keys (snd (fold_left preprocess_step ts (cur, m)))) <->
  In k (dict_keys m) \/
  exists before t after,
    ts = before ++ t :: after /\
    occurs (term t) (fst (fold_left preprocess_step before (cur, m))) /\
    k = placeholder t.
Proof.
  induction ts as [|t ts IH]; intros cur m k.
  - simpl. split; [auto|].
    intros [H|(before & t & after & E & _)]; [exact H|].
    destruct before; discriminate E.
  - simpl fold_left.
    destruct (preprocess_step (cur, m) t) as [cur1 m1] eqn:Estep.
    rewrite IH.
    destruct (preprocess_step_spec cur m t) as (_ & Hyes & Hno).
    rewrite Estep in Hyes, Hno. simpl in Hyes.
    split.
    + intros [H|(before & u & after & E & Hocc & Hk)].
      * destruct (occurs_dec (term t) cur) as [Ho|Ho].
        -- rewrite (Hyes Ho) in H.
           apply (dict_keys_set str_eqb str_eqb_eq) in H.
           destruct H as [->|H]; [|auto].
           right. exists [], t, ts. auto.
        -- apply Hno in Ho. injection Ho as -> ->. auto.
      * right. exists (t :: before), u, after. subst ts. simpl.
        rewrite Estep. auto.
    + intros [H|(before & u & after & E & Hocc & Hk)].
      * left. destruct (occurs_dec (term t) cur) as [Ho|Ho].
        -- rewrite (Hyes Ho).
           apply (dict_keys_set str_eqb str_eqb_eq). auto.
        -- apply Hno in Ho. injection Ho as -> ->. exact H.
      * destruct before as [|t0 before]; simpl in E; injection E as E1 E2.
        -- subst u after. simpl in Hocc. left. rewrite (Hyes Hocc).
           apply (dict_keys_set str_eqb str_eqb_eq). auto.
        -- subst t0. right. exists before, u, after. simpl in Hocc.
           rewrite Estep in Hocc. auto.
Qed.

Lemma loop_nodup ts : forall cur m,
  NoDup (dict_keys m) ->
  NoDup (dict_keys (snd (fold_left preprocess_step ts (cur, m)))).
Proof.
  induction ts as [|t ts IH]; intros cur m H; [exact H|].
  simpl fold_left.
  destruct (preprocess_step (cur, m) t) as [cur1 m1] eqn:Estep.
  apply IH.
  destruct (preprocess_step_spec cur m t) as (_ & Hyes & Hno).
  rewrite Estep in Hyes, Hno. simpl in Hyes.
  destruct (occurs_dec (term t) cur) as [Ho|Ho].
  - rewrite (Hyes Ho). apply dict_set_nodup; [apply str_eqb_eq | exact H].
  - apply Hno in Ho. injection Ho as -> ->. exact H.
Qed.

(** The value under a key is a term that matched, under its own
    placeholder. *)
Lemma loop_values ts : forall cur m k v,
  dict_get str_eqb (snd (fold_left preprocess_step ts (cur, m))) k = Some v ->
  dict_get str_eqb m k = Some v \/
  exists before after,
    ts = before ++ v :: after /\
    occurs (term v) (fst (fold_left preprocess_step before (cur, m))) /\
    k = placeholder v.
Proof.
  induction ts as [|t ts IH]; intros cur m k v H; [left; exact H|].
  simpl fold_left in H.
  destruct (preprocess_step (cur, m) t) as [cur1 m1] eqn:Estep.
  destruct (preprocess_step_spec cur m t) as (_ & Hyes & Hno).
  rewrite Estep in Hyes, Hno. simpl in Hyes.
  apply IH in H. destruct H as [H|(before & after & E & Hocc & Hk)].
  - destruct (occurs_dec (term t) cur) as [Ho|Ho].
    + rewrite (Hyes Ho) in H.
      destruct (str_eqb (placeholder t) k) eqn:Ek.
      * apply str_eqb_eq in Ek. subst k.
        rewrite dict_get_set_same in H by apply str_eqb_eq.
        injection H as <-. right. exists [], ts. auto.
      * apply str_eqb_neq in Ek.
        rewrite dict_get_set_other in H
          by (try apply str_eqb_eq; congruence).
        left. exact H.
    + apply Hno in Ho. injection Ho as -> ->. left. exact H.
  - right. exists (t :: before), after. subst ts. simpl.
    rewrite Estep. auto.
Qed.

(** An entry survives the terms whose ids differ from its own. *)
Lemma loop_keeps ts : forall cur m (t : Term),
  (forall u, In u ts -> id u <> id t) ->
  dict_get str_eqb (snd (fold_left preprocess_step ts (cur, m)))
           (placeholder t)
  = dict_get str_eqb m (placeholder t).
Proof.
  induction ts as [|u ts IH]; intros cur m t H; [reflexivity|].
  simpl fold_left.
  destruct (preprocess_step (cur, m) u) as [cur1 m1] eqn:Estep.
  rewrite IH by (intros u' Hu'; apply H; right; exact Hu').
  destruct (preprocess_step_spec cur m u) as (_ & Hyes & Hno).
  rewrite Estep in Hyes, Hno. simpl in Hyes.
  destruct (occurs_dec (term u) cur) as [Ho|Ho].
  - rewrite (Hyes Ho). apply dict_get_set_other; [apply str_eqb_eq|].
    intros E. apply placeholder_inj in E.
    apply (H u); [left; reflexivity | congruence].
  - apply Hno in Ho. injection Ho as -> ->. reflexivity.
Qed.

Lemma loop_entry ts : forall cur m before t after,
  NoDup (map id ts) ->
  ts = before ++ t :: after ->
  occurs (term t) (fst (fold_left preprocess_step before (cur, m))) ->
  dict_get str_eqb (snd (fold_left preprocess_step ts (cur, m)))
           (placeholder t)
  = Some t.
Proof.
  intros cur m before t after Hnd -> Hocc.
  rewrite fold_left_app. simpl fold_left.
  destruct (fold_left preprocess_step before (cur, m)) as [cur1 m1].
  simpl in Hocc.
  destruct (preprocess_step (cur1, m1) t) as [cur2 m2] eqn:Estep.
  rewrite loop_keeps.
  - destruct (preprocess_step_spec cur1 m1 t) as (_ & Hyes & _).
    rewrite Estep in Hyes. simpl in Hyes. rewrite (Hyes Hocc).
    apply dict_get_set_same. apply str_eqb_eq.
  - intros u Hu E. rewrite map_app in Hnd. simpl in Hnd.
    apply NoDup_remove_2 in Hnd. apply Hnd.
    apply in_or_app. right. rewrite <- E. apply in_map. exact Hu.
Qed.

End LoopFacts.

(** ** [str.replace] *)

Lemma is_prefix_app (p rest : pystr) : is_prefix p (p ++ rest) = true.
Proof.
  induction p as [|a p IH]; simpl; [reflexivity|].
  rewrite ascii_eqb_refl. exact IH.
Qed.

(** A placeholder is a prefix of a text that starts with a placeholder
    only if the two placeholders are the same. *)
Lemma is_prefix_delimited (a b rest : pystr) :
  ~ In ">"%char a -> ~ In ">"%char b ->
  is_prefix (a ++ [">"%char]) (b ++ ">"%char :: rest) = true -> a = b.
Proof.
  revert b. induction a as [|x a IH]; intros [|y b] Ha Hb H; simpl in *.
  - reflexivity.
  - apply andb_true_iff in H. destruct H as [H _].
    apply ascii_eqb_eq in H. subst y. tauto.
  - apply andb_true_iff in H. destruct H as [H _].
    apply ascii_eqb_eq in H. subst x. tauto.
  - apply andb_true_iff in H. destruct H as [H1 H2].
    apply ascii_eqb_eq in H1. subst y. f_equal.
    apply IH; [tauto | tauto | exact H2].
Qed.

Section ReplaceFacts.
Variable old' new : pystr.
Let old : pystr := "<"%char :: old'.

Lemma replace_scan_skip m rest :
  replace_scan old new (length m) (m ++ rest) = replace_scan old new 0 rest.
Proof.
  induction m as [|c m IH]; simpl; [|exact IH].
  destruct rest; reflexivity.
Qed.

Lemma replace_nil : replace old new [] = [].
Proof. reflexivity. Qed.

Lemma replace_hit rest :
  replace old new (old ++ rest) = new ++ replace old new rest.
Proof.
  unfold replace, old. simpl app. simpl replace_scan.
  rewrite is_prefix_app. fold old.
  rewrite replace_scan_skip. reflexivity.
Qed.

Lemma replace_miss c rest :
  is_prefix old (c :: rest) = false ->
  replace old new (c :: rest) = c :: replace old new rest.
Proof.
  unfold replace, old. intros H. simpl in H. simpl replace_scan.
  rewrite H. reflexivity.
Qed.

Lemma replace_other c rest :
  c <> "<"%char -> replace old new (c :: rest) = c :: replace old new rest.
Proof.
  intros H. apply replace_miss. unfold old. simpl.
  destruct (ascii_eqb "<" c) eqn:E; [|reflexivity].
  apply ascii_eqb_eq in E. congruence.
Qed.

Lemma replace_clean s rest :
  ~ In "<"%char s ->
  replace old new (s ++ rest) = s ++ replace old new rest.
Proof.
  induction s as [|c s IH]; intros H; simpl; [reflexivity|].
  rewrite replace_other by (intros E; apply H; left; auto).
  rewrite IH by (intros E; apply H; right; auto). reflexivity.
Qed.
End ReplaceFacts.

Lemma str_of_int_clean (z : Z) :
  ~ In "<"%char (str_of_int z) /\ ~ In ">"%char (str_of_int z).
Proof.
  destruct (str_of_int_shape z) as (ds & Hds & [E|E]); rewrite E;
    rewrite Forall_forall in Hds; split; intros H;
    try (destruct H as [H|H]; [discriminate H|]);
    apply Hds in H; vm_compute in H; discriminate H.
Qed.

Lemma lt_free_spec (s : pystr) : lt_free s = true <-> ~ In "<"%char s.
Proof.
  unfold lt_free. rewrite negb_true_iff, <- not_true_iff_false.
  rewrite (mem_In ascii_eqb ascii_eqb_eq). tauto.
Qed.

(** ** Restoring an aligned text *)

Lemma render_nil segs : render [] segs = placeholder_text segs.
Proof. reflexivity. Qed.

Lemma render_all done segs :
  (forall t occ, In (Rep t occ) segs -> In (placeholder t) done) ->
  render done segs = final_text segs.
Proof.
  unfold render, final_text. induction segs as [|s segs IH]; intros H;
    simpl; [reflexivity|].
  rewrite IH by (intros t occ Hin; apply (H t occ); right; exact Hin).
  f_equal. destruct s as [c|t occ]; simpl; [reflexivity|].
  assert (Hm : mem str_eqb (placeholder t) done = true).
  { apply (mem_In str_eqb str_eqb_eq). apply (H t occ). left. reflexivity. }
  rewrite Hm. reflexivity.
Qed.


(** [str.replace] of a placeholder. *)
Section ReplacePlaceholder.
Variable v : Term.
Variable new : pystr.

Lemma replace_ph_other c rest :
  c <> "<"%char ->
  replace (placeholder v) new (c :: rest)
  = c :: replace (placeholder v) new rest.
Proof. rewrite placeholder_cons. apply replace_other. Qed.

Lemma replace_ph_clean s rest :
  ~ In "<"%char s ->
  replace (placeholder v) new (s ++ rest)
  = s ++ replace (placeholder v) new rest.
Proof. rewrite placeholder_cons. apply replace_clean. Qed.

Lemma replace_ph_hit rest :
  replace (placeholder v) new (placeholder v ++ rest)
  = new ++ replace (placeholder v) new rest.
Proof. rewrite placeholder_cons. apply replace_hit. Qed.

Lemma replace_ph_skip (t : Term) rest :
  placeholder t <> placeholder v ->
  replace (placeholder v) new (placeholder t ++ rest)
  = placeholder t ++ replace (placeholder v) new rest.
Proof.
  intros Hne. rewrite (placeholder_cons t). simpl app.
  rewrite <- !app_assoc. simpl app.
  assert (Hmiss : is_prefix (placeholder v)
                    ("<"%char :: str_of_int (id t) ++ ">"%char :: rest)
                  = false).
  { rewrite (placeholder_cons v). simpl is_prefix.
    destruct (is_prefix (str_of_int (id v) ++ [">"%char])
                (str_of_int (id t) ++ ">"%char :: rest)) eqn:Ep;
      [|reflexivity].
    exfalso. apply Hne. rewrite !placeholder_cons.
    f_equal. f_equal. symmetry.
    apply is_prefix_delimited in Ep;
      [exact Ep | apply str_of_int_clean | apply str_of_int_clean]. }
  rewrite (placeholder_cons v) in Hmiss |- *.
  rewrite replace_miss by exact Hmiss.
  rewrite replace_clean by apply str_of_int_clean.
  rewrite replace_other by discriminate.
  reflexivity.
Qed.
End ReplacePlaceholder.

Lemma seg_render_rep_cons k done t occ :
  seg_render (k :: done) (Rep t occ)
  = if str_eqb (placeholder t) k || mem str_eqb (placeholder t) done
    then translation t else placeholder t.
Proof. reflexivity. Qed.

(** One replacement of [postprocess_text], on an aligned text. *)
Lemma replace_render (v : Term) (done : list pystr) (segs : list seg) :
  (forall c, In (Raw c) segs -> c <> "<"%char) ->
  (forall t occ, In (Rep t occ) segs ->
                 mem str_eqb (placeholder t) done = true ->
                 lt_free (translation t) = true) ->
  (forall t occ, In (Rep t occ) segs -> placeholder t = placeholder v ->
                 mem str_eqb (placeholder t) done = false ->
                 translation t = translation v) ->
  replace (placeholder v) (translation v) (render done segs)
  = render (placeholder v :: done) segs.
Proof.
  unfold render.
  induction segs as [|s segs IH]; intros Hraw Hdone Hsame.
  - rewrite placeholder_cons. reflexivity.
  - assert (IH' : replace (placeholder v) (translation v)
                          (flat_map (seg_render done) segs)
                  = flat_map (seg_render (placeholder v :: done)) segs).
    { apply IH.
      - intros c Hc. apply Hraw. right. exact Hc.
      - intros t occ Ht. apply (Hdone t occ). right. exact Ht.
      - intros t occ Ht. apply (Hsame t occ). right. exact Ht. }
    clear IH.
    change (flat_map (seg_render done) (s :: segs))
      with (seg_render done s ++ flat_map (seg_render done) segs).
    change (flat_map (seg_render (placeholder v :: done)) (s :: segs))
      with (seg_render (placeholder v :: done) s
            ++ flat_map (seg_render (placeholder v :: done)) segs).
    destruct s as [c|t occ].
    + change (seg_render done (Raw c)) with [c].
      change (seg_render (placeholder v :: done) (Raw c)) with [c].
      change ([c] ++ flat_map (seg_render done) segs)
        with (c :: flat_map (seg_render done) segs).
      rewrite replace_ph_other by (apply Hraw; left; reflexivity).
      rewrite IH'. reflexivity.
    + rewrite seg_render_rep_cons.
      change (seg_render done (Rep t occ))
        with (if mem str_eqb (placeholder t) done
              then translation t else placeholder t).
      destruct (mem str_eqb (placeholder t) done) eqn:Et.
      * rewrite orb_true_r.
        rewrite replace_ph_clean, IH'; [reflexivity|].
        apply lt_free_spec. apply (Hdone t occ); [left; reflexivity|].
        exact Et.
      * rewrite orb_false_r.
        destruct (str_eqb (placeholder t) (placeholder v)) eqn:Ek.
        -- apply str_eqb_eq in Ek. rewrite Ek at 1.
           rewrite replace_ph_hit, IH'.
           rewrite (Hsame t occ); auto. left. reflexivity.
        -- apply str_eqb_neq in Ek.
           rewrite replace_ph_skip by exact Ek.
           rewrite IH'. reflexivity.
Qed.



(** ** The scan over an aligned text *)

Lemma term_ok_spec (pat : pystr) :
  term_ok pat = true ->
  ~ In "<"%char pat /\ ~ In ">"%char pat /\ forallb is_digit pat = false.
Proof.
  unfold term_ok. rewrite !andb_true_iff, !negb_true_iff.
  intros [[H1 H2] H3]. split; [apply lt_free_spec; exact H1|].
  split; [|exact H3].
  rewrite <- (mem_In ascii_eqb ascii_eqb_eq). congruence.
Qed.

Lemma lower_char_eq_lt (a : ascii) :
  lower_char a = lower_char "<"%char -> a = "<"%char.
Proof. apply lower_char_eq_fixed; reflexivity. Qed.

Lemma lower_char_eq_gt (a : ascii) :
  lower_char a = lower_char ">"%char -> a = ">"%char.
Proof. apply lower_char_eq_fixed; reflexivity. Qed.

Lemma lower_char_eq_digit (a d : ascii) :
  is_digit d = true -> lower_char a = lower_char d -> a = d.
Proof.
  intros Hd. destruct (is_digit_not_letter _ Hd).
  apply lower_char_eq_fixed; assumption.
Qed.

(** A term that is not a string of digits and holds no [>] does not match
    inside the digits of a placeholder. *)
Lemma ci_prefix_digits (ds pat rest : pystr) :
  Forall (fun c => is_digit c = true) ds ->
  ci_prefix pat (ds ++ ">"%char :: rest) = true ->
  forallb is_digit pat = true \/ In ">"%char pat.
Proof.
  intros Hds. revert pat. induction Hds as [|d ds Hd Hds IH]; intros pat H.
  - destruct pat as [|p pat]; [left; reflexivity|].
    simpl in H. apply andb_true_iff in H. destruct H as [H _].
    apply ascii_eqb_eq in H. apply lower_char_eq_gt in H.
    right. left. auto.
  - destruct pat as [|p pat]; [left; reflexivity|].
    simpl in H. apply andb_true_iff in H. destruct H as [H1 H2].
    apply ascii_eqb_eq in H1. apply lower_char_eq_digit in H1; [|exact Hd].
    subst p. destruct (IH _ H2) as [H|H].
    + left. simpl. rewrite Hd, H. reflexivity.
    + right. right. exact H.
Qed.

Lemma ci_prefix_lt (pat rest : pystr) :
  pat <> [] -> ~ In "<"%char pat ->
  ci_prefix pat ("<"%char :: rest) = false.
Proof.
  intros Hne Hlt. destruct pat as [|p pat]; [congruence|].
  simpl. destruct (ascii_eqb (lower_char p) (lower_char "<")) eqn:E;
    [|reflexivity].
  apply ascii_eqb_eq in E. apply lower_char_eq_lt in E.
  exfalso. apply Hlt. left. auto.
Qed.

Lemma match_here_no_prefix pat prev text :
  ci_prefix pat text = false -> match_here pat prev text = false.
Proof.
  intros H. unfold match_here. rewrite H, andb_false_r. reflexivity.
Qed.

Section ScanPlaceholder.
Variable pat ph : pystr.
Hypothesis pat_ok : term_ok pat = true.

Lemma pat_nonempty : pat <> [].
Proof.
  destruct (term_ok_spec _ pat_ok) as (_ & _ & H).
  intros E. rewrite E in H. discriminate H.
Qed.

Lemma scan_out_nil prev : scan_out pat ph prev 0 [] = [].
Proof.
  simpl. rewrite match_here_no_prefix; [reflexivity|].
  pose proof pat_nonempty. destruct pat; [congruence | reflexivity].
Qed.



(** The matched text holds no [<]. *)
Lemma ci_prefix_split text :
  ci_prefix pat text = true ->
  exists m rest,
    text = m ++ rest /\ length m = length pat /\
    ~ In "<"%char m /\ ci_equal pat m = true.
Proof.
  destruct (term_ok_spec _ pat_ok) as (Hlt & _ & _).
  intros H. exists (firstn (length pat) text), (skipn (length pat) text).
  split; [symmetry; apply firstn_skipn|].
  pose proof (ci_prefix_length _ _ H) as Hlen.
  split; [apply firstn_length_le; exact Hlen|].
  split.
  - clear Hlen. revert text H. clear pat_ok.
    induction pat as [|p pat' IH]; intros text H; simpl; [tauto|].
    destruct text as [|c text]; [discriminate H|].
    simpl in H. apply andb_true_iff in H. destruct H as [H1 H2].
    apply ascii_eqb_eq in H1.
    intros [E|E].
    + subst c. apply lower_char_eq_lt in H1. apply Hlt. left. auto.
    + apply (IH (fun X => Hlt (or_intror X)) text H2). exact E.
  - rewrite ci_prefix_ci_equal in H. exact H.
Qed.

End ScanPlaceholder.



Section ScanSegments.
Variable u : Term.
Hypothesis u_ok : term_ok (term u) = true.


End ScanSegments.


(** ** The loop of [preprocess_text] keeps the text aligned *)

Section Alignment.
Variable terms : list Term.
Hypothesis ids_unique : NoDup (map id terms).



End Alignment.


(** ** The scan leaves no match behind *)

Lemma prev_after_app (m rest : pystr) (p : option ascii) :
  prev_after (length m) p (m ++ rest) = last_char p m.
Proof.
  destruct m as [|c m] using rev_ind; [reflexivity|].
  rewrite last_char_app. simpl last_char.
  rewrite length_app. simpl length. rewrite Nat.add_1_r.
  unfold prev_after. rewrite <- app_assoc.
  rewrite nth_error_app2 by lia. rewrite Nat.sub_diag. reflexivity.
Qed.

Lemma last_char_nonempty (m : pystr) (p q : option ascii) :
  m <> [] -> last_char p m = last_char q m.
Proof.
  destruct m as [|c m] using rev_ind; [congruence|].
  intros _. rewrite !last_char_app. reflexivity.
Qed.

(** A match on [m ++ rest], [m] being the text it covers. *)
Lemma match_here_split (t : pystr) (p : option ascii) (m rest : pystr) :
  m <> [] -> length m = length t ->
  match_here t p (m ++ rest)
  = at_boundary p (hd_error m) && ci_equal t m
    && at_boundary (last_char p m) (hd_error rest).
Proof.
  intros Hm Hlen. unfold match_here.
  rewrite ci_prefix_ci_equal, <- Hlen, prev_after_app.
  rewrite firstn_app, Nat.sub_diag, firstn_all. simpl firstn.
  rewrite app_nil_r, skipn_app, Nat.sub_diag, skipn_all. simpl.
  destruct m; [congruence | reflexivity].
Qed.

Lemma match_here_nil_pat_nonempty (t : pystr) (p : option ascii) :
  t <> [] -> match_here t p [] = false.
Proof.
  intros H. apply match_here_no_prefix. destruct t; [congruence|reflexivity].
Qed.

(** A suffix of the digits and the closing bracket of a placeholder. *)
Lemma suffix_digits (ds a l : pystr) (x : ascii) :
  Forall (fun c => is_digit c = true) ds ->
  a ++ x :: l = ds ++ [">"%char] ->
  exists ds2 out,
    Forall (fun c => is_digit c = true) ds2 /\
    x :: l = ds2 ++ ">"%char :: out /\ out = [].
Proof.
  intros Hds. revert a. induction Hds as [|d ds Hd Hds IH]; intros a E.
  - destruct a as [|y a]; simpl in E.
    + exists [], []. injection E as -> ->. auto.
    + injection E as _ E. destruct a; discriminate E.
  - destruct a as [|y a]; simpl in E.
    + exists (d :: ds), []. rewrite E. auto.
    + injection E as _ E. apply (IH a E).
Qed.

Section ScanComplete.
Variable u : pystr.
Variable v : Term.
Variable t : pystr.
Hypothesis u_ok : term_ok u = true.
Hypothesis t_ok : term_ok t = true.

Let ph := placeholder v.

Lemma scan_out_hit_head (c : ascii) rest prev :
  match_here u prev (c :: rest) = true ->
  exists out, scan_out u ph prev 0 (c :: rest) = "<"%char :: out.
Proof.
  intros H. simpl scan_out. rewrite H. unfold ph.
  rewrite placeholder_cons. destruct (length u); simpl; eauto.
Qed.

(** Where the output begins with a match of [t], the scan has copied the
    matched text. *)
Lemma scan_prefix : forall (s : pystr) text pi,
  ~ In "<"%char s ->
  ci_prefix s (scan_out u ph pi 0 text) = true ->
  exists m rest,
    text = m ++ rest /\ length m = length s /\
    scan_out u ph pi 0 text = m ++ scan_out u ph (last_char pi m) 0 rest.
Proof.
  induction s as [|x s IH]; intros text pi Hlt H.
  - exists [], text. auto.
  - destruct text as [|c rest0].
    + rewrite scan_out_nil in H by exact u_ok. discriminate H.
    + destruct (match_here u pi (c :: rest0)) eqn:Hm.
      * destruct (scan_out_hit_head _ _ _ Hm) as [out E].
        rewrite E in H. simpl in H. apply andb_true_iff in H.
        destruct H as [H _]. apply ascii_eqb_eq in H.
        apply lower_char_eq_lt in H. exfalso. apply Hlt. left. auto.
      * rewrite scan_out_miss in H |- * by exact Hm.
        simpl in H. apply andb_true_iff in H. destruct H as [_ H].
        destruct (IH rest0 (Some c)) as (m & rest & -> & Hlen & E).
        -- intros X. apply Hlt. right. exact X.
        -- exact H.
        -- exists (c :: m), rest. split; [reflexivity|].
           split; [simpl; rewrite Hlen; reflexivity|].
           simpl app. rewrite E. reflexivity.
Qed.

(** A boundary before what the scan writes is a boundary before what it
    read. *)
Lemma scan_head_boundary text p :
  at_boundary p (hd_error (scan_out u ph p 0 text)) = true ->
  at_boundary p (hd_error text) = true.
Proof.
  destruct text as [|c rest].
  - rewrite scan_out_nil by exact u_ok. auto.
  - destruct (match_here u p (c :: rest)) eqn:Hm.
    + intros _. unfold match_here in Hm.
      apply andb_true_iff in Hm. destruct Hm as [Hm _].
      apply andb_true_iff in Hm. tauto.
    + rewrite scan_out_miss by exact Hm. auto.
Qed.

Lemma t_nonempty : t <> [].
Proof. apply pat_nonempty. exact t_ok. Qed.

(** A match of [t] at the head of the output is a match at the head of
    the input.  [po] is the character written last: the one read last, or
    the end of a placeholder, after a match of [u]. *)
Lemma scan_reflects_here text pi po :
  po = pi \/
  (po = Some ">"%char /\ at_boundary pi (hd_error text) = true) ->
  match_here t po (scan_out u ph pi 0 text) = true ->
  match_here t pi text = true.
Proof.
  intros HR H.
  destruct (term_ok_spec _ t_ok) as (Hlt & _ & _).
  assert (Hci : ci_prefix t (scan_out u ph pi 0 text) = true).
  { unfold match_here in H. apply andb_true_iff in H.
    destruct H as [H _]. apply andb_true_iff in H. tauto. }
  destruct (@scan_prefix t text pi Hlt Hci) as (m & rest & -> & Hlen & E).
  assert (Hm : m <> []).
  { intros X. subst m. simpl in Hlen. symmetry in Hlen.
    apply length_zero_iff_nil in Hlen. exact (t_nonempty Hlen). }
  rewrite E in H. rewrite match_here_split in H |- * by assumption.
  apply andb_true_iff in H. destruct H as [H H3].
  apply andb_true_iff in H. destruct H as [H1 H2].
  rewrite H2, andb_true_r. apply andb_true_iff. split.
  - destruct HR as [->|[_ HR]]; [exact H1|].
    destruct m; [congruence | exact HR].
  - rewrite (last_char_nonempty po pi Hm) in H3.
    apply scan_head_boundary. exact H3.
Qed.

Lemma last_char_placeholder (p : option ascii) :
  last_char p ph = Some ">"%char.
Proof.
  unfold ph. rewrite placeholder_cons.
  change ("<"%char :: str_of_int (id v) ++ [">"%char])
    with (("<"%char :: str_of_int (id v)) ++ [">"%char]).
  rewrite last_char_app. reflexivity.
Qed.

(** No match of [t] begins inside a placeholder. *)
Lemma no_match_in_placeholder (a l : pystr) (x : ascii) out po :
  a <> [] -> a ++ x :: l = ph ->
  match_here t (last_char po a) ((x :: l) ++ out) = false.
Proof.
  intros Ha E. destruct (term_ok_spec _ t_ok) as (_ & Hgt & Hdig).
  unfold ph in E. rewrite placeholder_cons in E.
  destruct a as [|a0 a]; [congruence|]. simpl in E. injection E as -> E.
  assert (Hdigits : forall ds a' ,
             Forall (fun c => is_digit c = true) ds ->
             a' ++ x :: l = ds ++ [">"%char] ->
             forall q, match_here t q ((x :: l) ++ out) = false).
  { intros ds a' Hds E' q.
    destruct (@suffix_digits ds a' l x Hds E') as (ds2 & o & Hds2 & E2 & ->).
    rewrite E2, <- app_assoc. simpl app.
    apply match_here_no_prefix.
    destruct (ci_prefix t (ds2 ++ ">"%char :: out)) eqn:Hci; [|reflexivity].
    apply (@ci_prefix_digits ds2 t out Hds2) in Hci.
    destruct Hci as [X|X]; [congruence | contradiction]. }
  destruct (str_of_int_shape (id v)) as (ds & Hds & [Es|Es]);
    rewrite Es in E.
  - apply (Hdigits ds a Hds E).
  - destruct a as [|a1 a]; simpl in E.
    + injection E as -> ->. unfold match_here. reflexivity.
    + injection E as _ E. apply (Hdigits ds a Hds E).
Qed.

(** Every match of [t] in the output of the scan is a match in its input,
    at a position the scan has looked at. *)
Lemma scan_reflects (n : nat) : forall text pi po,
  length text <= n ->
  po = pi \/
  (po = Some ">"%char /\ at_boundary pi (hd_error text) = true) ->
  forall a b,
    scan_out u ph pi 0 text = a ++ b ->
    match_here t (last_char po a) b = true ->
    exists a' b',
      text = a' ++ b' /\
      match_here t (last_char pi a') b' = true /\
      b = scan_out u ph (last_char pi a') 0 b'.
Proof.
  induction n as [|n IH]; intros text pi po Hn HR a b E H.
  - destruct text; [|simpl in Hn; lia].
    rewrite scan_out_nil in E by exact u_ok.
    symmetry in E. apply app_eq_nil in E. destruct E as [-> ->].
    rewrite match_here_nil_pat_nonempty in H by exact t_nonempty.
    discriminate H.
  - destruct a as [|o a].
    + simpl in E, H. subst b. exists [], text.
      split; [reflexivity|]. split; [|reflexivity].
      simpl. apply (scan_reflects_here _ HR H).
    + destruct text as [|c rest0].
      { rewrite scan_out_nil in E by exact u_ok. discriminate E. }
      simpl in Hn.
      destruct (match_here u pi (c :: rest0)) eqn:Hm.
      * (* a match of [u]: the output begins with the placeholder *)
        assert (Hci : ci_prefix u (c :: rest0) = true).
        { unfold match_here in Hm. apply andb_true_iff in Hm.
          destruct Hm as [Hm _]. apply andb_true_iff in Hm. tauto. }
        destruct (ci_prefix_split _ u_ok _ Hci)
          as (m & rest & Et & Hml & _ & _).
        assert (Hm1 : m <> []).
        { intros X. subst m. simpl in Hml. symmetry in Hml.
          apply length_zero_iff_nil in Hml.
          exact (pat_nonempty u_ok Hml). }
        assert (Hlen : length rest <= n).
        { apply (f_equal (@length ascii)) in Et.
          rewrite length_app in Et. simpl in Et.
          destruct m; [congruence|]. simpl in Et. lia. }
        rewrite Et in Hm, E |- *.
        rewrite scan_out_hit in E by assumption.
        assert (HR' : Some ">"%char = last_char pi m \/
                      (Some ">"%char = Some ">"%char /\
                       at_boundary (last_char pi m) (hd_error rest) = true)).
        { right. split; [reflexivity|].
          rewrite match_here_split in Hm by assumption.
          apply andb_true_iff in Hm. tauto. }
        assert (Hgo : forall a2,
                   scan_out u ph (last_char pi m) 0 rest = a2 ++ b ->
                   match_here t (last_char (Some ">"%char) a2) b = true ->
                   exists a' b',
                     m ++ rest = a' ++ b' /\
                     match_here t (last_char pi a') b' = true /\
                     b = scan_out u ph (last_char pi a') 0 b').
        { intros a2 E2 H2.
          destruct (IH rest (last_char pi m) (Some ">"%char) Hlen HR'
                       a2 b E2 H2) as (a' & b' & -> & Hb' & Eb').
          exists (m ++ a'), b'. rewrite last_char_app, app_assoc. auto. }
        apply app_eq_app in E. destruct E as (l & [[Ep Eb]|[Ea Eo]]).
        -- destruct l as [|x l].
           ++ rewrite app_nil_r in Ep. simpl in Eb. apply (Hgo []).
              ** simpl. symmetry. exact Eb.
              ** simpl. rewrite <- Ep, last_char_placeholder in H.
                 exact H.
           ++ (* it would begin inside the placeholder *)
              exfalso. rewrite Eb in H.
              rewrite (@no_match_in_placeholder (o :: a) l x _ po) in H;
                [discriminate H | discriminate | symmetry; exact Ep].
        -- (* the match of [t] begins after the placeholder *)
           apply (Hgo l).
           ++ exact Eo.
           ++ rewrite Ea, last_char_app, last_char_placeholder in H.
              exact H.
      * (* no match of [u]: the character is copied *)
        rewrite scan_out_miss in E by exact Hm.
        simpl in E. injection E as <- E.
        destruct (IH rest0 (Some c) (Some c)) with (a := a) (b := b)
          as (a' & b' & -> & Hb' & Eb').
        -- lia.
        -- left. reflexivity.
        -- exact E.
        -- exact H.
        -- exists (c :: a'), b'. auto.
Qed.

(** The scan creates no match of [t]. *)
Lemma scan_no_new text :
  occurs t (scan_out u ph None 0 text) -> occurs t text.
Proof.
  intros (a & b & E & H).
  destruct (@scan_reflects (length text) text None None (le_n _)
              (or_introl eq_refl) a b E H) as (a' & b' & E' & H' & _).
  exists a', b'. auto.
Qed.

End ScanComplete.

(** After the scan the pattern matches nowhere. *)
Lemma scan_clears (u : pystr) (v : Term) text :
  term_ok u = true ->
  ~ occurs u (scan_out u (placeholder v) None 0 text).
Proof.
  intros u_ok (a & b & E & H).
  destruct (@scan_reflects u v u u_ok u_ok (length text) text None None
              (le_n _) (or_introl eq_refl) a b E H)
    as (a' & b' & E' & H' & Eb).
  destruct (term_ok_spec _ u_ok) as (Hlt & _ & _).
  destruct b' as [|c b'].
  - rewrite match_here_nil_pat_nonempty in H'
      by (apply pat_nonempty; exact u_ok).
    discriminate H'.
  - destruct (scan_out_hit_head u v _ _ _ H') as [out Eo].
    rewrite Eo in Eb. subst b.
    rewrite match_here_no_prefix in H; [discriminate H|].
    apply ci_prefix_lt; [apply pat_nonempty; exact u_ok | exact Hlt].
Qed.

(** Once the loop has passed a term, its pattern matches nowhere in the
    text, and it stays so. *)
Lemma loop_clears (ts : list Term) : forall cur m (s : pystr),
  (forall u, In u ts -> term_ok (term u) = true) ->
  term_ok s = true ->
  ~ occurs s cur \/ (exists u, In u ts /\ term u = s) ->
  ~ occurs s (fst (fold_left preprocess_step ts (cur, m))).
Proof.
  induction ts as [|u ts IH]; intros cur m s Hts Hs H.
  - simpl. destruct H as [H|(u & [] & _)]. exact H.
  - simpl fold_left.
    destruct (preprocess_step_spec cur m u) as (Hfst & _ & _).
    rewrite (surjective_pairing (preprocess_step (cur, m) u)).
    apply IH; [intros u' Hu'; apply Hts; right; exact Hu' | exact Hs |].
    rewrite Hfst.
    assert (Hu : term_ok (term u) = true) by (apply Hts; left; reflexivity).
    destruct H as [H|(u0 & [<-|Hin] & E)].
    + left. intros Ho. apply H.
      apply (@scan_no_new (term u) u s Hu Hs). exact Ho.
    + left. rewrite <- E. apply scan_clears. exact Hu.
    + right. exists u0. auto.
Qed.




Lemma original_text_app (s1 s2 : list seg) :
  original_text (s1 ++ s2) = original_text s1 ++ original_text s2.
Proof. apply flat_map_app. Qed.


(** ** The replacement map *)

(** C8, as the specification states it, fails: the term "acid" has a
    whole-word occurrence in "acid rain falls", but the longer term
    "acid rain" is replaced first and the map gets no entry for "acid". *)
Lemma whole_word_occurrence_without_entry :
  ~ (forall (cv : pystr -> pystr) st text d l p m t,
        preprocess_text cv st text d l = Ok (p, m) ->
        In t (dict_values (get_terms_for_domain_lang cv st d l)) ->
        (dict_mem str_eqb m (placeholder t) = true <->
         exists a b,
           text = a ++ b /\
           whole_word_at (term t) (last_char None a) b = true)).
Proof.
  intros H.
  specialize (H twi_ak
                (manager_of "agric" "twi"
                   [term_of 1 "acid rain" "X"; term_of 2 "acid" "Y"])
                (str "acid rain falls") (str "agric") (str "twi")
                (str "<1> falls")
                [(str "<1>", term_of 1 "acid rain" "X")]
                (term_of 2 "acid" "Y")).
  destruct H as [_ H].
  - vm_compute. reflexivity.
  - vm_compute. right. left. reflexivity.
  - assert (E : dict_mem str_eqb [(str "<1>", term_of 1 "acid rain" "X")]
                         (placeholder (term_of 2 "acid" "Y")) = true).
    { apply H. exists [], (str "acid rain falls").
      split; reflexivity. }
    vm_compute in E. discriminate E.
Qed.

(** C8, amended.  The replacement map [preprocess_text] returns has
    pairwise distinct keys; for ASCII terms and an ASCII text its keys are
    exactly the placeholders of the terms whose pattern matched in the
    text as the longer terms before them have rewritten it (for a term
    that begins and ends with a word character: that has a whole-word
    occurrence, up to case, in that text), every entry maps the
    placeholder of such a term to the term, and, the ids of the bucket
    being distinct, each matched term is the entry of its own placeholder.
    When the terms are not empty, hold no angle bracket and are not made
    of digits only, a term that matched in the rewritten text matches in
    the input text too.  A term that matches several times writes the same
    association every time, which leaves one entry; and that entry
    restores every occurrence of the placeholder in [postprocess_text]. *)
Theorem replacement_map_entries :
  (forall (cv : pystr -> pystr) st text d l p m,
      preprocess_text cv st text d l = Ok (p, m) ->
      (p, m) = preprocess_terms (get_terms_for_domain_lang cv st d l) text) /\
  (forall pat text,
      ascii_str pat = true -> ascii_str text = true ->
      word_edged pat = true ->
      (occurs pat text <->
       exists a b, text = a ++ b /\
                   whole_word_at pat (last_char None a) b = true)) /\
  (forall terms_dict text,
      ascii_str text = true ->
      (forall t, In t (dict_values terms_dict) ->
                 ascii_str (term t) = true) ->
      NoDup (dict_keys (snd (preprocess_terms terms_dict text))) /\
      (forall k,
          In k (dict_keys (snd (preprocess_terms terms_dict text))) <->
          exists t, matched_term terms_dict text t /\ k = placeholder t) /\
      (forall k t,
          dict_get str_eqb (snd (preprocess_terms terms_dict text)) k
          = Some t ->
          k = placeholder t /\ matched_term terms_dict text t) /\
      (NoDup (map id (dict_values terms_dict)) ->
       forall t, matched_term terms_dict text t ->
                 dict_get str_eqb (snd (preprocess_terms terms_dict text))
                          (placeholder t)
                 = Some t) /\
      ((forall t, In t (dict_values terms_dict) ->
                  term_ok (term t) = true) ->
       forall t, matched_term terms_dict text t -> occurs (term t) text)) /\
  (forall t cur m,
      ascii_str (term t) = true -> ascii_str cur = true ->
      snd (preprocess_step (cur, m) t)
      = Nat.iter (scan_count (term t) None 0 cur)
                 (fun s => dict_set str_eqb s (placeholder t) t) m /\
      (forall n, Nat.iter (S n)
                   (fun s => dict_set str_eqb s (placeholder t) t) m
                 = dict_set str_eqb m (placeholder t) t) /\
      (occurs (term t) cur ->
       snd (preprocess_step (cur, m) t)
       = dict_set str_eqb m (placeholder t) t)) /\
  (forall t segs,
      (forall s, In s segs ->
                 (exists c, s = Raw c /\ c <> "<"%char) \/
                 (exists occ, s = Rep t occ)) ->
      postprocess_text (placeholder_text segs) [(placeholder t, t)]
      = final_text segs) /\
  preprocess_terms (bucket_of [term_of 2 "acid" "Y"]) (str "acid and Acid")
  = (str "<2> and <2>", [(str "<2>", term_of 2 "acid" "Y")]) /\
  postprocess_text (str "<2> and <2>") [(str "<2>", term_of 2 "acid" "Y")]
  = str "Y and Y".
Proof.
  split; [|split; [|split; [|split; [|split; [|split]]]]].
  - intros cv st text d l p m H. unfold preprocess_text in H.
    destruct (get_terms_for_domain_lang cv st d l) as [|e b].
    + destruct (mem str_eqb d (get_domains st)); discriminate H.
    + injection H as H. symmetry. exact H.
  - intros pat text _ _ Hedge. unfold occurs.
    split; intros (a & b & E & H); exists a, b; split; auto.
    + rewrite <- match_here_whole_word; assumption.
    + rewrite match_here_whole_word; assumption.
  - intros terms_dict text _ _. unfold preprocess_terms, matched_term.
    split; [apply loop_nodup; constructor|].
    split; [|split; [|split]].
    + intros k. rewrite loop_keys. simpl. split.
      * intros [[]|(before & t & after & E & Ho & Hk)].
        exists t. split; [exists before, after; auto | exact Hk].
      * intros (t & (before & after & E & Ho) & Hk).
        right. exists before, t, after. auto.
    + intros k t H. apply loop_values in H.
      destruct H as [H|(before & after & E & Ho & Hk)]; [discriminate H|].
      split; [exact Hk | exists before, after; auto].
    + intros Hnd t (before & after & E & Ho).
      eapply loop_entry; eauto.
      apply (Permutation_NoDup
               (Permutation_map id (sort_by_len_desc_perm _)) Hnd).
    + intros Hok t (before & after & E & Ho).
      assert (Hin : forall u, In u (before ++ t :: after) ->
                              term_ok (term u) = true).
      { intros u Hu. apply Hok. rewrite <- E in Hu.
        apply (Permutation_in _ (Permutation_sym (sort_by_len_desc_perm _))).
        exact Hu. }
      destruct (occurs_dec (term t) text) as [Hy|Hn]; [exact Hy|].
      exfalso.
      apply (@loop_clears before text [] (term t)); auto.
      * intros u Hu. apply Hin. apply in_or_app. left. exact Hu.
      * apply Hin. apply in_or_app. right. left. reflexivity.
  - intros t cur m _ _. split; [|split].
    + unfold preprocess_step. simpl fst. simpl snd.
      rewrite re_sub_placeholder. reflexivity.
    + intros n. apply iter_dict_set.
    + apply preprocess_step_spec.
  - intros t segs H. unfold postprocess_text. simpl fold_left.
    rewrite <- render_nil, replace_render.
    + apply render_all. intros t' occ Hin.
      destruct (H _ Hin) as [(c & E & _)|(occ' & E)]; [discriminate E|].
      injection E as -> _. left. reflexivity.
    + intros c Hin.
      destruct (H _ Hin) as [(c' & E & Hc)|(occ' & E)]; [|discriminate E].
      injection E as ->. exact Hc.
    + intros t' occ _ Hm. discriminate Hm.
    + intros t' occ Hin _ _.
      destruct (H _ Hin) as [(c & E & _)|(occ' & E)]; [discriminate E|].
      injection E as -> _. reflexivity.
  - vm_compute. reflexivity.
  - vm_compute. reflexivity.
Qed.

Lemma replacement_map_entries_witness :
  occurs (str "acid") (str "acid and Acid") /\
  snd (preprocess_step (str "acid and Acid", []) (term_of 2 "acid" "Y"))
  = dict_set str_eqb [] (placeholder (term_of 2 "acid" "Y"))
             (term_of 2 "acid" "Y").
Proof.
  assert (H : occurs (str "acid") (str "acid and Acid")).
  { exists [], (str "acid and Acid"). split; reflexivity. }
  split; [exact H|].
  apply (proj2 (proj2 (proj1 (proj2 (proj2 (proj2 replacement_map_entries)))
                         (term_of 2 "acid" "Y") (str "acid and Acid") []
                         eq_refl eq_refl))).
  exact H.
Defined.



(** Each condition of the round trip is needed: the empty term matches at
    every word boundary, a term made of digits is found inside a
    placeholder, two terms with one id share a placeholder, and a
    translation that holds a placeholder is replaced again. *)
Lemma round_trip_conditions_are_needed :
  (let r := preprocess_terms (bucket_of [term_of 2 "" "X"]) (str "ab cd") in
   fst r = str "<2>ab<2> <2>cd<2>" /\
   postprocess_text (fst r) (snd r) = str "XabX XcdX") /\
  (let r := preprocess_terms
              (bucket_of [term_of 1 "abattoir" "X"; term_of 5 "1" "Z"])
              (str "abattoir") in
   fst r = str "<<5>>" /\ postprocess_text (fst r) (snd r) = str "<Z>") /\
  (let r := preprocess_terms
              (bucket_of [term_of 1 "abattoir" "X"; term_of 1 "acreage" "Z"])
              (str "abattoir acreage") in
   fst r = str "<1> <1>" /\ postprocess_text (fst r) (snd r) = str "Z Z") /\
  (let r := preprocess_terms
              (bucket_of [term_of 1 "abattoir" "<2>"; term_of 2 "acre" "Y"])
              (str "abattoir acre") in
   fst r = str "<1> <2>" /\ postprocess_text (fst r) (snd r) = str "Y Y").
Proof. vm_compute. repeat split; reflexivity. Qed.



(** * Further properties *)

(** ** The order of strings and of pairs *)

Lemma str_leb_refl (a : pystr) : str_leb a a = true.
Proof.
  induction a as [|x a IH]; simpl; [reflexivity|].
  rewrite Nat.ltb_irrefl. exact IH.
Qed.

Lemma str_leb_total (a b : pystr) : str_leb a b = false -> str_leb b a = true.
Proof.
  revert b. induction a as [|x a IH]; intros [|y b]; simpl;
    try discriminate; try reflexivity.
  destruct (nat_of_ascii x <? nat_of_ascii y) eqn:E1; [discriminate|].
  destruct (nat_of_ascii y <? nat_of_ascii x) eqn:E2; [reflexivity|].
  apply IH.
Qed.

Lemma str_leb_antisym (a b : pystr) :
  str_leb a b = true -> str_leb b a = true -> a = b.
Proof.
  revert b. induction a as [|x a IH]; intros [|y b]; simpl;
    try discriminate; try reflexivity.
  destruct (nat_of_ascii x <? nat_of_ascii y) eqn:E1;
    destruct (nat_of_ascii y <? nat_of_ascii x) eqn:E2;
    try discriminate.
  - apply Nat.ltb_lt in E1, E2. lia.
  - apply Nat.ltb_ge in E1, E2. intros H1 H2.
    assert (E : nat_of_ascii x = nat_of_ascii y) by lia.
    apply (f_equal ascii_of_nat) in E. rewrite !ascii_nat_embedding in E.
    subst y. f_equal. apply IH; assumption.
Qed.

Lemma str_leb_trans (a b c : pystr) :
  str_leb a b = true -> str_leb b c = true -> str_leb a c = true.
Proof.
  revert b c. induction a as [|x a IH]; intros [|y b] [|z c]; simpl;
    try discriminate; try reflexivity.
  destruct (Nat.ltb_spec (nat_of_ascii x) (nat_of_ascii y));
    destruct (Nat.ltb_spec (nat_of_ascii y) (nat_of_ascii x));
    destruct (Nat.ltb_spec (nat_of_ascii y) (nat_of_ascii z));
    destruct (Nat.ltb_spec (nat_of_ascii z) (nat_of_ascii y));
    destruct (Nat.ltb_spec (nat_of_ascii x) (nat_of_ascii z));
    destruct (Nat.ltb_spec (nat_of_ascii z) (nat_of_ascii x));
    intros G1 G2; try discriminate; try reflexivity; try lia.
  apply (IH b c); assumption.
Qed.

Lemma pair_leb_total (a b : pystr * pystr) :
  pair_leb a b = false -> pair_leb b a = true.
Proof.
  destruct a as [a1 a2], b as [b1 b2]. unfold pair_leb. simpl.
  destruct (str_eqb a1 b1) eqn:E.
  - apply str_eqb_eq in E. subst. rewrite str_eqb_refl.
    apply str_leb_total.
  - apply str_eqb_neq in E.
    destruct (str_eqb b1 a1) eqn:E'.
    + apply str_eqb_eq in E'. congruence.
    + apply str_leb_total.
Qed.

Lemma pair_leb_antisym (a b : pystr * pystr) :
  pair_leb a b = true -> pair_leb b a = true -> a = b.
Proof.
  destruct a as [a1 a2], b as [b1 b2]. unfold pair_leb. simpl.
  destruct (str_eqb a1 b1) eqn:E.
  - apply str_eqb_eq in E. subst. rewrite str_eqb_refl.
    intros H1 H2. f_equal. apply str_leb_antisym; assumption.
  - apply str_eqb_neq in E.
    destruct (str_eqb b1 a1) eqn:E'.
    + apply str_eqb_eq in E'. congruence.
    + intros H1 H2. exfalso. apply E. apply str_leb_antisym; assumption.
Qed.

Lemma pair_leb_trans (a b c : pystr * pystr) :
  pair_leb a b = true -> pair_leb b c = true -> pair_leb a c = true.
Proof.
  destruct a as [a1 a2], b as [b1 b2], c as [c1 c2]. unfold pair_leb. simpl.
  destruct (str_eqb a1 b1) eqn:Eab.
  - apply str_eqb_eq in Eab. subst b1.
    destruct (str_eqb a1 c1) eqn:Eac; [apply str_leb_trans | auto].
  - apply str_eqb_neq in Eab.
    destruct (str_eqb b1 c1) eqn:Ebc.
    + apply str_eqb_eq in Ebc. subst c1.
      destruct (str_eqb a1 b1) eqn:E; [|auto].
      apply str_eqb_eq in E. congruence.
    + apply str_eqb_neq in Ebc. intros H1 H2.
      destruct (str_eqb a1 c1) eqn:Eac.
      * apply str_eqb_eq in Eac. subst c1.
        exfalso. apply Eab. apply str_leb_antisym; assumption.
      * apply (str_leb_trans _ _ _ H1 H2).
Qed.

(** ** [sorted] *)

Section SortFacts.
Variable A : Type.
Variable leb : A -> A -> bool.
Hypothesis leb_total : forall a b, leb a b = false -> leb b a = true.
Hypothesis leb_trans :
  forall a b c, leb a b = true -> leb b c = true -> leb a c = true.
Hypothesis leb_antisym : forall a b, leb a b = true -> leb b a = true -> a = b.

Lemma insert_by_perm (x : A) l : Permutation (x :: l) (insert_by leb x l).
Proof.
  induction l as [|y l IH]; simpl; [reflexivity|].
  destruct (leb x y); [reflexivity|].
  rewrite perm_swap. constructor. exact IH.
Qed.

Lemma sorted_by_perm l : Permutation l (sorted_by leb l).
Proof.
  induction l as [|x l IH]; simpl; [reflexivity|].
  rewrite <- insert_by_perm. constructor. exact IH.
Qed.

Lemma insert_by_sorted (x : A) l :
  StronglySorted (le_of leb) l -> StronglySorted (le_of leb) (insert_by leb x l).
Proof.
  induction l as [|y l IH]; intros H; simpl.
  - constructor; constructor.
  - inversion H as [|? ? Hs Hall]; subst.
    destruct (leb x y) eqn:E.
    + constructor; [exact H|]. constructor; [exact E|].
      rewrite Forall_forall in Hall |- *. intros z Hz.
      eapply leb_trans; [exact E|]. apply Hall. exact Hz.
    + constructor; [auto|].
      apply Forall_forall. intros z Hz.
      apply (Permutation_in z (Permutation_sym (insert_by_perm x l))) in Hz.
      destruct Hz as [<-|Hz].
      * apply leb_total. exact E.
      * rewrite Forall_forall in Hall. apply Hall. exact Hz.
Qed.

Lemma sorted_by_sorted l : StronglySorted (le_of leb) (sorted_by leb l).
Proof.
  induction l as [|x l IH]; simpl; [constructor|].
  apply insert_by_sorted. exact IH.
Qed.

(** Two ascending lists with the same elements are the same list. *)
Lemma sorted_unique l1 : forall l2,
  StronglySorted (le_of leb) l1 -> StronglySorted (le_of leb) l2 ->
  Permutation l1 l2 -> l1 = l2.
Proof.
  induction l1 as [|x l1 IH]; intros l2 H1 H2 P.
  - apply Permutation_nil in P. auto.
  - destruct l2 as [|y l2];
      [apply Permutation_sym, Permutation_nil in P; discriminate P|].
    inversion H1 as [|? ? Hs1 Hall1]; subst.
    inversion H2 as [|? ? Hs2 Hall2]; subst.
    rewrite Forall_forall in Hall1, Hall2.
    assert (E : x = y).
    { assert (Hx : In x (y :: l2))
        by (apply (Permutation_in x P); left; reflexivity).
      assert (Hy : In y (x :: l1))
        by (apply (Permutation_in y (Permutation_sym P)); left; reflexivity).
      destruct Hx as [->|Hx]; [reflexivity|].
      destruct Hy as [->|Hy]; [reflexivity|].
      apply leb_antisym; [apply Hall1; exact Hy | apply Hall2; exact Hx]. }
    subst y. f_equal. apply IH; auto.
    apply Permutation_cons_inv in P. exact P.
Qed.

Lemma sorted_by_permutation l1 l2 :
  Permutation l1 l2 -> sorted_by leb l1 = sorted_by leb l2.
Proof.
  intros P. apply sorted_unique; try apply sorted_by_sorted.
  rewrite <- !sorted_by_perm. exact P.
Qed.
End SortFacts.

Lemma sorted_sorted_by (l : list pystr) : sorted l = sorted_by str_leb l.
Proof.
  unfold sorted, sorted_by. induction l as [|x l IH]; simpl; [reflexivity|].
  rewrite IH. generalize (fold_right (insert_by str_leb) [] l). intros s.
  induction s as [|y s IHs]; simpl; [reflexivity|].
  rewrite IHs. reflexivity.
Qed.

Lemma sorted_str_sorted (l : list pystr) : StronglySorted str_le (sorted l).
Proof.
  rewrite sorted_sorted_by.
  apply (sorted_by_sorted str_leb str_leb_total str_leb_trans).
Qed.

Lemma sorted_str_perm (l : list pystr) : Permutation l (sorted l).
Proof. rewrite sorted_sorted_by. apply sorted_by_perm. Qed.

Lemma sorted_str_permutation (l1 l2 : list pystr) :
  Permutation l1 l2 -> sorted l1 = sorted l2.
Proof.
  rewrite !sorted_sorted_by.
  apply (sorted_by_permutation str_leb str_leb_total str_leb_trans
                               str_leb_antisym).
Qed.

(** ** Sets *)

Section SetNoDup.
Variable A : Type.
Variable eqb : A -> A -> bool.
Hypothesis eqb_eq : forall a b, eqb a b = true <-> a = b.

Lemma set_add_nodup x (l : list A) : NoDup l -> NoDup (set_add eqb x l).
Proof.
  intros H. unfold set_add. destruct (mem eqb x l) eqn:E; [exact H|].
  apply NoDup_app; [exact H | constructor; [intros [] | constructor] |].
  intros a Ha [<-|[]].
  apply (mem_In eqb eqb_eq) in Ha. congruence.
Qed.

Lemma set_of_list_nodup (l : list A) : NoDup (set_of_list eqb l).
Proof.
  unfold set_of_list.
  assert (G : forall acc, NoDup acc ->
                NoDup (fold_left (fun s y => set_add eqb y s) l acc)).
  { induction l as [|y l IH]; intros acc H; simpl; [exact H|].
    apply IH. apply set_add_nodup. exact H. }
  apply G. constructor.
Qed.

(** Two sets with the same elements list them in some rearrangement. *)
Lemma set_of_list_same (l1 l2 : list A) :
  (forall x, In x l1 <-> In x l2) ->
  Permutation (set_of_list eqb l1) (set_of_list eqb l2).
Proof.
  intros H. apply NoDup_Permutation; try apply set_of_list_nodup.
  intros x. rewrite !(set_of_list_In eqb eqb_eq). apply H.
Qed.
End SetNoDup.

(** ** What a load leaves in the manager *)

Section Inventory.
Variable cv : pystr -> pystr.

Lemma load_files_nodup files : forall self st,
  load_files cv files self = Ok st ->
  NoDup (domains_languages self) ->
  NoDup (available_google_languages self) ->
  NoDup (dict_keys (terms_by_domain_lang self)) ->
  NoDup (domains_languages st) /\
  NoDup (available_google_languages st) /\
  NoDup (dict_keys (terms_by_domain_lang st)).
Proof.
  induction files as [|[name0 csv0] files IH]; intros self st H H1 H2 H3.
  - simpl in H. injection H as <-. auto.
  - simpl in H. destruct (filename_pattern name0) as [[d0 l0]|].
    + destruct (read_terms d0 l0 (cv l0) csv0) as [b0|e]; [|discriminate].
      apply IH in H; [exact H | | |]; simpl.
      * apply set_add_nodup; [apply pair_eqb_eq | exact H1].
      * apply set_add_nodup; [apply str_eqb_eq | exact H2].
      * apply dict_set_nodup; [apply pair_eqb_eq | exact H3].
    + apply IH in H; auto.
Qed.

Lemma load_files_sources files : forall self st p,
  load_files cv files self = Ok st ->
  (In p (dict_keys (terms_by_domain_lang st)) <->
   In p (dict_keys (terms_by_domain_lang self)) \/
   exists name csv, source files name csv (fst p) (snd p)).
Proof.
  induction files as [|[name0 csv0] files IH]; intros self st p H.
  - simpl in H. injection H as <-. split; [auto|].
    intros [H|(name & csv & [[] _])]. exact H.
  - simpl in H. destruct (filename_pattern name0) as [[d0 l0]|] eqn:Hpat.
    + destruct (read_terms d0 l0 (cv l0) csv0) as [b0|e]; [|discriminate].
      rewrite (IH _ _ p H). simpl.
      rewrite (dict_keys_set pair_eqb pair_eqb_eq). split.
      * intros [[->|Hp]|(name & csv & [Hin Hn])].
        -- right. exists name0, csv0. split; [left; reflexivity|].
           exact Hpat.
        -- left. exact Hp.
        -- right. exists name, csv. split; [right; exact Hin | exact Hn].
      * intros [Hp|(name & csv & [[E|Hin] Hn])].
        -- left. right. exact Hp.
        -- injection E as -> ->. left. left. rewrite Hpat in Hn.
           injection Hn as -> ->. destruct p; reflexivity.
        -- right. exists name, csv. split; assumption.
    + rewrite (IH _ _ p H). split.
      * intros [Hp|(name & csv & [Hin Hn])]; [auto|].
        right. exists name, csv. split; [right; exact Hin | exact Hn].
      * intros [Hp|(name & csv & [[E|Hin] Hn])]; [auto| |].
        -- injection E as -> ->. rewrite Hpat in Hn. discriminate Hn.
        -- right. exists name, csv. split; assumption.
Qed.

Lemma load_files_google files : forall self st g,
  load_files cv files self = Ok st ->
  (In g (available_google_languages st) <->
   In g (available_google_languages self) \/
   exists name csv d l, source files name csv d l /\ g = cv l).
Proof.
  induction files as [|[name0 csv0] files IH]; intros self st g H.
  - simpl in H. injection H as <-. split; [auto|].
    intros [H|(name & csv & d & l & [[] _] & _)]. exact H.
  - simpl in H. destruct (filename_pattern name0) as [[d0 l0]|] eqn:Hpat.
    + destruct (read_terms d0 l0 (cv l0) csv0) as [b0|e]; [|discriminate].
      rewrite (IH _ _ g H). simpl.
      rewrite (set_add_In str_eqb str_eqb_eq). split.
      * intros [[->|Hp]|(name & csv & d & l & [Hin Hn] & E)].
        -- right. exists name0, csv0, d0, l0.
           split; [split; [left; reflexivity | exact Hpat] | reflexivity].
        -- left. exact Hp.
        -- right. exists name, csv, d, l.
           split; [split; [right; exact Hin | exact Hn] | exact E].
      * intros [Hp|(name & csv & d & l & [[E|Hin] Hn] & Eg)].
        -- left. right. exact Hp.
        -- injection E as -> ->. left. left. rewrite Hpat in Hn.
           injection Hn as -> ->. exact Eg.
        -- right. exists name, csv, d, l. split; [split|]; assumption.
    + rewrite (IH _ _ g H). split.
      * intros [Hp|(name & csv & d & l & [Hin Hn] & E)]; [auto|].
        right. exists name, csv, d, l.
        split; [split; [right; exact Hin | exact Hn] | exact E].
      * intros [Hp|(name & csv & d & l & [[E|Hin] Hn] & Eg)]; [auto| |].
        -- injection E as -> ->. rewrite Hpat in Hn. discriminate Hn.
        -- right. exists name, csv, d, l. split; [split|]; assumption.
Qed.

Lemma load_files_ignores files : forall self,
  load_files cv files self = load_files cv (filter is_source files) self.
Proof.
  induction files as [|[name0 csv0] files IH]; intros self; [reflexivity|].
  simpl. unfold is_source at 1. simpl fst.
  destruct (filename_pattern name0) as [[d0 l0]|] eqn:Hpat.
  - simpl. rewrite Hpat.
    destruct (read_terms d0 l0 (cv l0) csv0); [apply IH | reflexivity].
  - apply IH.
Qed.

End Inventory.

Section Loaded.
Variable cv : pystr -> pystr.
Variable fs : FileSystem.
Variable dir : pystr.
Variable files : list File.
Variable st : TerminologyManager.
Hypothesis Hdir : fs dir = Some files.
Hypothesis Hload : load cv fs dir = Ok st.

Lemma loaded_files : load_files cv files (mkManager [] [] []) = Ok st.
Proof. unfold load in Hload. rewrite Hdir in Hload. exact Hload. Qed.

Lemma loaded_nodup :
  NoDup (domains_languages st) /\
  NoDup (available_google_languages st) /\
  NoDup (dict_keys (terms_by_domain_lang st)).
Proof.
  exact (load_files_nodup cv files _ loaded_files (NoDup_nil _) (NoDup_nil _)
           (NoDup_nil _)).
Qed.

Lemma loaded_keys d l :
  In (d, l) (dict_keys (terms_by_domain_lang st)) <->
  exists name csv, source files name csv d l.
Proof.
  rewrite (load_files_sources cv files _ (d, l) loaded_files).
  simpl. split; [intros [[]|H]; exact H | auto].
Qed.

Lemma loaded_pairs d l :
  In (d, l) (domains_languages st) <->
  exists name csv, source files name csv d l.
Proof.
  rewrite (load_pairs_agree _ _ _ Hload (d, l)). apply loaded_keys.
Qed.

Lemma loaded_google g :
  In g (available_google_languages st) <->
  exists name csv d l, source files name csv d l /\ g = cv l.
Proof.
  rewrite (load_files_google cv files _ g loaded_files).
  simpl. split; [intros [[]|H]; exact H | auto].
Qed.
End Loaded.

(** X1.  After a successful load the three fields of the manager describe
    exactly the terminology sources of the directory: the set of pairs and
    the keys of the index are duplicate-free and hold a pair exactly when a
    file of the listing parses to it, and the set of provider codes holds
    exactly the converted languages of those files. *)
Theorem load_inventory (cv : pystr -> pystr) (fs : FileSystem)
        (dir : pystr) (files : list File) (st : TerminologyManager) :
  fs dir = Some files ->
  load cv fs dir = Ok st ->
  NoDup (domains_languages st) /\
  NoDup (dict_keys (terms_by_domain_lang st)) /\
  NoDup (available_google_languages st) /\
  (forall d l,
      In (d, l) (domains_languages st) <->
      exists name csv, source files name csv d l) /\
  (forall d l,
      dict_mem pair_eqb (terms_by_domain_lang st) (d, l) = true <->
      exists name csv, source files name csv d l) /\
  (forall g,
      In g (available_google_languages st) <->
      exists name csv d l, source files name csv d l /\ g = cv l).
Proof.
  intros Hdir Hload.
  destruct (loaded_nodup cv fs dir Hdir Hload) as (N1 & N2 & N3).
  split; [exact N1|]. split; [exact N3|]. split; [exact N2|].
  split; [|split].
  - intros d l. apply (loaded_pairs cv fs dir Hdir Hload).
  - intros d l. rewrite <- (loaded_keys cv fs dir Hdir Hload).
    unfold dict_mem.
    destruct (dict_get pair_eqb (terms_by_domain_lang st) (d, l)) eqn:E.
    + split; [intros _|reflexivity].
      apply dict_get_in in E; [|apply pair_eqb_eq].
      apply (in_map fst) in E. exact E.
    + split; [discriminate|]. intros H.
      apply (dict_get_none pair_eqb pair_eqb_eq) in E. contradiction.
  - intros g. apply (loaded_google cv fs dir Hdir Hload).
Qed.

Lemma load_inventory_witness :
  NoDup (domains_languages
           (loaded twi_aka_ak (one_dir (str "t") mixed_listing) (str "t"))).
Proof.
  apply (load_inventory twi_aka_ak (one_dir (str "t") mixed_listing)
           (str "t") (files := mixed_listing)).
  - reflexivity.
  - vm_compute. reflexivity.
Defined.

(** X2.  Files whose name does not match the pattern of the terminology
    sources have no influence on the load: removing them from the listing
    gives the same result, error or manager. *)
Theorem load_ignores_other_files (cv : pystr -> pystr) (fs : FileSystem)
        (dir : pystr) :
  load cv fs dir
  = load cv (fun path => option_map (filter is_source) (fs path)) dir.
Proof.
  unfold load. destruct (fs dir) as [files|]; simpl; [|reflexivity].
  apply load_files_ignores.
Qed.

(** ** The enumerations *)

(** X3.  [get_domains] lists the domains of the stored pairs, each once,
    in ascending order. *)
Theorem get_domains_sorted_set (st : TerminologyManager) :
  StronglySorted str_le (get_domains st) /\
  NoDup (get_domains st) /\
  forall d, In d (get_domains st) <->
            exists l, In (d, l) (domains_languages st).
Proof.
  split; [apply sorted_str_sorted|]. split; [|apply get_domains_In].
  unfold get_domains.
  apply (Permutation_NoDup (sorted_str_perm _)).
  apply set_of_list_nodup. apply str_eqb_eq.
Qed.

(** X4.  [get_available_domains_languages] is the set of stored pairs
    rearranged in ascending order (by domain, then by language), and
    [get_available_domains_languages_google] has one entry per stored
    pair, its language converted, in ascending order too: two stored
    languages of a domain that convert to the same code give two equal
    entries. *)
Theorem available_pairs_sorted (cv : pystr -> pystr)
        (st : TerminologyManager) :
  Permutation (domains_languages st) (get_available_domains_languages st) /\
  StronglySorted pair_le (get_available_domains_languages st) /\
  Permutation (map (fun dl => (fst dl, cv (snd dl))) (domains_languages st))
              (get_available_domains_languages_google cv st) /\
  StronglySorted pair_le (get_available_domains_languages_google cv st) /\
  length (get_available_domains_languages_google cv st)
  = length (domains_languages st).
Proof.
  unfold get_available_domains_languages,
    get_available_domains_languages_google.
  split; [apply sorted_by_perm|].
  split; [apply (sorted_by_sorted pair_leb pair_leb_total pair_leb_trans)|].
  split; [apply sorted_by_perm|].
  split; [apply (sorted_by_sorted pair_leb pair_leb_total pair_leb_trans)|].
  rewrite <- (Permutation_length (sorted_by_perm pair_leb _)).
  apply length_map.
Qed.

Lemma get_languages_google (cv : pystr -> pystr) (st : TerminologyManager) :
  get_languages cv st (str "google")
  = sorted (set_of_list str_eqb
              (map cv (set_of_list str_eqb
                         (map snd (domains_languages st))))).
Proof. reflexivity. Qed.

Lemma get_languages_other (cv : pystr -> pystr) (st : TerminologyManager)
      (format : pystr) :
  format <> str "google" ->
  get_languages cv st format
  = sorted (set_of_list str_eqb (map snd (domains_languages st))).
Proof.
  intros H. unfold get_languages.
  apply str_eqb_neq in H. rewrite H. reflexivity.
Qed.

Lemma languages_In (st : TerminologyManager) (l : pystr) :
  In l (set_of_list str_eqb (map snd (domains_languages st))) <->
  exists d, In (d, l) (domains_languages st).
Proof.
  rewrite (set_of_list_In str_eqb str_eqb_eq), in_map_iff. split.
  - intros [[d l'] [E H]]. simpl in E. subst. eauto.
  - intros [d H]. exists (d, l). auto.
Qed.

Lemma google_languages_In (cv : pystr -> pystr) (st : TerminologyManager)
      (g : pystr) :
  In g (set_of_list str_eqb
          (map cv (set_of_list str_eqb (map snd (domains_languages st)))))
  <-> exists d l, In (d, l) (domains_languages st) /\ g = cv l.
Proof.
  rewrite (set_of_list_In str_eqb str_eqb_eq), in_map_iff. split.
  - intros [l [E H]]. apply languages_In in H. destruct H as [d H].
    exists d, l. auto.
  - intros (d & l & H & ->). exists l. split; [reflexivity|].
    apply languages_In. eauto.
Qed.

(** X5.  [get_languages] returns, in ascending order and without
    repetition, the converted codes of the stored languages when the
    format is "google", and the stored languages themselves for any other
    format. *)
Theorem get_languages_sorted_set (cv : pystr -> pystr)
        (st : TerminologyManager) (format : pystr) :
  StronglySorted str_le (get_languages cv st format) /\
  NoDup (get_languages cv st format) /\
  (format = str "google" ->
   forall g, In g (get_languages cv st format) <->
             exists d l, In (d, l) (domains_languages st) /\ g = cv l) /\
  (format <> str "google" ->
   forall l, In l (get_languages cv st format) <->
             exists d, In (d, l) (domains_languages st)).
Proof.
  assert (Hs : StronglySorted str_le (get_languages cv st format)).
  { unfold get_languages. destruct (str_eqb format (str "google"));
      apply sorted_str_sorted. }
  assert (Hn : NoDup (get_languages cv st format)).
  { unfold get_languages. destruct (str_eqb format (str "google"));
      apply (Permutation_NoDup (sorted_str_perm _));
      apply set_of_list_nodup; apply str_eqb_eq. }
  split; [exact Hs|]. split; [exact Hn|]. split.
  - intros -> g. rewrite get_languages_google, sorted_In.
    apply google_languages_In.
  - intros H l. rewrite get_languages_other by exact H.
    rewrite sorted_In. apply languages_In.
Qed.

Lemma get_languages_sorted_set_witness :
  In (str "ewe")
     (get_languages twi_aka_ak
        (loaded twi_aka_ak (one_dir (str "t") mixed_listing) (str "t"))
        (str "original")) <->
  exists d,
    In (d, str "ewe")
       (domains_languages
          (loaded twi_aka_ak (one_dir (str "t") mixed_listing) (str "t"))).
Proof.
  apply (proj2 (proj2 (proj2
           (get_languages_sorted_set twi_aka_ak
              (loaded twi_aka_ak (one_dir (str "t") mixed_listing) (str "t"))
              (str "original"))))).
  vm_compute. discriminate.
Defined.

(** X6.  On a loaded manager [get_languages] with the format "google"
    recomputes what the load has already collected: it is the sorted
    content of [available_google_languages]. *)
Theorem get_languages_google_is_collected (cv : pystr -> pystr)
        (fs : FileSystem) (dir : pystr) (st : TerminologyManager) :
  load cv fs dir = Ok st ->
  get_languages cv st (str "google")
  = sorted (available_google_languages st).
Proof.
  intros Hload. rewrite get_languages_google.
  apply sorted_str_permutation.
  destruct (fs dir) as [files|] eqn:Hdir;
    [|unfold load in Hload; rewrite Hdir in Hload; discriminate Hload].
  destruct (loaded_nodup cv fs dir Hdir Hload) as (_ & N & _).
  apply NoDup_Permutation;
    [apply set_of_list_nodup; apply str_eqb_eq | exact N |].
  intros g.
  rewrite google_languages_In, (loaded_google cv fs dir Hdir Hload).
  split.
  - intros (d & l & H & E).
    apply (loaded_pairs cv fs dir Hdir Hload) in H.
    destruct H as (name & csv & H). exists name, csv, d, l. auto.
  - intros (name & csv & d & l & H & E). exists d, l.
    split; [apply (loaded_pairs cv fs dir Hdir Hload); eauto | exact E].
Qed.

Lemma get_languages_google_is_collected_witness :
  get_languages twi_aka_ak
    (loaded twi_aka_ak (one_dir (str "t") mixed_listing) (str "t"))
    (str "google")
  = sorted (available_google_languages
              (loaded twi_aka_ak (one_dir (str "t") mixed_listing)
                      (str "t"))).
Proof.
  apply (get_languages_google_is_collected twi_aka_ak
           (one_dir (str "t") mixed_listing) (str "t")).
  vm_compute. reflexivity.
Defined.

(** X7.  The order in which the directory is listed does not show in the
    enumerations: if the load succeeds for one listing it succeeds for any
    listing with the same files, and the domains, the pairs (in both
    forms) and the languages come out the same. *)
Theorem listing_order_irrelevant (cv : pystr -> pystr)
        (fs1 fs2 : FileSystem) (dir : pystr) (files1 files2 : list File)
        (st1 : TerminologyManager) :
  fs1 dir = Some files1 -> fs2 dir = Some files2 ->
  (forall f, In f files1 <-> In f files2) ->
  load cv fs1 dir = Ok st1 ->
  exists st2,
    load cv fs2 dir = Ok st2 /\
    get_domains st2 = get_domains st1 /\
    get_available_domains_languages st2
    = get_available_domains_languages st1 /\
    get_available_domains_languages_google cv st2
    = get_available_domains_languages_google cv st1 /\
    forall format, get_languages cv st2 format = get_languages cv st1 format.
Proof.
  intros Hdir1 Hdir2 Hsame Hload1.
  assert (Hsrc : forall name csv d l,
             source files2 name csv d l <-> source files1 name csv d l).
  { intros name csv d l. unfold source. rewrite (Hsame (name, csv)).
    tauto. }
  assert (Hload2 : exists st2, load cv fs2 dir = Ok st2).
  { unfold load. rewrite Hdir2. apply load_files_total.
    intros name csv d l Hs. apply Hsrc in Hs.
    pose proof (loaded_files cv fs1 dir Hdir1 Hload1) as H1.
    assert (H : exists st, load_files cv files1 (mkManager [] [] []) = Ok st)
      by eauto.
    rewrite load_files_ok_iff in H. apply (H _ _ _ _ Hs). }
  destruct Hload2 as [st2 Hload2]. exists st2. split; [exact Hload2|].
  assert (P : Permutation (domains_languages st2) (domains_languages st1)).
  { apply NoDup_Permutation.
    - apply (loaded_nodup cv fs2 dir Hdir2 Hload2).
    - apply (loaded_nodup cv fs1 dir Hdir1 Hload1).
    - intros [d l].
      rewrite (loaded_pairs cv fs2 dir Hdir2 Hload2),
        (loaded_pairs cv fs1 dir Hdir1 Hload1).
      split; intros (name & csv & H); exists name, csv; apply Hsrc;
        exact H. }
  assert (Pl : Permutation
                 (set_of_list str_eqb (map snd (domains_languages st2)))
                 (set_of_list str_eqb (map snd (domains_languages st1)))).
  { apply (set_of_list_same str_eqb str_eqb_eq). intros x.
    split; apply Permutation_in; apply Permutation_map;
      [exact P | exact (Permutation_sym P)]. }
  split; [|split; [|split]].
  - unfold get_domains. apply sorted_str_permutation.
    apply (set_of_list_same str_eqb str_eqb_eq). intros x.
    split; apply Permutation_in; apply Permutation_map;
      [exact P | exact (Permutation_sym P)].
  - apply (sorted_by_permutation pair_leb pair_leb_total pair_leb_trans
                                 pair_leb_antisym). exact P.
  - apply (sorted_by_permutation pair_leb pair_leb_total pair_leb_trans
                                 pair_leb_antisym).
    apply Permutation_map. exact P.
  - intros format. unfold get_languages.
    destruct (str_eqb format (str "google")).
    + apply sorted_str_permutation.
      apply (set_of_list_same str_eqb str_eqb_eq). intros x.
      split; apply Permutation_in; apply Permutation_map;
        [exact Pl | exact (Permutation_sym Pl)].
    + apply sorted_str_permutation. exact Pl.
Qed.

Lemma listing_order_irrelevant_witness :
  exists st2,
    load twi_aka_ak (one_dir (str "t") (rev mixed_listing)) (str "t")
    = Ok st2 /\
    get_domains st2
    = get_domains
        (loaded twi_aka_ak (one_dir (str "t") mixed_listing) (str "t")).
Proof.
  destruct (listing_order_irrelevant twi_aka_ak
              (one_dir (str "t") mixed_listing)
              (one_dir (str "t") (rev mixed_listing)) (str "t")
              (files1 := mixed_listing) (files2 := rev mixed_listing)
              (st1 := loaded twi_aka_ak (one_dir (str "t") mixed_listing)
                             (str "t")))
    as (st2 & H1 & H2 & _).
  - reflexivity.
  - reflexivity.
  - intros f. apply in_rev.
  - vm_compute. reflexivity.
  - exists st2. auto.
Defined.

(** ** The lookup *)

Lemma find_converted_in (cv : pystr -> pystr) d code items b :
  find_converted cv d code items = Some b ->
  exists l', In ((d, l'), b) items /\ cv l' = code.
Proof.
  induction items as [|[[d' l'] t'] items IH]; simpl; [discriminate|].
  destruct (str_eqb d' d && str_eqb (cv l') code) eqn:E.
  - apply andb_true_iff in E. destruct E as [E1 E2].
    apply str_eqb_eq in E1, E2. subst d'.
    intros H. injection H as <-. exists l'. auto.
  - intros H. destruct (IH H) as (l0 & Hin & Hc). exists l0. auto.
Qed.

(** X8.  [get_terms_for_domain_lang] never hands out the terms of another
    domain: its result is either empty or a bucket stored under the
    requested domain, for the requested language or for a language related
    to it by the conversion (of the requested length 2 or 3). *)
Theorem lookup_stays_in_domain (cv : pystr -> pystr)
        (st : TerminologyManager) (d l : pystr) :
  get_terms_for_domain_lang cv st d l = [] \/
  exists l',
    In ((d, l'), get_terms_for_domain_lang cv st d l)
       (terms_by_domain_lang st) /\
    (l' = l \/ (length l = 2 /\ cv l' = l)
     \/ (length l = 3 /\ cv l' = cv l)).
Proof.
  unfold get_terms_for_domain_lang.
  destruct (dict_get pair_eqb (terms_by_domain_lang st) (d, l))
    as [b|] eqn:G.
  - right. exists l. split; [|auto].
    apply dict_get_in in G; [exact G | apply pair_eqb_eq].
  - destruct (length l =? 2) eqn:E2.
    + apply Nat.eqb_eq in E2.
      destruct (find_converted cv d l (terms_by_domain_lang st))
        as [b|] eqn:F.
      * right. destruct (find_converted_in _ _ _ _ F) as (l' & Hin & Hc).
        exists l'. auto.
      * rewrite E2. simpl. left. reflexivity.
    + destruct (length l =? 3) eqn:E3; [|left; reflexivity].
      apply Nat.eqb_eq in E3.
      destruct (find_converted cv d (cv l) (terms_by_domain_lang st))
        as [b|] eqn:F; [|left; reflexivity].
      right. destruct (find_converted_in _ _ _ _ F) as (l' & Hin & Hc).
      exists l'. auto.
Qed.

(** ** More on [preprocess_text] and [postprocess_text] *)

Lemma loop_no_occurrence ts : forall text m,
  (forall t, In t ts -> ~ occurs (term t) text) ->
  fold_left preprocess_step ts (text, m) = (text, m).
Proof.
  induction ts as [|t ts IH]; intros text m H; [reflexivity|].
  simpl fold_left.
  destruct (preprocess_step_spec text m t) as (_ & _ & Hno).
  rewrite Hno by (apply H; left; reflexivity).
  apply IH. intros u Hu. apply H. right. exact Hu.
Qed.

(** X9.  An ASCII text in which no term of the resolved set (of ASCII
    terms) matches comes back from [preprocess_text] as it is, with an
    empty replacement map. *)
Theorem preprocess_without_terms (cv : pystr -> pystr)
        (st : TerminologyManager) (text d l : pystr) :
  ascii_str text = true ->
  (forall t, In t (dict_values (get_terms_for_domain_lang cv st d l)) ->
             ascii_str (term t) = true) ->
  get_terms_for_domain_lang cv st d l <> [] ->
  (forall t, In t (dict_values (get_terms_for_domain_lang cv st d l)) ->
             ~ occurs (term t) text) ->
  preprocess_text cv st text d l = Ok (text, []).
Proof.
  intros _ _ Hne Hno. unfold preprocess_text.
  destruct (get_terms_for_domain_lang cv st d l) as [|e b] eqn:E;
    [congruence|].
  unfold preprocess_terms. rewrite loop_no_occurrence; [reflexivity|].
  intros t Ht. apply Hno.
  apply (Permutation_in _ (Permutation_sym (sort_by_len_desc_perm _))).
  exact Ht.
Qed.

Lemma preprocess_without_terms_witness :
  preprocess_text twi_ak (manager_of "agric" "twi" [term_of 1 "cat" "X"])
                  (str "category") (str "agric") (str "twi")
  = Ok (str "category", []).
Proof.
  apply (@preprocess_without_terms twi_ak
           (manager_of "agric" "twi" [term_of 1 "cat" "X"])
           (str "category") (str "agric") (str "twi")).
  - reflexivity.
  - intros t Ht. vm_compute in Ht. destruct Ht as [<-|[]]. reflexivity.
  - vm_compute. discriminate.
  - intros t Ht. vm_compute in Ht. destruct Ht as [<-|[]].
    intros H. apply occurs_count in H. vm_compute in H. lia.
Defined.

(** X10.  Every entry of the replacement map [preprocess_text] returns
    maps the placeholder of a term of the resolved set to that term, and
    the map has no more entries than the set has terms. *)
Theorem replacement_map_bounded (cv : pystr -> pystr)
        (st : TerminologyManager) (text d l p : pystr)
        (m : dict pystr Term) :
  preprocess_text cv st text d l = Ok (p, m) ->
  (forall k v, In (k, v) m ->
               k = placeholder v /\
               In v (dict_values (get_terms_for_domain_lang cv st d l))) /\
  length m <= length (get_terms_for_domain_lang cv st d l).
Proof.
  intros H. unfold preprocess_text in H.
  destruct (get_terms_for_domain_lang cv st d l) as [|e b] eqn:E.
  { destruct (mem str_eqb d (get_domains st)); discriminate H. }
  injection H as H. unfold preprocess_terms in H.
  assert (Hm : m = snd (fold_left preprocess_step
                          (sort_by_len_desc (dict_values (e :: b)))
                          (text, [])))
    by (rewrite H; reflexivity).
  assert (Hnd : NoDup (dict_keys m))
    by (rewrite Hm; apply loop_nodup; constructor).
  assert (Hent : forall k v, In (k, v) m ->
                   k = placeholder v /\ In v (dict_values (e :: b))).
  { intros k v Hin.
    apply (dict_in_get str_eqb str_eqb_eq) in Hin; [|exact Hnd].
    rewrite Hm in Hin. apply loop_values in Hin.
    destruct Hin as [Hin|(before & after & Es & _ & Hk)]; [discriminate Hin|].
    split; [exact Hk|].
    apply (Permutation_in _ (Permutation_sym (sort_by_len_desc_perm _))).
    rewrite Es. apply in_or_app. right. left. reflexivity. }
  split; [exact Hent|].
  assert (Hincl : incl (dict_keys m) (map placeholder (dict_values (e :: b)))).
  { intros k Hk. apply in_map_iff in Hk. destruct Hk as [[k' v] [Ek Hin]].
    simpl in Ek. subst k'. destruct (Hent k v Hin) as [-> Hv].
    apply in_map. exact Hv. }
  apply (NoDup_incl_length Hnd) in Hincl.
  unfold dict_keys, dict_values in Hincl. rewrite !length_map in Hincl.
  exact Hincl.
Qed.

Lemma replacement_map_bounded_witness :
  length [(str "<1>", term_of 1 "acid rain" "X")]
  <= length (get_terms_for_domain_lang twi_ak
               (manager_of "agric" "twi"
                  [term_of 2 "acid" "Y"; term_of 1 "acid rain" "X"])
               (str "agric") (str "twi")).
Proof.
  apply (@replacement_map_bounded twi_ak
           (manager_of "agric" "twi"
              [term_of 2 "acid" "Y"; term_of 1 "acid rain" "X"])
           (str "acid rain falls") (str "agric") (str "twi")
           (str "<1> falls")).
  vm_compute. reflexivity.
Defined.

Lemma insert_by_len_filter (n : nat) (x : Term) (l : list Term) :
  filter (fun t => length (term t) =? n) (insert_by_len x l)
  = filter (fun t => length (term t) =? n) (x :: l).
Proof.
  induction l as [|y l IH]; [reflexivity|].
  simpl insert_by_len.
  destruct (length (term x) <? length (term y)) eqn:E; [|reflexivity].
  apply Nat.ltb_lt in E.
  change (filter (fun t => length (term t) =? n) (y :: insert_by_len x l))
    with (if length (term y) =? n
          then y :: filter (fun t => length (term t) =? n)
                      (insert_by_len x l)
          else filter (fun t => length (term t) =? n) (insert_by_len x l)).
  rewrite IH. simpl.
  destruct (Nat.eqb_spec (length (term x)) n);
    destruct (Nat.eqb_spec (length (term y)) n); try reflexivity.
  lia.
Qed.

(** X11.  The sort of [preprocess_text] is stable: terms whose texts have
    the same length are substituted in the order in which the bucket holds
    them. *)
Theorem equal_lengths_keep_bucket_order (terms_dict : dict pystr Term)
        (n : nat) :
  filter (fun t => length (term t) =? n)
         (sort_by_len_desc (dict_values terms_dict))
  = filter (fun t => length (term t) =? n) (dict_values terms_dict).
Proof.
  induction (dict_values terms_dict) as [|x l IH]; [reflexivity|].
  simpl sort_by_len_desc. rewrite insert_by_len_filter.
  simpl. rewrite IH. reflexivity.
Qed.

(** X12.  [postprocess_text] leaves a text without the character "<"
    as it is, whatever placeholders the map holds. *)
Theorem postprocess_without_placeholders (text : pystr)
        (m : dict pystr Term) :
  lt_free text = true ->
  (forall k v, In (k, v) m -> exists t, k = placeholder t) ->
  postprocess_text text m = text.
Proof.
  intros Htext. apply lt_free_spec in Htext. unfold postprocess_text.
  induction m as [|[k v] m IH]; intros Hkeys; [reflexivity|].
  simpl fold_left.
  destruct (Hkeys k v (or_introl eq_refl)) as [t ->].
  rewrite <- (app_nil_r text) at 1.
  rewrite replace_ph_clean by exact Htext.
  rewrite placeholder_cons, replace_nil, app_nil_r.
  apply IH. intros k' v' H. apply (Hkeys k' v'). right. exact H.
Qed.

Lemma postprocess_without_placeholders_witness :
  postprocess_text (str "no terms here")
                   [(str "<1>", term_of 1 "acid rain" "X")]
  = str "no terms here".
Proof.
  apply (@postprocess_without_placeholders (str "no terms here")
           [(str "<1>", term_of 1 "acid rain" "X")]).
  - reflexivity.
  - intros k v [E|[]]. injection E as <- <-.
    exists (term_of 1 "acid rain" "X"). reflexivity.
Defined.

(** ** The case of the input *)

Lemma lower_char_idem (c : ascii) : lower_char (lower_char c) = lower_char c.
Proof.
  destruct c as [[] [] [] [] [] [] [] []]; vm_compute; reflexivity.
Qed.

Lemma lower_idem (s : pystr) : lower (lower s) = lower s.
Proof.
  unfold lower. rewrite map_map. apply map_ext. apply lower_char_idem.
Qed.

Lemma word_opt_lower (p : option ascii) : word_opt (lower_opt p) = word_opt p.
Proof. destruct p as [c|]; simpl; [apply lower_char_word | reflexivity]. Qed.

Lemma ci_prefix_lower (pat text : pystr) :
  ci_prefix pat (lower text) = ci_prefix pat text.
Proof.
  revert text. induction pat as [|p pat IH]; intros [|c text]; simpl; auto.
  rewrite lower_char_idem, IH. reflexivity.
Qed.

Lemma match_here_lower (pat : pystr) (prev : option ascii) (text : pystr) :
  match_here pat (lower_opt prev) (lower text) = match_here pat prev text.
Proof.
  unfold match_here, at_boundary. rewrite ci_prefix_lower, word_opt_lower.
  assert (H1 : word_opt (hd_error (lower text)) = word_opt (hd_error text)).
  { destruct text; simpl; [reflexivity | apply lower_char_word]. }
  assert (H2 : word_opt (hd_error (skipn (length pat) (lower text)))
               = word_opt (hd_error (skipn (length pat) text))).
  { unfold lower. rewrite skipn_map.
    destruct (skipn (length pat) text); simpl;
      [reflexivity | apply lower_char_word]. }
  assert (H3 : word_opt (prev_after (length pat) (lower_opt prev)
                                    (lower text))
               = word_opt (prev_after (length pat) prev text)).
  { unfold prev_after. destruct (length pat) as [|k];
      [apply word_opt_lower|].
    unfold lower. rewrite nth_error_map.
    destruct (nth_error text k); simpl;
      [apply lower_char_word | reflexivity]. }
  rewrite H1, H2, H3. reflexivity.
Qed.

Section ScanCase.
Variable pat ph : pystr.

Lemma scan_count_lower text : forall prev skip,
  scan_count pat (lower_opt prev) skip (lower text)
  = scan_count pat prev skip text.
Proof.
  induction text as [|c rest IH]; intros prev skip.
  - simpl. destruct skip; [|reflexivity].
    rewrite <- (match_here_lower pat prev []). reflexivity.
  - change (lower (c :: rest)) with (lower_char c :: lower rest).
    simpl scan_count. destruct skip as [|k].
    + change (lower_char c :: lower rest) with (lower (c :: rest)).
      rewrite match_here_lower.
      destruct (match_here pat prev (c :: rest)).
      * destruct (length pat); rewrite <- (IH (Some c)); reflexivity.
      * rewrite <- (IH (Some c)). reflexivity.
    + rewrite <- (IH (Some c)). reflexivity.
Qed.

Lemma scan_out_lower text : forall prev skip,
  lower (scan_out pat ph (lower_opt prev) skip (lower text))
  = lower (scan_out pat ph prev skip text).
Proof.
  induction text as [|c rest IH]; intros prev skip.
  - simpl scan_out. destruct skip; [|reflexivity].
    rewrite <- (match_here_lower pat prev []). reflexivity.
  - change (lower (c :: rest)) with (lower_char c :: lower rest).
    simpl scan_out. destruct skip as [|k].
    + change (lower_char c :: lower rest) with (lower (c :: rest)).
      rewrite match_here_lower.
      destruct (match_here pat prev (c :: rest)).
      * destruct (length pat); unfold lower in *;
          rewrite !map_app; simpl map;
          rewrite ?lower_char_idem;
          rewrite <- (IH (Some c)); reflexivity.
      * unfold lower in *. simpl map. rewrite lower_char_idem.
        rewrite <- (IH (Some c)). reflexivity.
    + rewrite <- (IH (Some c)). reflexivity.
Qed.
End ScanCase.

Lemma preprocess_step_case (t : Term) (cur cur' : pystr)
      (m : dict pystr Term) :
  lower cur = lower cur' ->
  snd (preprocess_step (cur, m) t) = snd (preprocess_step (cur', m) t) /\
  lower (fst (preprocess_step (cur, m) t))
  = lower (fst (preprocess_step (cur', m) t)).
Proof.
  intros H. unfold preprocess_step. simpl fst. simpl snd.
  rewrite !re_sub_placeholder. simpl fst. simpl snd. split.
  - rewrite <- (scan_count_lower (term t) cur None 0).
    rewrite <- (scan_count_lower (term t) cur' None 0).
    rewrite H. reflexivity.
  - rewrite <- (scan_out_lower (term t) (placeholder t) cur None 0).
    rewrite <- (scan_out_lower (term t) (placeholder t) cur' None 0).
    rewrite H. reflexivity.
Qed.

Lemma preprocess_loop_case (ts : list Term) : forall cur cur' m,
  lower cur = lower cur' ->
  snd (fold_left preprocess_step ts (cur, m))
  = snd (fold_left preprocess_step ts (cur', m)) /\
  lower (fst (fold_left preprocess_step ts (cur, m)))
  = lower (fst (fold_left preprocess_step ts (cur', m))).
Proof.
  induction ts as [|t ts IH]; intros cur cur' m H; [auto|].
  simpl fold_left.
  destruct (preprocess_step_case t cur cur' m H) as [Hm Ht].
  destruct (preprocess_step (cur, m) t) as [c1 m1].
  destruct (preprocess_step (cur', m) t) as [c2 m2].
  simpl in Hm, Ht. subst m2. apply IH. exact Ht.
Qed.

Lemma preprocess_terms_case (terms_dict : dict pystr Term)
      (text text' : pystr) :
  lower text = lower text' ->
  snd (preprocess_terms terms_dict text)
  = snd (preprocess_terms terms_dict text') /\
  lower (fst (preprocess_terms terms_dict text))
  = lower (fst (preprocess_terms terms_dict text')).
Proof. unfold preprocess_terms. apply preprocess_loop_case. Qed.

(** X13.  [preprocess_text] does not look at the case of the input: with
    ASCII terms, two ASCII texts that differ in case only give the same
    error or, on success, the same replacement map and placeholder texts
    that differ in case only. *)
Theorem preprocess_ignores_case (cv : pystr -> pystr)
        (st : TerminologyManager) (text text' d l : pystr) :
  ascii_str text = true -> ascii_str text' = true ->
  (forall t, In t (dict_values (get_terms_for_domain_lang cv st d l)) ->
             ascii_str (term t) = true) ->
  lower text = lower text' ->
  match preprocess_text cv st text d l,
        preprocess_text cv st text' d l with
  | Ok (p, m), Ok (p', m') => m = m' /\ lower p = lower p'
  | Err e, Err e' => e = e'
  | _, _ => False
  end.
Proof.
  intros _ _ _ H. unfold preprocess_text.
  destruct (get_terms_for_domain_lang cv st d l) as [|e b].
  - destruct (mem str_eqb d (get_domains st)); reflexivity.
  - destruct (preprocess_terms_case (e :: b) text text' H) as [Hm Ht].
    destruct (preprocess_terms (e :: b) text) as [p m].
    destruct (preprocess_terms (e :: b) text') as [p' m'].
    simpl in Hm, Ht. split; assumption.
Qed.

Lemma preprocess_ignores_case_witness :
  match preprocess_text twi_ak
          (manager_of "agric" "twi" [term_of 1 "acid rain" "X"])
          (str "ACID rain falls") (str "agric") (str "twi"),
        preprocess_text twi_ak
          (manager_of "agric" "twi" [term_of 1 "acid rain" "X"])
          (str "acid Rain FALLS") (str "agric") (str "twi") with
  | Ok (p, m), Ok (p', m') => m = m' /\ lower p = lower p'
  | Err e, Err e' => e = e'
  | _, _ => False
  end.
Proof.
  apply (@preprocess_ignores_case twi_ak
           (manager_of "agric" "twi" [term_of 1 "acid rain" "X"])
           (str "ACID rain falls") (str "acid Rain FALLS")
           (str "agric") (str "twi")).
  - reflexivity.
  - reflexivity.
  - intros t Ht. vm_compute in Ht. destruct Ht as [<-|[]]. reflexivity.
  - reflexivity.
Defined.

(** ** The names of the terminology sources *)

Lemma is_prefix_split (p s : pystr) :
  is_prefix p s = true -> s = p ++ skipn (length p) s.
Proof.
  revert s. induction p as [|a p IH]; intros [|b s]; simpl;
    try discriminate; try reflexivity.
  intros H. apply andb_true_iff in H. destruct H as [H1 H2].
  apply ascii_eqb_eq in H1. subst b. f_equal. apply IH. exact H2.
Qed.

Lemma match_language_sound (r l : pystr) :
  match_language r = Some l ->
  (r = l ++ str ".csv" \/ r = l ++ str ".csv" ++ [newline]) /\
  dot_plus l = true.
Proof.
  unfold match_language.
  set (body := match rev r with
               | [] => r
               | c :: r' => if ascii_eqb c newline then rev r' else r
               end).
  assert (Hbody : r = body \/ r = body ++ [newline]).
  { unfold body. destruct (rev r) as [|c r'] eqn:E; [left; reflexivity|].
    destruct (ascii_eqb c newline) eqn:Ec; [|left; reflexivity].
    apply ascii_eqb_eq in Ec. subst c. right.
    apply (f_equal (@rev ascii)) in E. rewrite rev_involutive in E.
    exact E. }
  destruct ((4 <=? length body)
            && str_eqb (skipn (length body - 4) body) (str ".csv")
            && dot_plus (firstn (length body - 4) body)) eqn:C;
    [|discriminate].
  intros H. injection H as <-.
  apply andb_true_iff in C. destruct C as [C C3].
  apply andb_true_iff in C. destruct C as [C1 C2].
  apply str_eqb_eq in C2. split; [|exact C3].
  assert (Eb : body = firstn (length body - 4) body ++ str ".csv").
  { rewrite <- C2. symmetry. apply firstn_skipn. }
  destruct Hbody as [Hr|Hr]; [left | right].
  - rewrite Hr at 1. exact Eb.
  - rewrite Hr at 1. rewrite Eb at 1. rewrite <- app_assoc. reflexivity.
Qed.

Lemma match_filename_from_cons (dom_rev : pystr) (c : ascii) (rest : pystr) :
  match_filename_from dom_rev (c :: rest)
  = match match_filename_from (c :: dom_rev) rest with
    | Some r => Some r
    | None =>
        if dot_plus (rev dom_rev) && is_prefix (str "_terms_") (c :: rest)
        then match match_language (skipn 7 (c :: rest)) with
             | Some l => Some (rev dom_rev, l)
             | None => None
             end
        else None
    end.
Proof. reflexivity. Qed.

Lemma match_filename_from_sound (rest : pystr) : forall dom_rev d l,
  match_filename_from dom_rev rest = Some (d, l) ->
  exists a b,
    rest = a ++ str "_terms_" ++ b /\ d = rev dom_rev ++ a /\
    dot_plus d = true /\ match_language b = Some l.
Proof.
  induction rest as [|c rest IH]; intros dom_rev d l H; [discriminate H|].
  rewrite match_filename_from_cons in H.
  destruct (match_filename_from (c :: dom_rev) rest) as [[d' l']|] eqn:E.
  - injection H as -> ->.
    destruct (IH _ _ _ E) as (a & b & -> & -> & Hd & Hl).
    exists (c :: a), b. simpl rev in *. rewrite <- app_assoc in *.
    repeat split; auto.
  - destruct (dot_plus (rev dom_rev)
              && is_prefix (str "_terms_") (c :: rest)) eqn:C;
      [|discriminate H].
    apply andb_true_iff in C. destruct C as [C1 C2].
    destruct (match_language (skipn 7 (c :: rest))) as [l0|] eqn:El;
      [|discriminate H].
    injection H as <- <-.
    exists [], (skipn 7 (c :: rest)).
    rewrite app_nil_r. split; [|auto].
    apply (is_prefix_split (str "_terms_")). exact C2.
Qed.

(** X14.  A file name that the load accepts is the domain, the text
    "_terms_", the language and ".csv" (a trailing newline apart), with a
    domain and a language that are not empty and hold no newline. *)
Theorem filename_pattern_sound (name d l : pystr) :
  filename_pattern name = Some (d, l) ->
  (name = source_name d l \/ name = source_name d l ++ [newline]) /\
  dot_plus d = true /\ dot_plus l = true.
Proof.
  unfold filename_pattern, source_name. intros H.
  destruct (match_filename_from_sound _ _ H) as (a & b & -> & -> & Hd & Hl).
  simpl rev in *. simpl app at 1 in Hd.
  destruct (match_language_sound _ Hl) as [[->| ->] Hdl].
  - split; [left; reflexivity | auto].
  - split; [|auto]. right. rewrite <- !app_assoc. reflexivity.
Qed.

Lemma filename_pattern_sound_witness :
  str "agric_terms_twi.csv" = source_name (str "agric") (str "twi")
  \/ str "agric_terms_twi.csv"
     = source_name (str "agric") (str "twi") ++ [newline].
Proof.
  apply (@filename_pattern_sound (str "agric_terms_twi.csv")
           (str "agric") (str "twi")).
  vm_compute. reflexivity.
Defined.

Lemma underscores_app (a b : pystr) :
  underscores (a ++ b) = underscores a + underscores b.
Proof. unfold underscores. rewrite filter_app, length_app. reflexivity. Qed.

Lemma underscores_none (s : pystr) :
  ~ In "_"%char s -> underscores s = 0.
Proof.
  unfold underscores. induction s as [|c s IH]; intros H; [reflexivity|].
  simpl. destruct (ascii_eqb c "_") eqn:E.
  - apply ascii_eqb_eq in E. subst c. exfalso. apply H. left. reflexivity.
  - apply IH. intros X. apply H. right. exact X.
Qed.

(** A name that matches holds the two underscores of "_terms_". *)
Lemma match_filename_from_underscores rest dom_rev p :
  match_filename_from dom_rev rest = Some p -> 2 <= underscores rest.
Proof.
  destruct p as [d l]. intros H.
  destruct (match_filename_from_sound _ _ H) as (a & b & -> & _).
  rewrite !underscores_app.
  change (underscores (str "_terms_")) with 2. lia.
Qed.

Lemma match_language_complete (l : pystr) :
  dot_plus l = true -> match_language (l ++ str ".csv") = Some l.
Proof.
  intros H. unfold match_language.
  match goal with
  | |- context [length ?b] =>
      assert (Hb : b = l ++ str ".csv")
        by (rewrite rev_app_distr; reflexivity);
      rewrite Hb; clear Hb
  end.
  rewrite length_app.
  change (length (str ".csv")) with 4.
  replace (length l + 4 - 4) with (length l) by lia.
  rewrite skipn_app, skipn_all, Nat.sub_diag.
  rewrite firstn_app, firstn_all, Nat.sub_diag.
  change (skipn 0 (str ".csv")) with (str ".csv").
  change (firstn 0 (str ".csv")) with (@nil ascii).
  rewrite app_nil_r, H. change ([] ++ str ".csv") with (str ".csv").
  rewrite str_eqb_refl.
  replace (4 <=? length l + 4) with true
    by (symmetry; apply Nat.leb_le; lia).
  reflexivity.
Qed.

Lemma match_filename_from_complete (l : pystr) :
  dot_plus l = true -> ~ In "_"%char l ->
  forall a dom_rev,
    dot_plus (rev dom_rev ++ a) = true ->
    match_filename_from dom_rev (a ++ str "_terms_" ++ l ++ str ".csv")
    = Some (rev dom_rev ++ a, l).
Proof.
  intros Hl Hu. induction a as [|c a IH]; intros dom_rev Hd.
  - rewrite app_nil_r in Hd |- *.
    change ([] ++ str "_terms_" ++ l ++ str ".csv")
      with ("_"%char :: str "terms_" ++ l ++ str ".csv").
    rewrite match_filename_from_cons.
    destruct (match_filename_from ("_"%char :: dom_rev)
                (str "terms_" ++ l ++ str ".csv")) as [p|] eqn:E.
    + apply match_filename_from_underscores in E.
      rewrite !underscores_app, (@underscores_none l Hu) in E.
      change (underscores (str "terms_")) with 1 in E.
      change (underscores (str ".csv")) with 0 in E. lia.
    + rewrite Hd.
      change (is_prefix (str "_terms_")
                ("_"%char :: str "terms_" ++ l ++ str ".csv")) with true.
      change (skipn 7 ("_"%char :: str "terms_" ++ l ++ str ".csv"))
        with (l ++ str ".csv").
      rewrite (@match_language_complete l Hl). reflexivity.
  - change ((c :: a) ++ str "_terms_" ++ l ++ str ".csv")
      with (c :: a ++ str "_terms_" ++ l ++ str ".csv").
    rewrite match_filename_from_cons.
    rewrite (IH (c :: dom_rev)).
    + simpl rev. rewrite <- app_assoc. reflexivity.
    + simpl rev. rewrite <- app_assoc. exact Hd.
Qed.

(** X15.  The name built from a domain and a language is read back as
    that very pair, whatever the domain holds, provided both are not empty
    and hold no newline and the language holds no underscore. *)
Theorem filename_pattern_round_trip (d l : pystr) :
  dot_plus d = true -> dot_plus l = true -> ~ In "_"%char l ->
  filename_pattern (source_name d l) = Some (d, l).
Proof.
  intros Hd Hl Hu. unfold filename_pattern, source_name.
  rewrite (@match_filename_from_complete l Hl Hu d []); [reflexivity|].
  exact Hd.
Qed.

Lemma filename_pattern_round_trip_witness :
  filename_pattern (source_name (str "crop_terms_x") (str "ewe"))
  = Some (str "crop_terms_x", str "ewe").
Proof.
  apply (@filename_pattern_round_trip (str "crop_terms_x") (str "ewe")).
  - reflexivity.
  - reflexivity.
  - vm_compute. intuition discriminate.
Defined.

(** ** The stored terms *)

Lemma is_space_lower (c : ascii) : is_space (lower_char c) = is_space c.
Proof.
  destruct c as [[] [] [] [] [] [] [] []]; vm_compute; reflexivity.
Qed.

Lemma lstrip_lower (s : pystr) : lower (lstrip s) = lstrip (lower s).
Proof.
  induction s as [|c s IH]; [reflexivity|].
  simpl. rewrite is_space_lower.
  destruct (is_space c); [exact IH | reflexivity].
Qed.

Lemma strip_lower (s : pystr) : lower (strip s) = strip (lower s).
Proof.
  unfold strip, rstrip, lower.
  rewrite map_rev. fold (lower (lstrip (rev (lstrip s)))).
  rewrite lstrip_lower. unfold lower. rewrite map_rev.
  fold (lower (lstrip s)). rewrite lstrip_lower. reflexivity.
Qed.

Lemma lstrip_idem (s : pystr) : lstrip (lstrip s) = lstrip s.
Proof.
  induction s as [|c s IH]; [reflexivity|].
  simpl. destruct (is_space c) eqn:E; [exact IH|].
  simpl. rewrite E. reflexivity.
Qed.

Lemma lstrip_snoc (w : pystr) (c : ascii) :
  is_space c = false -> lstrip (w ++ [c]) = lstrip w ++ [c].
Proof.
  intros H. induction w as [|x w IH]; simpl.
  - rewrite H. reflexivity.
  - destruct (is_space x); [exact IH | reflexivity].
Qed.

(** What [lstrip] returns does not begin with white space, and [rstrip]
    keeps it so. *)
Lemma lstrip_rstrip (s : pystr) :
  lstrip (rstrip (lstrip s)) = rstrip (lstrip s).
Proof.
  assert (H : lstrip s = [] \/
              exists c u, lstrip s = c :: u /\ is_space c = false).
  { induction s as [|c s IH]; [left; reflexivity|].
    simpl. destruct (is_space c) eqn:E; [exact IH|].
    right. exists c, s. auto. }
  destruct H as [->|(c & u & -> & Hc)]; [reflexivity|].
  unfold rstrip. simpl rev. rewrite lstrip_snoc by exact Hc.
  rewrite rev_app_distr. simpl. rewrite Hc. reflexivity.
Qed.

Lemma rstrip_idem (s : pystr) : rstrip (rstrip s) = rstrip s.
Proof.
  unfold rstrip. rewrite rev_involutive, lstrip_idem. reflexivity.
Qed.

Lemma strip_idem (s : pystr) : strip (strip s) = strip s.
Proof.
  unfold strip. rewrite lstrip_rstrip, rstrip_idem. reflexivity.
Qed.

Lemma lower_char_ascii (c : ascii) :
  is_ascii (lower_char c) = is_ascii c.
Proof.
  destruct c as [[] [] [] [] [] [] [] []]; vm_compute; reflexivity.
Qed.

Lemma ascii_str_lower (s : pystr) : ascii_str (lower s) = ascii_str s.
Proof.
  induction s as [|c s IH]; [reflexivity|].
  simpl. rewrite lower_char_ascii, IH. reflexivity.
Qed.

Lemma ascii_str_lstrip (s : pystr) :
  ascii_str s = true -> ascii_str (lstrip s) = true.
Proof.
  induction s as [|c s IH]; [reflexivity|].
  intros H. simpl. destruct (is_space c); [|exact H].
  simpl in H. apply andb_true_iff in H. apply IH, H.
Qed.

Lemma ascii_str_rev (s : pystr) : ascii_str (rev s) = ascii_str s.
Proof.
  unfold ascii_str. induction s as [|c s IH]; [reflexivity|].
  simpl. rewrite forallb_app, IH. simpl.
  rewrite andb_true_r. apply andb_comm.
Qed.

Lemma ascii_str_strip (s : pystr) :
  ascii_str s = true -> ascii_str (strip s) = true.
Proof.
  intros H. unfold strip, rstrip. rewrite ascii_str_rev.
  apply ascii_str_lstrip. rewrite ascii_str_rev.
  apply ascii_str_lstrip. exact H.
Qed.

Lemma term_key_ascii (r : Row) :
  (forall s, row_term r = Some s -> ascii_str s = true) ->
  ascii_str (term_key r) = true.
Proof.
  intros H. unfold term_key. apply ascii_str_strip.
  rewrite ascii_str_lower. destruct (row_term r) as [s|].
  - apply H. reflexivity.
  - reflexivity.
Qed.

(** X16.  In a manager loaded from sources whose term cells are ASCII
    texts, every term sits in its bucket under its own text, carries the
    domain and the language of the bucket and the converted code of that
    language, and its text is an ASCII text in lower case with no white
    space at either end. *)
Theorem stored_terms_normalized (cv : pystr -> pystr) (fs : FileSystem)
        (dir : pystr) (files : list File) (st : TerminologyManager)
        (d l k : pystr) (bucket : dict pystr Term) (t : Term) :
  fs dir = Some files ->
  (forall name columns rows d' l',
      source files name (DataFrame columns rows) d' l' ->
      ascii_terms rows) ->
  load cv fs dir = Ok st ->
  In ((d, l), bucket) (terms_by_domain_lang st) ->
  In (k, t) bucket ->
  term t = k /\ domain t = d /\ language t = l /\
  google_lang_code t = cv l /\
  ascii_str k = true /\ lower k = k /\ strip k = k.
Proof.
  intros Hdir Hascii Hload Hb Ht.
  destruct (loaded_nodup cv fs dir Hdir Hload) as (_ & _ & Nk).
  apply (dict_in_get pair_eqb pair_eqb_eq) in Hb; [|exact Nk].
  pose proof (loaded_files cv fs dir Hdir Hload) as Hfiles.
  destruct (load_files_bucket cv _ _ _ _ Hfiles Hb)
    as [(name & csv & Hs & Hr)|Hself]; [|discriminate Hself].
  destruct csv as [|columns rows]; [discriminate Hr|].
  destruct (@read_terms_spec d l (cv l) columns rows bucket Hr)
    as [Hnd Hspec].
  apply (dict_in_get str_eqb str_eqb_eq) in Ht; [|exact Hnd].
  apply Hspec in Ht.
  destruct Ht as (r & z & Hlast & _ & ->).
  apply last_row_with_in in Hlast. destruct Hlast as [Hin Hk].
  simpl. repeat split; try reflexivity.
  - rewrite <- Hk. apply term_key_ascii.
    intros s Hs'. apply (Hascii _ _ _ _ _ Hs r s Hin Hs').
  - rewrite <- Hk. unfold term_key. rewrite strip_lower, lower_idem.
    reflexivity.
  - rewrite <- Hk. unfold term_key. apply strip_idem.
Qed.

Lemma stored_terms_normalized_witness :
  ascii_str (str "loam") = true /\
  lower (str "loam") = str "loam" /\ strip (str "loam") = str "loam".
Proof.
  refine (proj2 (proj2 (proj2 (proj2
            (@stored_terms_normalized twi_aka_ak
               (one_dir (str "t") mixed_listing) (str "t") mixed_listing
               (loaded twi_aka_ak (one_dir (str "t") mixed_listing)
                       (str "t"))
               (str "soil") (str "twi") (str "loam")
               [(str "loam",
                 mkTerm 1 (str "loam") (str "X") (str "soil") (str "twi")
                        (str "ak"));
                (str "clay",
                 mkTerm 2 (str "clay") (str "Y") (str "soil") (str "twi")
                        (str "ak"))]
               (mkTerm 1 (str "loam") (str "X") (str "soil") (str "twi")
                       (str "ak")) _ _ _ _ _))))).
  - reflexivity.
  - intros name columns rows d' l' [Hin _] r s Hr Hs.
    destruct Hin as [E|[E|[E|[E|[]]]]];
      try discriminate E; injection E as _ _ <-;
      repeat (destruct Hr as [<-|Hr]; [injection Hs as <-; reflexivity|]);
      destruct Hr.
  - vm_compute. reflexivity.
  - vm_compute. left. reflexivity.
  - left. reflexivity.
Defined.

(** ** [utils.py] *)

Lemma is_prefix_refl (s : pystr) : is_prefix s s = true.
Proof.
  induction s as [|c s IH]; simpl; [reflexivity|].
  rewrite ascii_eqb_refl. exact IH.
Qed.

Lemma str_in_refl (s : pystr) : str_in s s = true.
Proof.
  destruct s as [|c s]; [reflexivity|].
  unfold str_in. fold str_in. rewrite is_prefix_refl. reflexivity.
Qed.

(** X17.  [get_language_mapping] reports every language as supported:
    the flag compares the converted code with itself.  For a language that
    is given and not empty it returns the language, its converted code and
    the format "iso639-3" exactly for the length 3; otherwise it returns
    the whole table. *)
Theorem language_mapping_always_supported (cv : pystr -> pystr)
        (mapping : dict pystr pystr) (language : option pystr) :
  match get_language_mapping cv mapping language with
  | LanguageInfo input input_format google_code supported =>
      supported = true /\ language = Some input /\ input <> [] /\
      google_code = cv input /\
      (input_format = str "iso639-3" <-> length input = 3)
  | MappingInfo m =>
      m = mapping /\ (language = None \/ language = Some [])
  end.
Proof.
  destruct language as [[|c s]|]; simpl; try (split; auto; fail).
  split; [apply str_in_refl|]. split; [reflexivity|].
  split; [discriminate|]. split; [reflexivity|].
  destruct (length s) as [|[|[|n]]]; simpl; split; intros H;
    try reflexivity; try discriminate H; try lia.
Qed.

Section ExportFacts.
Variable cv : pystr -> pystr.
Variable json_dumps : list (dict pystr pyval) -> pystr.
Variable csv_text : list (dict pystr pyval) -> pystr.
Variable fs : FileSystem.
Variable dir : pystr.
Variable st : TerminologyManager.
Hypothesis Hload : load cv fs dir = Ok st.

(** The dictionary [export_terminology] ends up with. *)
Lemma export_unfold domain language output_format :
  export_terminology cv json_dumps csv_text fs domain language
                     output_format dir
  = let terms_dict :=
      match get_terms_for_domain_lang cv st domain language with
      | [] =>
          match find_converted cv domain (cv language)
                               (terms_by_domain_lang st) with
          | Some terms => terms
          | None => []
          end
      | e :: b => e :: b
      end in
    match terms_dict with
    | [] => UErr (ValueError_no_terminology_found domain language)
    | _ :: _ =>
        let terms_list := map term_record (dict_values terms_dict) in
        if str_eqb output_format (str "json")
        then UOk (ExportedText (json_dumps terms_list))
        else if str_eqb output_format (str "csv")
        then UOk (ExportedText (csv_text terms_list))
        else UOk (ExportedList terms_list)
    end.
Proof.
  unfold export_terminology. rewrite Hload.
  destruct (get_terms_for_domain_lang cv st domain language); reflexivity.
Qed.
End ExportFacts.

Lemma record_term_record (t : Term) : record_term (term_record t) = Some t.
Proof. destruct t. reflexivity. Qed.

(** X18.  [export_terminology] passes on the error of a failed load, and
    after a successful load it raises its own error exactly when the
    lookup gives nothing and the first stored pair of the domain with the
    same converted code is missing or has an empty bucket. *)
Theorem export_fails_exactly (cv : pystr -> pystr)
        (json_dumps csv_text : list (dict pystr pyval) -> pystr)
        (fs : FileSystem) (d l output_format dir : pystr) :
  (forall e, load cv fs dir = Err e ->
             export_terminology cv json_dumps csv_text fs d l
                                output_format dir
             = UErr (ManagerError e)) /\
  (forall st, load cv fs dir = Ok st ->
              (export_terminology cv json_dumps csv_text fs d l
                                  output_format dir
               = UErr (ValueError_no_terminology_found d l)
               <->
               get_terms_for_domain_lang cv st d l = [] /\
               (find_converted cv d (cv l) (terms_by_domain_lang st) = None
                \/ find_converted cv d (cv l) (terms_by_domain_lang st)
                   = Some []))).
Proof.
  split.
  - intros e H. unfold export_terminology. rewrite H. reflexivity.
  - intros st H. rewrite (export_unfold cv json_dumps csv_text fs dir H).
    cbv zeta.
    destruct (get_terms_for_domain_lang cv st d l) as [|e b].
    + destruct (find_converted cv d (cv l) (terms_by_domain_lang st))
        as [[|e b]|].
      * split; auto.
      * split.
        -- destruct (str_eqb output_format (str "json"));
             [discriminate|].
           destruct (str_eqb output_format (str "csv")); discriminate.
        -- intros [_ [X|X]]; discriminate X.
      * split; auto.
    + split.
      * destruct (str_eqb output_format (str "json")); [discriminate|].
        destruct (str_eqb output_format (str "csv")); discriminate.
      * intros [X _]. discriminate X.
Qed.

Lemma export_fails_exactly_witness :
  export_terminology twi_aka_ak (fun _ => []) (fun _ => [])
    (one_dir (str "t") mixed_listing)
    (str "agric") (str "akan") (str "json") (str "t")
  = UErr (ValueError_no_terminology_found (str "agric") (str "akan")).
Proof.
  apply (proj2 (export_fails_exactly twi_aka_ak (fun _ => []) (fun _ => [])
                  (one_dir (str "t") mixed_listing)
                  (str "agric") (str "akan") (str "json") (str "t"))
               (loaded twi_aka_ak (one_dir (str "t") mixed_listing)
                       (str "t"))).
  - vm_compute. reflexivity.
  - split; [vm_compute; reflexivity | left; vm_compute; reflexivity].
Defined.

(** X19.  Whenever the lookup that [preprocess_text] uses gives terms,
    [export_terminology] exports exactly those: one record per term, in
    the order of the bucket, from which each term can be read back; the
    formats "json" and "csv" serialize that very list. *)
Theorem export_matches_lookup (cv : pystr -> pystr)
        (json_dumps csv_text : list (dict pystr pyval) -> pystr)
        (fs : FileSystem) (d l output_format dir : pystr)
        (st : TerminologyManager) :
  load cv fs dir = Ok st ->
  get_terms_for_domain_lang cv st d l <> [] ->
  export_terminology cv json_dumps csv_text fs d l output_format dir
  = UOk (if str_eqb output_format (str "json")
         then ExportedText
                (json_dumps
                   (map term_record
                      (dict_values (get_terms_for_domain_lang cv st d l))))
         else if str_eqb output_format (str "csv")
              then ExportedText
                     (csv_text
                        (map term_record
                           (dict_values
                              (get_terms_for_domain_lang cv st d l))))
              else ExportedList
                     (map term_record
                        (dict_values
                           (get_terms_for_domain_lang cv st d l)))) /\
  map record_term
      (map term_record (dict_values (get_terms_for_domain_lang cv st d l)))
  = map Some (dict_values (get_terms_for_domain_lang cv st d l)).
Proof.
  intros H Hne. split.
  - rewrite (export_unfold cv json_dumps csv_text fs dir H). cbv zeta.
    destruct (get_terms_for_domain_lang cv st d l) as [|e b];
      [congruence|].
    destruct (str_eqb output_format (str "json")); [reflexivity|].
    destruct (str_eqb output_format (str "csv")); reflexivity.
  - rewrite map_map. apply map_ext. apply record_term_record.
Qed.

Lemma export_matches_lookup_witness :
  export_terminology twi_aka_ak (fun _ => []) (fun _ => [])
    (one_dir (str "t") mixed_listing)
    (str "agric") (str "ewe") (str "records") (str "t")
  = UOk (ExportedList
           [term_record (mkTerm 1 (str "acid") (str "A") (str "agric")
                                (str "ewe") (str "ewe"))]).
Proof.
  apply (@export_matches_lookup twi_aka_ak (fun _ => []) (fun _ => [])
           (one_dir (str "t") mixed_listing)
           (str "agric") (str "ewe") (str "records") (str "t")
           (loaded twi_aka_ak (one_dir (str "t") mixed_listing) (str "t"))).
  - vm_compute. reflexivity.
  - vm_compute. discriminate.
Defined.

(** X20.  [export_terminology] finds terms that [preprocess_text] does
    not: when the lookup gives nothing and the first stored pair of the
    domain whose language has the same converted code as the requested
    language (whatever the length of that language) holds a bucket that is
    not empty, [preprocess_text] raises while the export returns the terms
    of that pair, in the requested format. *)
Theorem export_reaches_further (cv : pystr -> pystr)
        (json_dumps csv_text : list (dict pystr pyval) -> pystr)
        (fs : FileSystem) (d l output_format dir : pystr)
        (st : TerminologyManager)
        (e : pystr * Term) (b : dict pystr Term) :
  load cv fs dir = Ok st ->
  get_terms_for_domain_lang cv st d l = [] ->
  find_converted cv d (cv l) (terms_by_domain_lang st) = Some (e :: b) ->
  (forall text, exists err, preprocess_text cv st text d l = Err err) /\
  export_terminology cv json_dumps csv_text fs d l output_format dir
  = UOk (if str_eqb output_format (str "json")
         then ExportedText
                (json_dumps (map term_record (dict_values (e :: b))))
         else if str_eqb output_format (str "csv")
              then ExportedText
                     (csv_text (map term_record (dict_values (e :: b))))
              else ExportedList (map term_record (dict_values (e :: b)))).
Proof.
  intros H Hg Hf. split.
  - intros text. rewrite (preprocess_text_empty cv st text d l Hg).
    destruct (mem str_eqb d (get_domains st)); eauto.
  - rewrite (export_unfold cv json_dumps csv_text fs dir H). cbv zeta.
    rewrite Hg, Hf.
    destruct (str_eqb output_format (str "json")); [reflexivity|].
    destruct (str_eqb output_format (str "csv")); reflexivity.
Qed.

Lemma export_reaches_further_witness :
  export_terminology cmn_zh (fun _ => []) (fun _ => [])
    (one_dir (str "t") cmn_listing)
    (str "agric") (str "zh-CN") (str "records") (str "t")
  = UOk (ExportedList
           [term_record (mkTerm 1 (str "acid") (str "X") (str "agric")
                                (str "cmn") (str "zh-CN"))]).
Proof.
  apply (@export_reaches_further cmn_zh (fun _ => []) (fun _ => [])
           (one_dir (str "t") cmn_listing)
           (str "agric") (str "zh-CN") (str "records") (str "t")
           (loaded cmn_zh (one_dir (str "t") cmn_listing) (str "t"))
           (str "acid",
            mkTerm 1 (str "acid") (str "X") (str "agric") (str "cmn")
                   (str "zh-CN")) []).
  - vm_compute. reflexivity.
  - vm_compute. reflexivity.
  - vm_compute. reflexivity.
Defined.

(** *** [list_available_options] *)

Lemma dict_append_same (d : dict pystr (list pystr)) (k x : pystr) :
  dict_get str_eqb (dict_append d k x) k
  = Some (match dict_get str_eqb d k with Some l => l | None => [] end
          ++ [x]).
Proof.
  unfold dict_append, dict_mem.
  destruct (dict_get str_eqb d k) as [l|] eqn:E.
  - rewrite E. apply dict_get_set_same. apply str_eqb_eq.
  - rewrite (dict_get_set_same str_eqb str_eqb_eq).
    apply dict_get_set_same. apply str_eqb_eq.
Qed.

Lemma dict_append_other (d : dict pystr (list pystr)) (k x k' : pystr) :
  k' <> k ->
  dict_get str_eqb (dict_append d k x) k' = dict_get str_eqb d k'.
Proof.
  intros N. unfold dict_append, dict_mem.
  destruct (dict_get str_eqb d k) as [l|] eqn:E.
  - rewrite E. apply dict_get_set_other; [apply str_eqb_eq | exact N].
  - rewrite (dict_get_set_same str_eqb str_eqb_eq).
    rewrite !(dict_get_set_other str_eqb str_eqb_eq) by exact N.
    reflexivity.
Qed.

Lemma grouped_cons (prior : option (list pystr)) (x : pystr)
      (items : list pystr) :
  grouped (Some (match prior with Some l => l | None => [] end ++ [x])) items
  = grouped prior (x :: items).
Proof.
  destruct items as [|y items]; simpl; [reflexivity|].
  rewrite <- app_assoc. reflexivity.
Qed.

Section Grouping.
Variable cv : pystr -> pystr.

Lemma group_fold (pairs : list (pystr * pystr)) : forall a g d,
  dict_get str_eqb (fst (fold_left (group_step cv) pairs (a, g))) d
  = grouped (dict_get str_eqb a d)
            (map snd (filter (fun p => str_eqb (fst p) d) pairs)) /\
  dict_get str_eqb (snd (fold_left (group_step cv) pairs (a, g))) d
  = grouped (dict_get str_eqb g d)
            (map cv (map snd (filter (fun p => str_eqb (fst p) d) pairs))).
Proof.
  induction pairs as [|[d0 l0] pairs IH]; intros a g d; [auto|].
  simpl fold_left. unfold group_step at 2 4. simpl fst. simpl snd.
  destruct (IH (dict_append a d0 l0) (dict_append g d0 (cv l0)) d)
    as [H1 H2].
  rewrite H1, H2. simpl filter.
  destruct (str_eqb d0 d) eqn:E.
  - apply str_eqb_eq in E. subst d0.
    rewrite !dict_append_same. simpl map.
    split; apply grouped_cons.
  - apply str_eqb_neq in E.
    rewrite !dict_append_other by congruence. auto.
Qed.

Lemma mapping_fold (langs : list pystr) : forall acc l,
  dict_get str_eqb
    (fold_left (fun d lang => dict_set str_eqb d lang (cv lang)) langs acc) l
  = if mem str_eqb l langs then Some (cv l) else dict_get str_eqb acc l.
Proof.
  induction langs as [|x langs IH]; intros acc l; [reflexivity|].
  simpl fold_left. rewrite IH. simpl mem.
  destruct (mem str_eqb l langs); [rewrite orb_true_r; reflexivity|].
  rewrite orb_false_r.
  destruct (str_eqb l x) eqn:E.
  - apply str_eqb_eq in E. subst x.
    apply dict_get_set_same. apply str_eqb_eq.
  - apply str_eqb_neq in E.
    apply dict_get_set_other; [apply str_eqb_eq | exact E].
Qed.
End Grouping.

Lemma filter_strongly_sorted (A : Type) (R : A -> A -> Prop)
      (p : A -> bool) (l : list A) :
  StronglySorted R l -> StronglySorted R (filter p l).
Proof.
  induction 1 as [|x l Hs IH Hall]; simpl; [constructor|].
  destruct (p x); [|exact IH].
  constructor; [exact IH|].
  rewrite Forall_forall in Hall |- *. intros y Hy.
  apply filter_In in Hy. apply Hall. tauto.
Qed.

Lemma same_domain_sorted (d : pystr) (l : list (pystr * pystr)) :
  (forall p, In p l -> fst p = d) ->
  StronglySorted pair_le l -> StronglySorted str_le (map snd l).
Proof.
  intros Hd. induction 1 as [|x l Hs IH Hall]; simpl; [constructor|].
  constructor; [apply IH; intros p Hp; apply Hd; right; exact Hp|].
  rewrite Forall_forall in Hall |- *. intros y Hy.
  apply in_map_iff in Hy. destruct Hy as (q & <- & Hq).
  specialize (Hall q Hq). unfold pair_le, str_le, le_of, pair_leb in *.
  rewrite (Hd x (or_introl eq_refl)), (Hd q (or_intror Hq)) in Hall.
  rewrite str_eqb_refl in Hall. exact Hall.
Qed.

Lemma languages_of_spec (st : TerminologyManager) (d : pystr) :
  StronglySorted str_le (languages_of st d) /\
  forall l, In l (languages_of st d) <-> In (d, l) (domains_languages st).
Proof.
  unfold languages_of. split.
  - apply (@same_domain_sorted d).
    + intros p Hp. apply filter_In in Hp. destruct Hp as [_ E].
      apply str_eqb_eq in E. exact E.
    + apply filter_strongly_sorted.
      apply (sorted_by_sorted pair_leb pair_leb_total pair_leb_trans).
  - intros l. rewrite in_map_iff. split.
    + intros ([d' l'] & E & Hp). simpl in E. subst l'.
      apply filter_In in Hp. destruct Hp as [Hp E]. simpl in E.
      apply str_eqb_eq in E. subst d'.
      apply (Permutation_in _ (Permutation_sym (sorted_by_perm pair_leb _))).
      exact Hp.
    + intros H. exists (d, l). split; [reflexivity|].
      apply filter_In. split; [|simpl; apply str_eqb_refl].
      apply (Permutation_in _ (sorted_by_perm pair_leb _)). exact H.
Qed.

(** X21.  [list_available_options] fails as the load does; otherwise it
    returns the sorted domains and languages of the manager and, by
    domain, the stored languages of that domain in ascending order (a
    domain without stored language is no key); the listing in provider
    codes holds the same entries converted, in the same order and without
    merging equal codes; and for the format "both" the language mapping
    sends exactly the stored languages to their converted codes. *)
Theorem available_options_grouped (cv : pystr -> pystr) (fs : FileSystem)
        (dir format : pystr) :
  (forall e, load cv fs dir = Err e ->
             list_available_options cv fs dir format = Err e) /\
  (forall st,
      load cv fs dir = Ok st ->
      exists dwo dwg lm,
        list_available_options cv fs dir format
        = Ok (if str_eqb format (str "original")
              then OptionsOriginal (get_domains st)
                     (get_languages cv st (str "original")) dwo
              else if str_eqb format (str "google")
                   then OptionsGoogle (get_domains st)
                          (get_languages cv st (str "google")) dwg
                   else OptionsBoth (get_domains st)
                          (get_languages cv st (str "original"))
                          (get_languages cv st (str "google"))
                          dwo dwg lm) /\
        (forall d, dict_get str_eqb dwo d
                   = grouped None (languages_of st d)) /\
        (forall d, dict_get str_eqb dwg d
                   = grouped None (map cv (languages_of st d))) /\
        (forall d, StronglySorted str_le (languages_of st d) /\
                   forall l, In l (languages_of st d) <->
                             In (d, l) (domains_languages st)) /\
        (forall l, dict_get str_eqb lm l
                   = if mem str_eqb l (get_languages cv st (str "original"))
                     then Some (cv l) else None)).
Proof.
  split.
  - intros e H. unfold list_available_options. rewrite H. reflexivity.
  - intros st H.
    exists (fst (fold_left (group_step cv)
                   (get_available_domains_languages st) ([], []))),
      (snd (fold_left (group_step cv)
              (get_available_domains_languages st) ([], []))),
      (fold_left (fun d lang => dict_set str_eqb d lang (cv lang))
                 (get_languages cv st (str "original")) []).
    split; [|split; [|split; [|split]]].
    + unfold list_available_options. rewrite H. cbv zeta.
      destruct (str_eqb format (str "original")); [reflexivity|].
      destruct (str_eqb format (str "google")); reflexivity.
    + intros d.
      apply (proj1 (group_fold cv (get_available_domains_languages st)
                      [] [] d)).
    + intros d.
      apply (proj2 (group_fold cv (get_available_domains_languages st)
                      [] [] d)).
    + apply languages_of_spec.
    + intros l. rewrite mapping_fold. reflexivity.
Qed.

Lemma available_options_grouped_witness :
  exists dwo dwg lm,
    list_available_options twi_aka_ak (one_dir (str "t") mixed_listing)
                           (str "t") (str "both")
    = Ok (OptionsBoth [str "agric"; str "soil"]
            [str "aka"; str "ewe"; str "twi"] [str "ak"; str "ewe"]
            dwo dwg lm) /\
    dict_get str_eqb dwo (str "agric") = Some [str "aka"; str "ewe"] /\
    dict_get str_eqb dwg (str "agric") = Some [str "ak"; str "ewe"].
Proof.
  destruct (proj2 (available_options_grouped twi_aka_ak
                     (one_dir (str "t") mixed_listing)
                     (str "t") (str "both"))
              (loaded twi_aka_ak (one_dir (str "t") mixed_listing) (str "t")))
    as (dwo & dwg & lm & H1 & H2 & H3 & _).
  - vm_compute. reflexivity.
  - exists dwo, dwg, lm. split; [exact H1|].
    rewrite H2, H3. split; vm_compute; reflexivity.
Defined.

(** ** Blank terms and shared ids *)

Lemma lstrip_spaces (s : pystr) :
  (forall c, In c s -> is_space c = true) -> lstrip s = [].
Proof.
  induction s as [|c s IH]; intros H; [reflexivity|].
  simpl. rewrite (H c (or_introl eq_refl)).
  apply IH. intros x Hx. apply H. right. exact Hx.
Qed.

Lemma match_here_empty (prev : option ascii) (text : pystr) :
  match_here [] prev text = at_boundary prev (hd_error text).
Proof.
  unfold match_here. simpl. rewrite andb_true_r.
  destruct (at_boundary prev (hd_error text)); reflexivity.
Qed.

Lemma last_char_in (a : pystr) (c : ascii) :
  last_char None a = Some c -> In c a.
Proof.
  destruct a as [|x a] using rev_ind; [discriminate|].
  rewrite last_char_app. simpl. intros H. injection H as <-.
  apply in_or_app. right. left. reflexivity.
Qed.

Lemma first_word_split (text : pystr) :
  (exists c, In c text /\ is_word c = true) ->
  exists a c b,
    text = a ++ c :: b /\ is_word c = true /\
    word_opt (last_char None a) = false.
Proof.
  induction text as [|x text IH]; intros (c & Hin & Hw); [destruct Hin|].
  destruct (is_word x) eqn:Ex.
  - exists [], x, text. auto.
  - destruct IH as (a & c' & b & -> & Hc & Ha).
    + destruct Hin as [->|Hin]; [congruence | eauto].
    + exists (x :: a), c', b. split; [reflexivity|]. split; [exact Hc|].
      destruct a as [|y a] using rev_ind.
      * simpl. exact Ex.
      * change (x :: a ++ [y]) with ((x :: a) ++ [y]).
        rewrite last_char_app in Ha |- *. exact Ha.
Qed.

(** X22.  A term cell that holds ASCII white space only is stored as the
    empty term, and the pattern of the empty term matches in an ASCII text
    exactly when the text holds a word character (it matches at every
    word boundary). *)
Theorem blank_term_matches_every_word :
  (forall r, (forall s, row_term r = Some s ->
                        ascii_str s = true /\
                        forall c, In c s -> is_space c = true) ->
             row_term r <> None ->
             term_key r = []) /\
  (forall text, ascii_str text = true ->
                (occurs [] text <->
                 exists c, In c text /\ is_word c = true)).
Proof.
  split.
  - intros r H0 Hn.
    assert (H : forall s, row_term r = Some s ->
                          forall c, In c s -> is_space c = true)
      by (intros s Hs; apply (H0 s Hs)).
    clear H0. unfold term_key.
    destruct (row_term r) as [s|]; [|congruence]. simpl str_cell.
    unfold strip. rewrite lstrip_spaces; [reflexivity|].
    intros c Hc. unfold lower in Hc. apply in_map_iff in Hc.
    destruct Hc as (x & <- & Hx). rewrite is_space_lower.
    apply (H s eq_refl). exact Hx.
  - intros text _. unfold occurs. split.
    + intros (a & b & -> & H). rewrite match_here_empty in H.
      unfold at_boundary in H.
      destruct (word_opt (last_char None a)) eqn:Ea.
      * destruct (last_char None a) as [c|] eqn:El; [|discriminate Ea].
        exists c. split; [|exact Ea].
        apply in_or_app. left. apply last_char_in. exact El.
      * destruct b as [|c b]; [discriminate H|].
        simpl in H. exists c. split; [|exact H].
        apply in_or_app. right. left. reflexivity.
    + intros H.
      destruct (@first_word_split text H) as (a & c & b & -> & Hc & Ha).
      exists a, (c :: b). split; [reflexivity|].
      rewrite match_here_empty. unfold at_boundary. rewrite Ha.
      simpl. exact Hc.
Qed.

Lemma blank_term_matches_every_word_witness :
  term_key (mkRow (IdNum 1) (Some (str "  ")) (Some (str "X"))) = [].
Proof.
  apply (proj1 blank_term_matches_every_word).
  - intros s E. injection E as <-. split; [reflexivity|].
    intros c Hc. destruct Hc as [<-|[<-|[]]]; reflexivity.
  - discriminate.
Defined.

(** X23.  Two terms have the same placeholder exactly when they have the
    same id; and, for ASCII terms and an ASCII text, the entry of a
    placeholder in the replacement map is the last matched term that
    carries its id: a matched term after which no term of the same id
    comes is the entry of its placeholder, also for the earlier terms that
    share the id. *)
Theorem shared_id_last_match_wins :
  (forall t u, placeholder t = placeholder u <-> id t = id u) /\
  (forall ts text before u after,
      ascii_str text = true ->
      (forall v, In v ts -> ascii_str (term v) = true) ->
      ts = before ++ u :: after ->
      occurs (term u) (fst (fold_left preprocess_step before (text, []))) ->
      (forall v, In v after -> id v <> id u) ->
      forall t, id t = id u ->
                dict_get str_eqb
                         (snd (fold_left preprocess_step ts (text, [])))
                         (placeholder t)
                = Some u).
Proof.
  assert (Hph : forall t u, placeholder t = placeholder u <-> id t = id u).
  { intros t u. split; [apply placeholder_inj|].
    intros E. rewrite !placeholder_cons, E. reflexivity. }
  split; [exact Hph|].
  intros ts text before u after _ _ -> Hocc Hafter t Et.
  rewrite (proj2 (Hph t u) Et).
  rewrite fold_left_app. simpl fold_left.
  destruct (fold_left preprocess_step before (text, [])) as [cur1 m1].
  simpl in Hocc.
  destruct (preprocess_step (cur1, m1) u) as [cur2 m2] eqn:Estep.
  rewrite loop_keeps by exact Hafter.
  destruct (preprocess_step_spec cur1 m1 u) as (_ & Hyes & _).
  rewrite Estep in Hyes. simpl in Hyes. rewrite (Hyes Hocc).
  apply dict_get_set_same. apply str_eqb_eq.
Qed.

Lemma shared_id_last_match_wins_witness :
  dict_get str_eqb
    (snd (fold_left preprocess_step
            [term_of 1 "abattoir" "X"; term_of 1 "acreage" "Z"]
            (str "abattoir acreage", [])))
    (placeholder (term_of 1 "abattoir" "X"))
  = Some (term_of 1 "acreage" "Z").
Proof.
  apply (proj2 shared_id_last_match_wins
           [term_of 1 "abattoir" "X"; term_of 1 "acreage" "Z"]
           (str "abattoir acreage")
           [term_of 1 "abattoir" "X"] (term_of 1 "acreage" "Z") []).
  - reflexivity.
  - intros v [<-|[<-|[]]]; reflexivity.
  - reflexivity.
  - apply occurs_count. vm_compute. lia.
  - intros v [].
  - reflexivity.
Defined.
